(** * hyperbloom-trust: the trust-chain store of lib/trust.js

    A shallow embedding of [Trust] (lib/trust.js): the in-memory link graph,
    the depth-first chain search of [getChain] with its LRU cache, the
    start-up load from the key-value store and the counter that defers
    [close] while storage operations are in flight.

    Conventions of the embedding.
    - A [Buffer] is its content; [toString('hex')] is injective, so a JS
      [Map] keyed by the hex string of a key is modelled as keyed by the key.
    - A reading of the clock ([Date.now() / 1000]) is a finite number: an
      integer in one fixed unit, since only the order of times is used.  An
      expiration is a number that the codec returns: a finite one, in the
      same unit, or [Infinity], [-Infinity] or [NaN] ([Num]); comparisons and
      [Math.min] are those of JavaScript.
    - The engine is single-threaded: every public call and every callback of
      the store runs to completion on the state it finds.  Every evaluation
      of [Date.now()] is a reading of its own: [addChain] takes a clock that
      gives the reading of [_addLink] for each link of the batch, the end of
      the start-up load one that gives the reading of each replayed query.
    - [process.nextTick(cb, ...)] appends to [nextTicks]; a callback is known
      by an opaque number.
    - The link codec ([hyperbloom-chain], [parseLink]) and
      [constants.MAX_CHAIN_LENGTH] ([hyperbloom-constants]) are not part of
      this repository: they are the two fields of [Env]. *)

From Stdlib Require Import List ZArith String Bool Arith Lia.
Import ListNotations.

Set Implicit Arguments.

Definition Buffer := string.
Definition Callback := nat.

(** ** JavaScript numbers used as times *)

Inductive Num := Finite (z : Z) | Infinity | NegInfinity | NaN.

(** [a <= b], for a finite [b]: false when [a] is [NaN]. *)
Definition num_le (a : Num) (b : Z) : bool :=
  match a with
  | Finite z => Z.leb z b
  | NegInfinity => true
  | Infinity | NaN => false
  end.

(** [a > b], for a finite [b]: false when [a] is [NaN]. *)
Definition num_gt (a : Num) (b : Z) : bool :=
  match a with
  | Finite z => Z.ltb b z
  | Infinity => true
  | NegInfinity | NaN => false
  end.

(** [a < b]: false when one of the two is [NaN]. *)
Definition num_lt (a b : Num) : bool :=
  match a, b with
  | NaN, _ | _, NaN => false
  | Finite x, Finite y => Z.ltb x y
  | NegInfinity, (Finite _ | Infinity) => true
  | Finite _, Infinity => true
  | _, _ => false
  end.

(** [Math.min(a, b)]: [NaN] when one of the two is. *)
Definition Math_min (a b : Num) : Num :=
  match a, b with
  | NaN, _ | _, NaN => NaN
  | NegInfinity, _ | _, NegInfinity => NegInfinity
  | Infinity, x => x
  | x, Infinity => x
  | Finite x, Finite y => Finite (Z.min x y)
  end.

(** A clock that gives the same reading every time. *)
Definition at_time (now : Z) : nat -> Z := fun _ => now.

(** The clock after one reading. *)
Definition later (clock : nat -> Z) : nat -> Z := fun i => clock (S i).

(** ** JavaScript [Map]: insertion-ordered, [set] on a present key keeps its
    place, [delete] removes it. *)

Module JsMap.

Definition t (V : Type) := list (Buffer * V).

Fixpoint get {V} (k : Buffer) (m : t V) : option V :=
  match m with
  | [] => None
  | (k', v) :: m' => if String.eqb k' k then Some v else get k m'
  end.

Definition has {V} (k : Buffer) (m : t V) : bool :=
  match get k m with Some _ => true | None => false end.

Fixpoint set {V} (k : Buffer) (v : V) (m : t V) : t V :=
  match m with
  | [] => [(k, v)]
  | (k', v') :: m' =>
      if String.eqb k' k then (k, v) :: m' else (k', v') :: set k v m'
  end.

Fixpoint delete {V} (k : Buffer) (m : t V) : t V :=
  match m with
  | [] => []
  | (k', v') :: m' =>
      if String.eqb k' k then delete k m' else (k', v') :: delete k m'
  end.

Definition entries {V} (m : t V) : list (Buffer * V) := m.

End JsMap.

(** ** The [lru] package, as far as [Trust] uses it: [get] returns the value
    last [set] for the key and makes the key the most recent one; [set] of a
    new key into a full cache evicts the least recent one.  The list is kept
    most recent first. *)

Module LRU.

Record t (V : Type) := mk { max : nat; items : list (Buffer * V) }.

Definition create (V : Type) (n : nat) : t V := mk n [].

Definition get {V} (k : Buffer) (c : t V) : option V * t V :=
  match JsMap.get k (items c) with
  | Some v => (Some v, mk (max c) ((k, v) :: JsMap.delete k (items c)))
  | None => (None, c)
  end.

Definition remove {V} (k : Buffer) (c : t V) : t V :=
  mk (max c) (JsMap.delete k (items c)).

Definition set {V} (k : Buffer) (v : V) (c : t V) : t V :=
  if JsMap.has k (items c)
  then mk (max c) ((k, v) :: JsMap.delete k (items c))
  else mk (max c)
          ((k, v) :: (if Nat.eqb (List.length (items c)) (max c)
                      then removelast (items c) else items c)).

End LRU.

(** ** Data of lib/trust.js *)

Module Link.
Record t := mk { publicKey : Buffer; expiration : Num }.
End Link.

(** The argument of [addChild]: [{ link, raw }]. *)
Record Child := mkChild { link : Link.t; raw : Buffer }.

Record TrustNode := mkNode { children : JsMap.t Child }.

(** The value kept in [_lru]: [{ expiration, chain }]. *)
Record Cached := mkCached { c_expiration : Num; c_chain : list Buffer }.

(** An entry of the search [queue]: [{ node, expiration, chain }].  [node] is
    a reference to an object of [_graph]; a node object is created once per
    key and never leaves [_graph], so the reference is its key. *)
Record Item := mkItem
  { i_node : Buffer; i_expiration : Num; i_chain : list Buffer }.

(** What a callback is called with. *)
Inductive Reply :=
| Chain (chain : list Buffer)       (* [callback(null, chain)] *)
| Failure (message : string)        (* [callback(new Error(message))] *)
| Called.                           (* [callback()] *)

Inductive Completion :=
| Returned
| Threw (message : string).

(** ** The [level] handle: the operations in flight and the calls of
    [db.close]. *)

Inductive DbOp :=
| Scan                               (* [createReadStream] *)
| Put (key value : string)
| Del (key : string).

Module Level.
Record t := mk
  { store : JsMap.t string;
    pending : list DbOp;
    closeCalls : list Callback }.

Definition open : t := mk [] [] [].
Definition start (op : DbOp) (d : t) : t :=
  mk (store d) (pending d ++ [op]) (closeCalls d).
Definition close (cb : Callback) (d : t) : t :=
  mk (store d) (pending d) (closeCalls d ++ [cb]).

Fixpoint remove_nth (i : nat) (l : list DbOp) : list DbOp :=
  match l, i with
  | [], _ => []
  | _ :: l', O => l'
  | x :: l', S i' => x :: remove_nth i' l'
  end.

(** The [i]-th operation in flight lands; a failed one leaves the store. *)
Definition land (i : nat) (err : bool) (d : t) : t :=
  let st :=
    if err then store d else
    match nth_error (pending d) i with
    | Some (Put k v) => JsMap.set k v (store d)
    | Some (Del k) => JsMap.delete k (store d)
    | _ => store d
    end in
  mk st (remove_nth i (pending d)) (closeCalls d).
End Level.

Definition LINK_PREFIX : string := "l2/".
Definition LRU_SIZE : nat := 128.

Record Trust := mkTrust
  { db : Level.t;
    publicKey : Buffer;
    _graph : JsMap.t TrustNode;
    _lru : LRU.t Cached;
    _ready : bool;
    _queue : list (Buffer * Callback);   (* [() => this.getChain(root, callback)] *)
    _dbUsed : Z;
    _dbQueue : list Callback;            (* [() => this.close(cb)] *)
    nextTicks : list (Callback * Reply) }.

Definition set_db d (t : Trust) : Trust :=
  mkTrust d (publicKey t) (_graph t) (_lru t) (_ready t) (_queue t)
          (_dbUsed t) (_dbQueue t) (nextTicks t).
Definition set_graph g (t : Trust) : Trust :=
  mkTrust (db t) (publicKey t) g (_lru t) (_ready t) (_queue t)
          (_dbUsed t) (_dbQueue t) (nextTicks t).
Definition set_lru c (t : Trust) : Trust :=
  mkTrust (db t) (publicKey t) (_graph t) c (_ready t) (_queue t)
          (_dbUsed t) (_dbQueue t) (nextTicks t).
Definition set_ready b (t : Trust) : Trust :=
  mkTrust (db t) (publicKey t) (_graph t) (_lru t) b (_queue t)
          (_dbUsed t) (_dbQueue t) (nextTicks t).
Definition set_queue q (t : Trust) : Trust :=
  mkTrust (db t) (publicKey t) (_graph t) (_lru t) (_ready t) q
          (_dbUsed t) (_dbQueue t) (nextTicks t).
Definition set_dbUsed n (t : Trust) : Trust :=
  mkTrust (db t) (publicKey t) (_graph t) (_lru t) (_ready t) (_queue t)
          n (_dbQueue t) (nextTicks t).
Definition set_dbQueue q (t : Trust) : Trust :=
  mkTrust (db t) (publicKey t) (_graph t) (_lru t) (_ready t) (_queue t)
          (_dbUsed t) q (nextTicks t).

(** [process.nextTick(callback, ...)] *)
Definition nextTick (cb : Callback) (r : Reply) (t : Trust) : Trust :=
  mkTrust (db t) (publicKey t) (_graph t) (_lru t) (_ready t) (_queue t)
          (_dbUsed t) (_dbQueue t) (nextTicks t ++ [(cb, r)]).

(** ** TrustNode *)

Definition addChild (child : Child) (n : TrustNode) : TrustNode :=
  mkNode (JsMap.set (Link.publicKey (link child)) child (children n)).

Definition removeChild (key : Buffer) (n : TrustNode) : TrustNode :=
  mkNode (JsMap.delete key (children n)).

(** ** The counter of storage operations *)

Definition _useDB (t : Trust) : Trust := set_dbUsed (_dbUsed t + 1)%Z t.

Definition close (cb : Callback) (t : Trust) : Trust :=
  if negb (Z.eqb (_dbUsed t) 0)
  then set_dbQueue (_dbQueue t ++ [cb]) t
  else set_db (Level.close cb (db t)) t.

Definition _freeDB (t : Trust) : Trust * Completion :=
  let t1 := set_dbUsed (_dbUsed t - 1)%Z t in
  if negb (Z.leb 0 (_dbUsed t1)) then (t1, Threw "AssertionError")
  else if negb (Z.eqb (_dbUsed t1) 0) then (t1, Returned)
  else
    let queue := _dbQueue t1 in
    let t2 := set_dbQueue [] t1 in
    (fold_left (fun st cb => close cb st) queue t2, Returned).

(** ** The engine *)

(** What the engine takes from its two dependencies:
    [this._chain.parseLink(raw)] of hyperbloom-chain ([None] when the codec
    throws) and [constants.MAX_CHAIN_LENGTH] of hyperbloom-constants. *)
Class Env := mkEnv
  { parseLink : Buffer -> option Link.t;
    MAX_CHAIN_LENGTH : nat }.

Section Engine.

Context {env : Env}.

Definition _addMemLink (parent raw : Buffer) (link : option Link.t)
    (t : Trust) : Trust * Completion :=
  match (match link with Some l => Some l | None => parseLink raw end) with
  | None => (t, Threw "parseLink")
  | Some l =>
      let hexParent := parent in
      let '(node, g) :=
        match JsMap.get hexParent (_graph t) with
        | Some n => (n, _graph t)
        | None => (mkNode [], JsMap.set hexParent (mkNode []) (_graph t))
        end in
      (set_graph (JsMap.set hexParent (addChild (mkChild l raw) node) g) t,
       Returned)
  end.

Definition _addLink (parent raw : Buffer) (link : Link.t) (now : Z)
    (t : Trust) : Trust :=
  if num_le (Link.expiration link) now then t
  else
    let t1 := _useDB t in
    let t2 :=
      set_db (Level.start (Put (String.append LINK_PREFIX raw) parent) (db t1))
             t1 in
    fst (_addMemLink parent raw (Some link) t2).

(** The body of [raw.forEach] in [addChain], with [prev] threaded.  Each
    [_addLink] reads [Date.now()] itself: [clock 0] is the reading for the
    first link of [raw], [clock 1] for the second, and so on. *)
Fixpoint addChain_forEach (prev : Buffer) (raw : list Buffer)
    (clock : nat -> Z) (t : Trust) : Trust * Completion :=
  match raw with
  | [] => (t, Returned)
  | rawLink :: rest =>
      match parseLink rawLink with
      | None => (t, Threw "parseLink")
      | Some link =>
          addChain_forEach (Link.publicKey link) rest (later clock)
                           (_addLink prev rawLink link (clock O) t)
      end
  end.

Definition addChain (root : Buffer) (raw : list Buffer)
    (callback : option Callback) (clock : nat -> Z) (t : Trust)
  : Trust * Completion :=
  if Nat.eqb (List.length raw) 0 then (t, Returned)
  else
    match addChain_forEach root raw clock t with
    | (t1, Returned) =>
        (match callback with
         | Some cb => nextTick cb Called t1
         | None => t1
         end, Returned)
    | (t1, Threw e) => (t1, Threw e)
    end.

(** Apply [f] to the node object that [key] refers to. *)
Definition update_node (key : Buffer) (f : TrustNode -> TrustNode)
    (g : JsMap.t TrustNode) : JsMap.t TrustNode :=
  match JsMap.get key g with
  | Some n => JsMap.set key (f n) g
  | None => g
  end.

Definition node_entries (key : Buffer) (g : JsMap.t TrustNode)
  : list (Buffer * Child) :=
  match JsMap.get key g with
  | Some n => JsMap.entries (children n)
  | None => []
  end.

Definition visited_has (key : Buffer) (visited : list Buffer) : bool :=
  existsb (String.eqb key) visited.

Inductive ForResult :=
| Found (t : Trust)                          (* [return] out of [getChain] *)
| Continue (queue : list Item) (t : Trust).  (* the [for] ran to its end *)

(** The [for (let [trusteeKey, value] of item.node.children.entries())] of
    [getChain].  The only change to [item.node.children] during the loop is
    the [removeChild] of the entry at hand, which a [Map] iterator tolerates,
    so the loop runs over the entries found at its start.  [queue] is the
    array used as a stack, last element first. *)
Fixpoint for_children (hexRoot : Buffer) (callback : Callback) (now : Z)
    (visited : list Buffer) (item : Item) (entries : list (Buffer * Child))
    (queue : list Item) (t : Trust) : ForResult :=
  match entries with
  | [] => Continue queue t
  | (trusteeKey, value) :: rest =>
      if num_le (Link.expiration (link value)) now then
        let t1 :=
          set_graph (update_node (i_node item) (removeChild trusteeKey)
                                 (_graph t)) t in
        let t2 := _useDB t1 in
        let t3 :=
          set_db (Level.start (Del (String.append LINK_PREFIX (raw value)))
                              (db t2)) t2 in
        for_children hexRoot callback now visited item rest queue t3
      else
        let chain := i_chain item ++ [raw value] in
        let expiration :=
          Math_min (i_expiration item) (Link.expiration (link value)) in
        if String.eqb (publicKey t) (Link.publicKey (link value)) then
          Found (nextTick callback (Chain chain)
                   (set_lru (LRU.set hexRoot (mkCached expiration chain)
                                     (_lru t)) t))
        else
          match JsMap.get trusteeKey (_graph t) with
          | None => for_children hexRoot callback now visited item rest queue t
          | Some _ =>
              if visited_has trusteeKey visited then
                for_children hexRoot callback now visited item rest queue t
              else if Nat.leb MAX_CHAIN_LENGTH (List.length chain) then
                for_children hexRoot callback now visited item rest queue t
              else
                for_children hexRoot callback now visited item rest
                  (mkItem trusteeKey expiration chain :: queue) t
          end
  end.

(** The [while (queue.length !== 0)] of [getChain]; [None] when [fuel] rounds
    were not enough. *)
Fixpoint search (fuel : nat) (hexRoot : Buffer) (callback : Callback)
    (now : Z) (visited : list Buffer) (queue : list Item) (t : Trust)
  : option Trust :=
  match fuel with
  | O => None
  | S fuel' =>
      match queue with
      | [] => Some (nextTick callback (Failure "No trust path available") t)
      | item :: queue1 =>
          let visited1 := i_node item :: visited in
          match for_children hexRoot callback now visited1 item
                  (node_entries (i_node item) (_graph t)) queue1 t with
          | Found t' => Some t'
          | Continue queue2 t' =>
              search fuel' hexRoot callback now visited1 queue2 t'
          end
      end
  end.

(** The number of edges of the graph, and a number of rounds that the search
    never needs more than (see [search_terminates]). *)
Definition edge_count (g : JsMap.t TrustNode) : nat :=
  fold_right (fun kv n => (List.length (children (snd kv)) + n)%nat) O g.

Definition search_fuel (t : Trust) : nat :=
  S (Nat.pow (S (edge_count (_graph t))) MAX_CHAIN_LENGTH).

Definition resolve (hexRoot : Buffer) (callback : Callback) (now : Z)
    (t : Trust) : Trust :=
  match search (search_fuel t) hexRoot callback now []
               [mkItem hexRoot Infinity []] t with
  | Some t' => t'
  | None => t
  end.

Definition getChain (root : Buffer) (callback : Callback) (now : Z)
    (t : Trust) : Trust :=
  if String.eqb root (publicKey t) then nextTick callback (Chain []) t
  else if negb (_ready t) then set_queue (_queue t ++ [(root, callback)]) t
  else
    let hexRoot := root in
    if negb (JsMap.has hexRoot (_graph t)) then
      nextTick callback (Failure "No trust path available") t
    else
      let '(cached, lru1) := LRU.get hexRoot (_lru t) in
      let t1 := set_lru lru1 t in
      match cached with
      | Some c =>
          if num_gt (c_expiration c) now then
            nextTick callback (Chain (c_chain c)) t1
          else
            resolve hexRoot callback now
                    (set_lru (LRU.remove hexRoot (_lru t1)) t1)
      | None => resolve hexRoot callback now t1
      end.

(** ** Start-up load *)

Definition _load (t : Trust) : Trust :=
  let t1 := _useDB t in
  set_db (Level.start Scan (db t1)) t1.

(** [new Trust({ db, privateKey, publicKey })] *)
Definition new_Trust (publicKey : Buffer) : Trust :=
  _load (mkTrust Level.open publicKey [] (LRU.create Cached LRU_SIZE)
                 false [] 0%Z [] []).

(** The ['data'] handler of the read stream. *)
Definition load_data (key value : string) (t : Trust) : Trust * Completion :=
  let raw :=
    substring (String.length LINK_PREFIX)
              (String.length key - String.length LINK_PREFIX) key in
  let parent := value in
  _addMemLink parent raw None t.

(** The [for] of the ['end'] handler: the buffered queries are made one
    after the other, each with a reading of the clock of its own. *)
Fixpoint replay (queue : list (Buffer * Callback)) (clock : nat -> Z)
    (t : Trust) : Trust :=
  match queue with
  | [] => t
  | q :: rest =>
      replay rest (later clock) (getChain (fst q) (snd q) (clock O) t)
  end.

(** The ['end'] handler of the read stream. *)
Definition load_end (clock : nat -> Z) (t : Trust) : Trust * Completion :=
  match _freeDB t with
  | (t1, Threw e) => (t1, Threw e)
  | (t1, Returned) =>
      let queue := _queue t1 in
      let t2 := set_queue [] (set_ready true t1) in
      (replay queue clock t2, Returned)
  end.

(** The ['error'] handler of the read stream. *)
Definition load_error (t : Trust) : Trust * Completion := _freeDB t.

(** The callback of a [db.put] or [db.del]. *)
Definition op_done (t : Trust) : Trust * Completion := _freeDB t.

(** ** The engine in its environment

    The turns the runtime can take: a call of the public interface, an event
    of the read stream while it is open (it ends once, by ['end'] or by
    ['error']), or the completion of one [put] or [del] in flight.  The store
    calls every callback once. *)

Fixpoint remove_scan (l : list DbOp) : list DbOp :=
  match l with
  | [] => []
  | Scan :: l' => l'
  | op :: l' => op :: remove_scan l'
  end.

Definition stream_closed (t : Trust) : Trust :=
  set_db (Level.mk (Level.store (db t)) (remove_scan (Level.pending (db t)))
                   (Level.closeCalls (db t))) t.

Inductive Event :=
| CallAddChain (root : Buffer) (raw : list Buffer) (callback : option Callback)
               (clock : nat -> Z)
| CallGetChain (root : Buffer) (callback : Callback) (now : Z)
| CallClose (cb : Callback)
| StreamData (key value : string)
| StreamEnd (clock : nat -> Z)
| StreamError
| OpDone (i : nat) (err : bool).

Definition is_scan (op : DbOp) : bool :=
  match op with Scan => true | _ => false end.

Definition enabled (e : Event) (t : Trust) : bool :=
  match e with
  | CallAddChain _ _ _ _ | CallGetChain _ _ _ | CallClose _ => true
  | StreamData _ _ | StreamEnd _ | StreamError =>
      existsb is_scan (Level.pending (db t))
  | OpDone i _ =>
      match nth_error (Level.pending (db t)) i with
      | Some op => negb (is_scan op)
      | None => false
      end
  end.

Definition step (e : Event) (t : Trust) : Trust * Completion :=
  match e with
  | CallAddChain root raw callback clock =>
      addChain root raw callback clock t
  | CallGetChain root callback now => (getChain root callback now t, Returned)
  | CallClose cb => (close cb t, Returned)
  | StreamData key value => load_data key value t
  | StreamEnd clock => load_end clock (stream_closed t)
  | StreamError => load_error (stream_closed t)
  | OpDone i err => op_done (set_db (Level.land i err (db t)) t)
  end.

Inductive reachable (pk : Buffer) : Trust -> Prop :=
| reachable_new : reachable pk (new_Trust pk)
| reachable_step t e :
    reachable pk t -> enabled e t = true -> reachable pk (fst (step e t)).

(** Run a list of events from a state, ignoring those not enabled. *)
Definition run (es : list Event) (t : Trust) : Trust :=
  fold_left (fun st e => if enabled e st then fst (step e st) else st) es t.

End Engine.

(** ** Observations on a state *)

(** The stored edge [issuer -> subject], if any. *)
Definition edge (issuer subject : Buffer) (t : Trust) : option Child :=
  match JsMap.get issuer (_graph t) with
  | Some n => JsMap.get subject (children n)
  | None => None
  end.

(** Whether [r] is the raw link of some stored edge. *)
Definition indexed (r : Buffer) (t : Trust) : bool :=
  existsb (fun kn =>
             existsb (fun kc => String.eqb (raw (snd kc)) r)
                     (children (snd kn)))
          (_graph t).

(** What [_addMemLink] does to the graph. *)
Definition graph_add (parent : Buffer) (child : Child)
    (g : JsMap.t TrustNode) : JsMap.t TrustNode :=
  JsMap.set parent
    (addChild child
       (match JsMap.get parent g with
        | Some n => n
        | None => mkNode []
        end))
    (match JsMap.get parent g with
     | Some n => g
     | None => JsMap.set parent (mkNode []) g
     end).

(** An entry of a node whose link is to the key [pk]. *)
Definition is_local (pk : Buffer) (kv : Buffer * Child) : bool :=
  String.eqb pk (Link.publicKey (link (snd kv))).

(** An entry of a node whose link [getChain] keeps at time [now]. *)
Definition not_expired (now : Z) (kv : Buffer * Child) : Prop :=
  num_le (Link.expiration (link (snd kv))) now = false.

Definition graph_all (P : Child -> Prop) (g : JsMap.t TrustNode) : Prop :=
  Forall (fun kn => Forall (fun kc => P (snd kc)) (children (snd kn))) g.

(** An engine whose start-up load has ended on an empty store. *)
Definition loaded {env : Env} (pk : Buffer) : Trust :=
  fst (step (StreamEnd (at_time 0)) (new_Trust pk)).

(** The replacement rule in the words of the specification: a new link for a
    pair replaces the stored one iff there is none or it expires strictly
    later. *)
Definition spec_replaces (old : option Child) (new : Link.t) : bool :=
  match old with
  | None => true
  | Some o => num_lt (Link.expiration (link o)) (Link.expiration new)
  end.

(** ** What every state of a running engine satisfies *)

Section Invariants.

Context {env : Env}.

(** [r] decodes to a link that the test [expiration <= now] lets through:
    its expiration is greater than [now], or it is [NaN]. *)
Definition unexpired (now : Z) (r : Buffer) : Prop :=
  exists l, parseLink r = Some l /\ num_le (Link.expiration l) now = false.

(** [r] decodes to a link that does not expire before [e]: at every time
    that [e] is greater than, the expiration of the link is greater too. *)
Definition covers (e : Num) (r : Buffer) : Prop :=
  exists l, parseLink r = Some l /\
            forall now, num_gt e now = true ->
                        num_gt (Link.expiration l) now = true.

(** A stored [{ link, raw }] holds the decoding of its raw link. *)
Definition child_ok (kc : Buffer * Child) : Prop :=
  parseLink (raw (snd kc)) = Some (link (snd kc)).

Definition graph_ok (g : JsMap.t TrustNode) : Prop :=
  Forall (fun kn => Forall child_ok (children (snd kn))) g.

(** A cached chain: its expiration is a lower bound of those of its links,
    and it is no longer than the constant allows (when that is positive). *)
Definition cached_ok (c : Cached) : Prop :=
  Forall (covers (c_expiration c)) (c_chain c) /\
  ((1 <= MAX_CHAIN_LENGTH)%nat ->
   (List.length (c_chain c) <= MAX_CHAIN_LENGTH)%nat).

Definition lru_ok (c : LRU.t Cached) : Prop :=
  Forall (fun kv => cached_ok (snd kv)) (LRU.items c).

(** An entry of the search stack at time [now]. *)
Definition item_ok (now : Z) (it : Item) : Prop :=
  Forall (covers (i_expiration it)) (i_chain it) /\
  Forall (unexpired now) (i_chain it) /\
  ((1 <= MAX_CHAIN_LENGTH)%nat ->
   (List.length (i_chain it) < MAX_CHAIN_LENGTH)%nat).

(** What [getChain] may answer at time [now]. *)
Definition answer_ok (now : Z) (r : Reply) : Prop :=
  match r with
  | Chain chain =>
      Forall (unexpired now) chain /\
      ((1 <= MAX_CHAIN_LENGTH)%nat ->
       (List.length chain <= MAX_CHAIN_LENGTH)%nat)
  | _ => True
  end.

Record invariant (t : Trust) : Prop := mkInvariant
  { inv_graph : graph_ok (_graph t);
    inv_lru : lru_ok (_lru t);
    (* the counter is the number of operations in flight *)
    inv_count : _dbUsed t = Z.of_nat (List.length (Level.pending (db t)));
    (* a deferred [close] waits only while the counter is not zero *)
    inv_close : _dbQueue t <> [] -> (0 < _dbUsed t)%Z;
    (* a buffered query waits only while the load has not ended *)
    inv_queue : _ready t = true -> _queue t = [] }.

(** What a search leaves alone. *)
Record frame (t t' : Trust) : Prop := mkFrame
  { fr_publicKey : publicKey t' = publicKey t;
    fr_ready : _ready t' = _ready t;
    fr_queue : _queue t' = _queue t;
    fr_dbQueue : _dbQueue t' = _dbQueue t;
    fr_closeCalls : Level.closeCalls (db t') = Level.closeCalls (db t);
    fr_store : Level.store (db t') = Level.store (db t);
    fr_used : (_dbUsed t <= _dbUsed t')%Z;
    fr_count :
      (_dbUsed t' - Z.of_nat (List.length (Level.pending (db t'))) =
       _dbUsed t - Z.of_nat (List.length (Level.pending (db t))))%Z }.

(** The measure of the search: an entry weighs [W] to the power of the links
    its chain may still take. *)
Definition item_weight (W : nat) (it : Item) : nat :=
  Nat.pow W (MAX_CHAIN_LENGTH - List.length (i_chain it)).

Definition queue_weight (W : nat) (queue : list Item) : nat :=
  fold_right (fun it n => (item_weight W it + n)%nat) O queue.

End Invariants.

(** ** A small codec and the keys of the tests

    Raw links are named by their two ends; the table gives what each decodes
    to.  ["XX"] and every other string fail to decode. *)

Module Example.

Definition L (k : Buffer) (e : Z) : Link.t := Link.mk k (Finite e).

Definition links : JsMap.t Link.t :=
  [ ("RA", L "A" 1000); ("AB", L "B" 1000); ("BL", L "L" 1000);
    ("RB", L "B" 1000); ("RA'", L "A" 500); ("RD", L "D" 500);
    ("DL", L "L" 500); ("RL", L "L" 1000) ]%string%Z.

Definition env : Env := mkEnv (fun r => JsMap.get r links) 5.

Definition start : Trust := @loaded env "L"%string.

(** The chain of the first test, added at time 0. *)
Definition added : Trust :=
  fst (@step env
         (CallAddChain "R" ["RA"; "AB"; "BL"] (Some 1%nat) (at_time 0))%string
         start).


(** A [close] that arrives during the load. *)
Definition closing : Trust :=
  fst (@step env (CallClose 9%nat) (@new_Trust "L"%string)).

End Example.

(** A codec that gives a link an expiration that is not a number: the link
    R -> L, added to an engine that has loaded an empty store. *)
Module NotANumber.

Definition links : JsMap.t Link.t := [ ("RL", Link.mk "L" NaN) ]%string.

Definition env : Env := mkEnv (fun r => JsMap.get r links) 5.

Definition added (clock : nat -> Z) : Trust :=
  fst (@addChain env "R" ["RL"] None clock (@loaded env "L"))%string.

End NotANumber.


(** ** The index as a map, and what a search does to it *)

Unset Implicit Arguments.

(** A JavaScript [Map] has one entry per key. *)
Definition keys_unique {V} (m : JsMap.t V) : Prop := NoDup (map fst m).

(** [addChild] files a child under the key of its link. *)
Definition node_keyed (n : TrustNode) : Prop :=
  keys_unique (children n) /\
  Forall (fun kc => fst kc = Link.publicKey (link (snd kc))) (children n).

Definition index_ok (g : JsMap.t TrustNode) : Prop :=
  keys_unique g /\ Forall (fun kn => node_keyed (snd kn)) g.

(** [pruned now g removed g']: [g'] is [g] after the [removeChild] of the
    links [removed], one after the other, each of which had expired at
    [now] ([expiration <= now]). *)
Inductive pruned (now : Z)
  : JsMap.t TrustNode -> list Child -> JsMap.t TrustNode -> Prop :=
| pruned_refl g : pruned now g [] g
| pruned_step g key k v removed g' :
    JsMap.get k (node_entries key g) = Some v ->
    num_le (Link.expiration (link v)) now = true ->
    pruned now (update_node key (removeChild k) g) removed g' ->
    pruned now g (v :: removed) g'.

(** [thinned now l l']: [l'] is the entries [l] of a node without some that
    had expired at [now], in the same order. *)
Inductive thinned (now : Z)
  : list (Buffer * Child) -> list (Buffer * Child) -> Prop :=
| thinned_nil : thinned now [] []
| thinned_keep kv l l' :
    thinned now l l' -> thinned now (kv :: l) (kv :: l')
| thinned_drop kv l l' :
    num_le (Link.expiration (link (snd kv))) now = true ->
    thinned now l l' -> thinned now (kv :: l) l'.

(** The graph that the [for] of [getChain] leaves. *)
Definition graph_of (r : ForResult) : JsMap.t TrustNode :=
  match r with
  | Found t => _graph t
  | Continue _ t => _graph t
  end.

(** [walk g from chain to]: the raw links of [chain] are stored links of [g]
    that lead from the node [from], each to the node of its key, to [to]. *)
Inductive walk (g : JsMap.t TrustNode) : Buffer -> list Buffer -> Buffer -> Prop :=
| walk_nil k : walk g k [] k
| walk_cons from k v rest to :
    JsMap.get k (node_entries from g) = Some v ->
    walk g k rest to ->
    walk g from (raw v :: rest) to.

(** The [db.del] that [getChain] issues for a link it removes. *)
Definition del_of (c : Child) : DbOp :=
  Del (String.append LINK_PREFIX (raw c)).

(** The [db.put]s that [addChain] issues for a batch: one for each link that
    decodes and has not expired at its reading of the clock, under the issuer
    it is given. *)
Fixpoint puts_of {env : Env} (prev : Buffer) (raws : list Buffer)
    (clock : nat -> Z) : list DbOp :=
  match raws with
  | [] => []
  | r :: rest =>
      match parseLink r with
      | None => []
      | Some l =>
          (if num_le (Link.expiration l) (clock O) then []
           else [Put (String.append LINK_PREFIX r) prev])
          ++ puts_of (Link.publicKey l) rest (later clock)
      end
  end.

(** The graph of one chain: each key with the one link it issues. *)
Fixpoint chain_graph (prev : Buffer) (links : list Child)
  : JsMap.t TrustNode :=
  match links with
  | [] => []
  | c :: rest =>
      (prev, mkNode [(Link.publicKey (link c), c)])
        :: chain_graph (Link.publicKey (link c)) rest
  end.

(** The keys along a chain, its root first. *)
Definition chain_keys (root : Buffer) (links : list Child) : list Buffer :=
  root :: map (fun c => Link.publicKey (link c)) links.

(** [only_chain g k links]: in [g], the node of [k] holds the first of
    [links] and nothing else, the node of its subject the second, and so
    on. *)
Fixpoint only_chain (g : JsMap.t TrustNode) (k : Buffer)
    (links : list Child) : Prop :=
  match links with
  | [] => True
  | c :: rest =>
      node_entries k g = [(Link.publicKey (link c), c)] /\
      only_chain g (Link.publicKey (link c)) rest
  end.

(** [within g0 g]: every link of [g] is a link of [g0]. *)
Definition within (g0 g : JsMap.t TrustNode) : Prop :=
  forall key k c,
    JsMap.get k (node_entries key g) = Some c ->
    JsMap.get k (node_entries key g0) = Some c.

(** The answer of a search for [hexRoot] that went from [t] to [t']: no trust
    path, or a chain that [Q] holds of, cached and given to [cb]. *)
Definition answered (hexRoot : Buffer) (cb : Callback)
    (Q : Num -> list Buffer -> Prop) (t t' : Trust) : Prop :=
  (_lru t' = _lru t /\
   nextTicks t' = nextTicks t ++ [(cb, Failure "No trust path available")]) \/
  (exists e chain,
     Q e chain /\
     _lru t' = LRU.set hexRoot (mkCached e chain) (_lru t) /\
     nextTicks t' = nextTicks t ++ [(cb, Chain chain)]).

(** * The earlier engine: one link per issuer, with a depth

    The file of the repository that holds the earlier [Trust]: the store
    keeps, for each issuer, one link and an estimate of its distance to the
    local key; [getChain] follows the stored links from the root.

    Conventions, besides those above.
    - Every operation with its callbacks runs as one turn: no other call
      comes between a [db.get] or [db.put] and its callback.
    - [db.get] fails for a key that is not in the store and for no other
      reason; [db.put] succeeds.
    - The value of a key goes through [JSON.stringify] and the [json] value
      encoding, and its raw link through base64: the value is modelled by its
      content.
    - [Date.now()] is read once for each link that [_getChain] follows:
      [clock i] is the reading for the link at position [i] of the chain. *)

Module Legacy.

Definition LINK_PREFIX : string := "l/".

(** The value of a key: [{ depth, raw }]. *)
Record Value := mkValue { depth : Z; raw : Buffer }.

(** What [_getLink] gives its callback: [{ depth, link, raw }]. *)
Record Found := mkFound { f_depth : Z; f_link : Link.t; f_raw : Buffer }.

Record Trust := mkTrust
  { db : JsMap.t Value;
    publicKey : Buffer;
    _lru : LRU.t Value }.

(** How a call ends: its callback gets a value or an error, or an exception
    leaves it. *)
Inductive Outcome (A : Type) :=
| Got (a : A)                  (* [callback(null, a)] *)
| Failed (err : string)        (* [callback(err)] *)
| Thrown (message : string).

Arguments Got {A} a.
Arguments Failed {A} err.
Arguments Thrown {A} message.

(** [old.expiration >= x] in [_addLink]: [old] is [{ depth, link, raw }], it
    has no field [expiration], and [undefined >= x] is false for every
    number. *)
Definition undefined_ge (x : Num) : bool := false.

Section Engine.

Context {env : Env}.

(** [new Trust({ db, privateKey, publicKey })], on a store that is empty. *)
Definition new_Trust (publicKey : Buffer) : Trust :=
  mkTrust [] publicKey (LRU.create Value LRU_SIZE).

Definition _getLink (signedBy : Buffer) (t : Trust) : Trust * Outcome Found :=
  let onResult (value : Value) : Outcome Found :=
    let raw := raw value in
    let depth := depth value in
    match parseLink raw with
    | Some link => Got (mkFound depth link raw)
    | None => Thrown "parseLink"
    end in
  let key := signedBy in
  let '(cached, lru1) := LRU.get key (_lru t) in
  let t1 := mkTrust (db t) (publicKey t) lru1 in
  match cached with
  | Some value => (t1, onResult value)
  | None =>
      match JsMap.get (String.append LINK_PREFIX signedBy) (db t) with
      | Some value => (t1, onResult value)
      | None => (t1, Failed "NotFound")
      end
  end.

Definition _putLink (signedBy raw : Buffer) (depth : Z) (t : Trust)
  : Trust * Outcome unit :=
  let key := signedBy in
  let value := mkValue depth raw in
  (mkTrust (JsMap.set (String.append LINK_PREFIX signedBy) value (db t))
           (publicKey t)
           (LRU.set key value (_lru t)),
   Got tt).

Definition _addLink (signedBy : Buffer) (link : Link.t) (raw : Buffer)
    (t : Trust) : Trust * Outcome unit :=
  let '(t1, old) := _getLink signedBy t in
  let signsUs := String.eqb (Link.publicKey link) (publicKey t) in
  match old with
  | Thrown m => (t1, Thrown m)
  | Failed _ =>
      (* No existing link *)
      _putLink signedBy raw (if signsUs then 0 else -1)%Z t1
  | Got old =>
      (* Fast case - same links *)
      if String.eqb (f_raw old) raw then (t1, Got tt)
      (* Same graph edge, different expiration date *)
      else if String.eqb (Link.publicKey (f_link old)) (Link.publicKey link)
      then
        if undefined_ge (Link.expiration link) then (t1, Got tt)
        else _putLink signedBy raw (f_depth old) t1
      (* Direct link to us, just overwrite existing link *)
      else if signsUs then _putLink signedBy raw 0%Z t1
      else
        (* Different edges, update only if depth is smaller *)
        let '(t2, next) := _getLink (Link.publicKey link) t1 in
        match next with
        | Thrown m => (t2, Thrown m)
        | Failed err => (t2, Failed err)
        | Got next =>
            if Z.ltb (f_depth next) 0
               || (Z.leb 0 (f_depth old)
                   && Z.leb (f_depth old) (f_depth next + 1))
            then (t2, Got tt)
            else _putLink signedBy raw (f_depth next + 1)%Z t2
        end
  end.

(** The [raw.map] of [addChain]: [{ raw, signedBy, link }] for each raw link;
    [None] when [parseLink] throws. *)
Fixpoint parse_links (prev : Buffer) (raws : list Buffer)
  : option (list (Buffer * Buffer * Link.t)) :=
  match raws with
  | [] => Some []
  | raw :: rest =>
      match parseLink raw with
      | None => None
      | Some link =>
          match parse_links (Link.publicKey link) rest with
          | None => None
          | Some res => Some ((raw, prev, link) :: res)
          end
      end
  end.

(** [async.forEachSeries]: one after the other, until one fails. *)
Fixpoint forEachSeries (links : list (Buffer * Buffer * Link.t)) (t : Trust)
  : Trust * Outcome unit :=
  match links with
  | [] => (t, Got tt)
  | (raw, signedBy, link) :: rest =>
      match _addLink signedBy link raw t with
      | (t1, Got _) => forEachSeries rest t1
      | (t1, Failed err) => (t1, Failed err)
      | (t1, Thrown m) => (t1, Thrown m)
      end
  end.

(** [addChain]; [None] when it returns without calling the callback. *)
Definition addChain (root : Buffer) (raw : list Buffer) (t : Trust)
  : Trust * option (Outcome unit) :=
  if Nat.eqb (List.length raw) 0 then (t, None)
  else
    match parse_links root raw with
    | None => (t, Some (Thrown "parseLink"))
    | Some links =>
        (* Store the link from the leafs to naturally build the depth *)
        let '(t1, res) := forEachSeries (rev links) t in
        (t1, Some res)
    end.

(** [_getChain]; [None] when [fuel] links were not enough. *)
Fixpoint _getChain (fuel : nat) (prev : list Buffer) (signedBy : Buffer)
    (clock : nat -> Z) (t : Trust)
  : option (Trust * Outcome (list Buffer)) :=
  match fuel with
  | O => None
  | S fuel' =>
      match _getLink signedBy t with
      | (t1, Thrown m) => Some (t1, Thrown m)
      | (t1, Failed err) => Some (t1, Failed err)
      | (t1, Got res) =>
          let now := clock (List.length prev) in
          let next := prev ++ [f_raw res] in
          let link := f_link res in
          if num_le (Link.expiration link) now then
            Some (t1, Failed "Route expired")
          else if String.eqb (Link.publicKey link) (publicKey t) then
            Some (t1, Got next)
          else if Nat.eqb (List.length next) MAX_CHAIN_LENGTH then
            Some (t1, Failed "Route length exceeded")
          else _getChain fuel' next (Link.publicKey link) clock t1
      end
  end.

Definition getChain (root : Buffer) (clock : nat -> Z) (t : Trust)
  : option (Trust * Outcome (list Buffer)) :=
  if String.eqb root (publicKey t) then Some (t, Got [])
  else _getChain MAX_CHAIN_LENGTH [] root clock t.

(** The link that the store holds for an issuer, cache first. *)
Definition stored (signedBy : Buffer) (t : Trust) : option Value :=
  match JsMap.get signedBy (LRU.items (_lru t)) with
  | Some v => Some v
  | None => JsMap.get (String.append LINK_PREFIX signedBy) (db t)
  end.

(** States of the engine: from the empty store by [addChain] and
    [getChain]. *)
Inductive reachable (pk : Buffer) : Trust -> Prop :=
| after_new : reachable pk (new_Trust pk)
| after_addChain t root raw :
    reachable pk t -> reachable pk (fst (addChain root raw t))
| after_getChain t root clock t' res :
    reachable pk t -> getChain root clock t = Some (t', res) ->
    reachable pk t'.

(** [follows t from chain to clock]: the raw links of [chain] are the stored
    links of [from], of the subject of the first, and so on; each passes the
    test of [_getChain] at its reading of the clock ([expiration <= now] is
    false), and the last is a link to [to]. *)
Fixpoint follows (t : Trust) (from : Buffer) (chain : list Buffer)
    (to : Buffer) (clock : nat -> Z) (i : nat) : Prop :=
  match chain with
  | [] => from = to
  | r :: rest =>
      exists v l,
        stored from t = Some v /\ raw v = r /\ parseLink r = Some l /\
        num_le (Link.expiration l) (clock i) = false /\
        follows t (Link.publicKey l) rest to clock (S i)
  end.

(** What holds of the stored values. *)
Record invariant (t : Trust) : Prop := mkLegacyInvariant
  { (* the cache agrees with the store *)
    inv_cache :
      forall k v, JsMap.get k (LRU.items (_lru t)) = Some v ->
                  JsMap.get (String.append LINK_PREFIX k) (db t) = Some v;
    (* stored links decode; depth 0 is for the links to the local key *)
    inv_values :
      Forall (fun kv =>
                exists l, parseLink (raw (snd kv)) = Some l /\
                          (-1 <= depth (snd kv))%Z /\
                          (depth (snd kv) = 0%Z <->
                           Link.publicKey l = publicKey t))
             (db t) }.

End Engine.

End Legacy.

(** ** A chain behind a detour

    A codec and an index for the search of lib/trust.js: the chain
    R -> X -> C -> E -> L of four links is added, and then the links
    R -> A -> B -> D -> C, which reach C in four links. *)

Module Detour.

Definition links : JsMap.t Link.t :=
  [ ("RX", Example.L "X" 1000); ("XC", Example.L "C" 1000);
    ("CE", Example.L "E" 1000); ("EL", Example.L "L" 1000);
    ("RA", Example.L "A" 1000); ("AB", Example.L "B" 1000);
    ("BD", Example.L "D" 1000); ("DC", Example.L "C" 1000) ]%string%Z.

Definition env : Env := mkEnv (fun r => JsMap.get r links) 5.

Definition short : list Buffer := ["RX"; "XC"; "CE"; "EL"]%string.

Definition detour : list Buffer := ["RA"; "AB"; "BD"; "DC"]%string.

Definition index : Trust :=
  fst (@step env (CallAddChain "R"%string detour None (at_time 0))
         (fst (@step env (CallAddChain "R"%string short None (at_time 0))
                 (@loaded env "L"%string)))).

End Detour.

(** ** The earlier engine on the example codec *)

Module LegacyExample.

(** Every reading of the clock is 10. *)
Definition clock : nat -> Z := fun _ => 10%Z.

Definition start : Legacy.Trust := Legacy.new_Trust "L"%string.

(** The chain of the first test. *)
Definition added : Legacy.Trust :=
  fst (@Legacy.addChain Example.env "R" ["RA"; "AB"; "BL"] start)%string.

(** One link of the root that does not lead to the local key. *)
Definition one : Legacy.Trust :=
  fst (@Legacy.addChain Example.env "R" ["RA"] start)%string.

End LegacyExample.
(** * Properties *)

Unset Implicit Arguments.

(** ** Maps *)

Lemma JsMap_get_set_eq {V} (k : Buffer) (v : V) (m : JsMap.t V) :
  JsMap.get k (JsMap.set k v m) = Some v.
Proof.
  induction m as [|[k' v'] m IH]; simpl.
  - now rewrite String.eqb_refl.
  - destruct (String.eqb k' k) eqn:E; simpl.
    + now rewrite String.eqb_refl.
    + now rewrite E.
Qed.

Lemma JsMap_get_set_ne {V} (k k' : Buffer) (v : V) (m : JsMap.t V) :
  k <> k' -> JsMap.get k' (JsMap.set k v m) = JsMap.get k' m.
Proof.
  intros Hne. induction m as [|[k0 v0] m IH]; simpl.
  - destruct (String.eqb_spec k k'); congruence.
  - destruct (String.eqb_spec k0 k); simpl.
    + subst k0. destruct (String.eqb_spec k k'); congruence.
    + now rewrite IH.
Qed.

Lemma JsMap_set_same {V} (k : Buffer) (v : V) (m : JsMap.t V) :
  JsMap.get k m = Some v -> JsMap.set k v m = m.
Proof.
  induction m as [|[k' v'] m IH]; simpl; [discriminate|].
  destruct (String.eqb_spec k' k).
  - intros [= ->]. now subst.
  - intros H. now rewrite IH.
Qed.

Lemma JsMap_get_In {V} (k : Buffer) (v : V) (m : JsMap.t V) :
  JsMap.get k m = Some v -> In (k, v) m.
Proof.
  induction m as [|[k' v'] m IH]; simpl; [discriminate|].
  destruct (String.eqb_spec k' k).
  - intros [= ->]. left. now subst.
  - intros H. right. auto.
Qed.

Lemma JsMap_Forall_set {V} (P : Buffer * V -> Prop) k v (m : JsMap.t V) :
  Forall P m -> P (k, v) -> Forall P (JsMap.set k v m).
Proof.
  intros Hm Hv. induction Hm as [|[k' v'] m Hx Hm IH]; simpl.
  - constructor; auto.
  - destruct (String.eqb k' k); constructor; auto.
Qed.

Lemma JsMap_Forall_delete {V} (P : Buffer * V -> Prop) k (m : JsMap.t V) :
  Forall P m -> Forall P (JsMap.delete k m).
Proof.
  intros Hm. induction Hm as [|[k' v'] m Hx Hm IH]; simpl.
  - constructor.
  - destruct (String.eqb k' k); auto.
Qed.

Lemma JsMap_length_delete {V} k (m : JsMap.t V) :
  (List.length (JsMap.delete k m) <= List.length m)%nat.
Proof.
  induction m as [|[k' v'] m IH]; simpl; [lia|].
  destruct (String.eqb k' k); simpl; lia.
Qed.

(** ** Numbers *)

Lemma num_gt_not_le (a : Num) (now : Z) :
  num_gt a now = true -> num_le a now = false.
Proof.
  destruct a; simpl; try discriminate; auto.
  intros H. apply Z.ltb_lt in H. apply Z.leb_gt. lia.
Qed.

Lemma num_le_not_gt (a : Num) (now : Z) :
  num_le a now = true -> num_gt a now = false.
Proof.
  destruct a; simpl; try discriminate; auto.
  intros H. apply Z.leb_le in H. apply Z.ltb_ge. lia.
Qed.

Lemma num_le_false (a : Num) (now : Z) :
  num_le a now = false -> num_gt a now = true \/ a = NaN.
Proof.
  destruct a; simpl; try discriminate; auto.
  intros H. apply Z.leb_gt in H. left. apply Z.ltb_lt. lia.
Qed.

Lemma num_le_earlier (a : Num) (now now' : Z) :
  num_le a now = false -> (now' <= now)%Z -> num_le a now' = false.
Proof.
  destruct a; simpl; auto.
  intros H Hle. apply Z.leb_gt in H. apply Z.leb_gt. lia.
Qed.

Lemma num_le_later (a : Num) (now now' : Z) :
  num_le a now = true -> (now <= now')%Z -> num_le a now' = true.
Proof.
  destruct a; simpl; auto.
  intros H Hle. apply Z.leb_le in H. apply Z.leb_le. lia.
Qed.

Lemma num_gt_min (a b : Num) (now : Z) :
  num_gt (Math_min a b) now = true <->
  num_gt a now = true /\ num_gt b now = true.
Proof.
  destruct a as [x| | |], b as [y| | |]; simpl; try tauto;
    try (split; [intros H; discriminate | intros [H1 H2]; discriminate]).
  rewrite !Z.ltb_lt. lia.
Qed.

(** ** The graph after a chain of three links and a chain of two

    Five additions to the empty graph, for keys that may coincide in any way:
    either the root has a link to the local key, or the last entry of the
    root is the first link of the second chain, and the node it leads to has
    a link to the local key.  The cases are the ways in which the keys can
    coincide; in each the graph is computed. *)

Ltac decide_pair x y :=
  let E := fresh "E" in
  destruct (string_dec x y) as [E|E]; try (exfalso; congruence).

Ltac eqb_facts :=
  repeat match goal with
  | E : ?x = ?y :> string |- _ =>
      assert (String.eqb x y = true) by (apply String.eqb_eq; exact E);
      assert (String.eqb y x = true) by (apply String.eqb_eq; symmetry; exact E);
      clear E
  | E : ?x <> ?y :> string |- _ =>
      assert (String.eqb x y = false) by (apply String.eqb_neq; exact E);
      assert (String.eqb y x = false)
        by (apply String.eqb_neq; intros ?; apply E; symmetry; assumption);
      clear E
  end.

Ltac use_eqb :=
  repeat match goal with
  | H : String.eqb _ _ = _ |- _ => rewrite H
  end.

Ltac eval_graph :=
  repeat (progress (simpl; rewrite ?String.eqb_refl; use_eqb)).

Ltac use_eqb_in H :=
  repeat match goal with
  | E : String.eqb _ _ = _ |- _ => rewrite E in H
  end.

Ltac eval_in H :=
  repeat (progress (simpl in H; rewrite ?String.eqb_refl in H; use_eqb_in H)).

Ltac step_graph :=
  match goal with
  | |- context [graph_add ?p ?c ?g] =>
      lazymatch g with context [graph_add] => fail | _ => idtac end;
      let g' := fresh "g" in
      let Hg := fresh "Hg" in
      remember (graph_add p c g) as g' eqn:Hg;
      unfold graph_add, addChild in Hg; eval_in Hg; subst g'
  end.

Lemma two_chains_shape (pk root kA kB kC : Buffer) (c1 c2 c3 c4 c5 : Child) :
  root <> pk ->
  Link.publicKey (link c1) = kA -> Link.publicKey (link c2) = kB ->
  Link.publicKey (link c3) = pk ->
  Link.publicKey (link c4) = kC -> Link.publicKey (link c5) = pk ->
  let g := graph_add kC c5 (graph_add root c4 (graph_add kB c3
             (graph_add kA c2 (graph_add root c1 [])))) in
  JsMap.get root g <> None /\
  (existsb (is_local pk) (node_entries root g) = true \/
   existsb (is_local pk) (node_entries root g) = false /\
   (exists pre, node_entries root g = pre ++ [(kC, c4)]) /\
   String.eqb kC root = false /\ JsMap.get kC g <> None /\
   existsb (is_local pk) (node_entries kC g) = true).
Proof.
  intros E0 H1 H2 H3 H4 H5.
  destruct c1 as [[k1 x1] r1], c2 as [[k2 x2] r2], c3 as [[k3 x3] r3],
           c4 as [[k4 x4] r4], c5 as [[k5 x5] r5].
  simpl in H1, H2, H3, H4, H5. subst k1 k2 k3 k4 k5.
  revert x1 x2 x3 x4 x5 r1 r2 r3 r4 r5.
  (decide_pair kA root; decide_pair kA pk; decide_pair kB root;
    decide_pair kB pk; decide_pair kB kA; decide_pair kC root;
    decide_pair kC pk; decide_pair kC kA; decide_pair kC kB).
  all: eqb_facts; intros x1 x2 x3 x4 x5 r1 r2 r3 r4 r5 g; subst g.
  all: repeat step_graph.
  all: unfold node_entries, is_local; eval_graph.
  all: split; [discriminate|].
  all: first [ left; reflexivity
             | right; split; [reflexivity|]; split;
               [ first [ exists []; reflexivity
                       | eexists [_]; reflexivity
                       | eexists [_; _]; reflexivity ] |];
               split; [reflexivity|]; split; [discriminate | reflexivity] ].
Qed.

(** Split a conjunction into its parts, and nothing else. *)
Ltac conjs := repeat match goal with |- _ /\ _ => split end.

Section Properties.

Context {env : Env}.

(** ** The short cuts of the public calls *)

Lemma getChain_local (t : Trust) (callback : Callback) (now : Z) :
  getChain (publicKey t) callback now t = nextTick callback (Chain []) t.
Proof.
  unfold getChain. now rewrite String.eqb_refl.
Qed.

(** C6: asking for the chain of the local key itself schedules the callback
    with an empty chain and changes nothing else, whatever the index, the
    cache and the state of the start-up load are. *)
Theorem getChain_local_is_empty (t : Trust) (callback : Callback) (now : Z) :
  getChain (publicKey t) callback now t = nextTick callback (Chain []) t.
Proof.
  unfold getChain. now rewrite String.eqb_refl.
Qed.

(** C9: [addChain] with no links returns at once: the state (index, cache,
    store handle, counter) is the one it found and no callback is
    scheduled. *)
Theorem addChain_empty_is_noop (root : Buffer) (callback : option Callback)
    (clock : nat -> Z) (t : Trust) :
  addChain root [] callback clock t = (t, Returned).
Proof. reflexivity. Qed.

(** ** Adding links *)

Lemma _addMemLink_parsed parent r l t :
  _addMemLink parent r (Some l) t =
  (set_graph
     (JsMap.set parent
        (addChild (mkChild l r)
           (match JsMap.get parent (_graph t) with
            | Some n => n
            | None => mkNode []
            end))
        (match JsMap.get parent (_graph t) with
         | Some n => _graph t
         | None => JsMap.set parent (mkNode []) (_graph t)
         end)) t, Returned).
Proof.
  unfold _addMemLink. destruct (JsMap.get parent (_graph t)); reflexivity.
Qed.

Lemma edge_addMemLink parent r l t :
  edge parent (Link.publicKey l) (fst (_addMemLink parent r (Some l) t)) =
  Some (mkChild l r).
Proof.
  rewrite _addMemLink_parsed. unfold edge. simpl.
  rewrite JsMap_get_set_eq. simpl. apply JsMap_get_set_eq.
Qed.

Lemma graph_addMemLink_same parent r l t :
  edge parent (Link.publicKey l) t = Some (mkChild l r) ->
  _graph (fst (_addMemLink parent r (Some l) t)) = _graph t.
Proof.
  unfold edge. rewrite _addMemLink_parsed. simpl.
  destruct (JsMap.get parent (_graph t)) as [n|] eqn:E; [|discriminate].
  intros H. apply JsMap_set_same. rewrite E. f_equal.
  destruct n as [cs]. unfold addChild. simpl in *. f_equal.
  symmetry. now apply JsMap_set_same.
Qed.

(** C2 (as the code has it): a link whose expiration is greater than [now]
    replaces the stored link of its pair whatever the two expirations are; a
    link whose expiration is less than or equal to [now] is dropped; a link
    equal to the stored one leaves the index as it is. *)
Theorem _addLink_always_replaces (parent r : Buffer) (l : Link.t) (now : Z)
    (t : Trust) :
  (num_le (Link.expiration l) now = true -> _addLink parent r l now t = t) /\
  (num_gt (Link.expiration l) now = true ->
     edge parent (Link.publicKey l) (_addLink parent r l now t)
       = Some (mkChild l r) /\
     (edge parent (Link.publicKey l) t = Some (mkChild l r) ->
      _graph (_addLink parent r l now t) = _graph t)).
Proof.
  unfold _addLink. split; intros H.
  - now rewrite H.
  - apply num_gt_not_le in H. rewrite H. split.
    + apply edge_addMemLink.
    + intros He. now rewrite graph_addMemLink_same.
Qed.

Lemma addChain_forEach_decodable root pre clock t :
  Forall (fun r => parseLink r <> None) pre ->
  snd (addChain_forEach root pre clock t) = Returned.
Proof.
  intros H. revert root clock t.
  induction H as [|r pre Hr _ IH]; intros root clock t; simpl; [reflexivity|].
  destruct (parseLink r); [apply IH | congruence].
Qed.

Lemma addChain_forEach_stops root pre bad post clock t :
  Forall (fun r => parseLink r <> None) pre ->
  parseLink bad = None ->
  addChain_forEach root (pre ++ bad :: post) clock t =
  (fst (addChain_forEach root pre clock t), Threw "parseLink").
Proof.
  intros H Hbad. revert root clock t.
  induction H as [|r pre Hr _ IH]; intros root clock t; simpl.
  - now rewrite Hbad.
  - destruct (parseLink r); [apply IH | congruence].
Qed.

(** C4 (as the code has it): when the codec fails on a link of the batch,
    [addChain] ends there with the exception of the codec.  The state is the
    one that adding the links before it alone (with no callback, at the same
    readings of the clock) leaves; the failing link and the links after it
    are not looked at, and the callback is not scheduled. *)
Theorem addChain_stops_at_decode_failure (root : Buffer)
    (pre : list Buffer) (bad : Buffer) (post : list Buffer)
    (callback : option Callback) (clock : nat -> Z) (t : Trust) :
  Forall (fun r => parseLink r <> None) pre ->
  parseLink bad = None ->
  addChain root (pre ++ bad :: post) callback clock t =
    (fst (addChain root pre None clock t), Threw "parseLink").
Proof.
  intros Hpre Hbad. unfold addChain.
  rewrite addChain_forEach_stops by assumption.
  replace (Nat.eqb (List.length (pre ++ bad :: post)) 0) with false
    by (symmetry; apply Nat.eqb_neq; rewrite length_app; simpl; lia).
  f_equal.
  destruct pre as [|r pre']; [reflexivity|].
  simpl Nat.eqb. cbv iota.
  pose proof (addChain_forEach_decodable root _ clock t Hpre) as Hret.
  destruct (addChain_forEach root (r :: pre') clock t) as [t1 c].
  simpl in Hret. subst c. reflexivity.
Qed.

(** ** What a search leaves alone *)

Lemma frame_refl t : frame t t.
Proof. constructor; reflexivity || lia. Qed.

Lemma frame_trans t1 t2 t3 : frame t1 t2 -> frame t2 t3 -> frame t1 t3.
Proof.
  intros [] []. constructor; try congruence; lia.
Qed.

Lemma frame_set_graph g t : frame t (set_graph g t).
Proof. constructor; simpl; reflexivity || lia. Qed.

Lemma frame_set_lru c t : frame t (set_lru c t).
Proof. constructor; simpl; reflexivity || lia. Qed.

Lemma frame_nextTick cb r t : frame t (nextTick cb r t).
Proof. constructor; simpl; reflexivity || lia. Qed.

Lemma frame_start op t :
  frame t (set_db (Level.start op (db (_useDB t))) (_useDB t)).
Proof.
  constructor; simpl; try reflexivity; try lia.
  rewrite length_app. simpl. lia.
Qed.

(** ** The cache keeps what it is given *)

Lemma Forall_removelast {A} (P : A -> Prop) (l : list A) :
  Forall P l -> Forall P (removelast l).
Proof.
  induction 1 as [|x l Hx Hl IH]; simpl; [constructor|].
  destruct l; [constructor|]. constructor; auto.
Qed.

Lemma lru_ok_get k c :
  lru_ok c ->
  lru_ok (snd (LRU.get k c)) /\
  (forall v, fst (LRU.get k c) = Some v -> cached_ok v).
Proof.
  unfold lru_ok, LRU.get. intros H.
  destruct (JsMap.get k (LRU.items c)) as [v|] eqn:E; simpl.
  - assert (Hv : cached_ok v).
    { apply JsMap_get_In in E.
      rewrite Forall_forall in H. apply (H _ E). }
    split.
    + constructor; [exact Hv|]. now apply JsMap_Forall_delete.
    + now intros v' [= <-].
  - split; [exact H | discriminate].
Qed.

Lemma lru_ok_remove k c : lru_ok c -> lru_ok (LRU.remove k c).
Proof. unfold lru_ok, LRU.remove. simpl. apply JsMap_Forall_delete. Qed.

Lemma lru_ok_set k v c : lru_ok c -> cached_ok v -> lru_ok (LRU.set k v c).
Proof.
  unfold lru_ok, LRU.set. intros H Hv.
  destruct (JsMap.has k (LRU.items c)); simpl.
  - constructor; [exact Hv|]. now apply JsMap_Forall_delete.
  - constructor; [exact Hv|].
    destruct (Nat.eqb _ _); [now apply Forall_removelast | exact H].
Qed.

(** ** The graph keeps decoded links *)

Lemma graph_ok_get key n g :
  graph_ok g -> JsMap.get key g = Some n -> Forall child_ok (children n).
Proof.
  intros H E. apply JsMap_get_In in E.
  unfold graph_ok in H. rewrite Forall_forall in H. apply (H _ E).
Qed.

Lemma graph_ok_entries key g :
  graph_ok g -> Forall child_ok (node_entries key g).
Proof.
  intros H. unfold node_entries.
  destruct (JsMap.get key g) eqn:E; [|constructor].
  eapply graph_ok_get; eauto.
Qed.

Lemma graph_ok_removeChild key k g :
  graph_ok g -> graph_ok (update_node key (removeChild k) g).
Proof.
  intros H. unfold update_node.
  destruct (JsMap.get key g) as [n|] eqn:E; [|exact H].
  apply JsMap_Forall_set; [exact H|]. simpl.
  apply JsMap_Forall_delete. eapply graph_ok_get; eauto.
Qed.

Lemma graph_ok_addMemLink parent r l o t :
  graph_ok (_graph t) ->
  match o with Some l' => l' = l | None => True end ->
  parseLink r = Some l ->
  graph_ok (_graph (fst (_addMemLink parent r o t))).
Proof.
  intros H Ho Hp. unfold _addMemLink.
  assert (E : match o with Some l0 => Some l0 | None => parseLink r end
              = Some l).
  { destruct o; [now subst | exact Hp]. }
  rewrite E. clear E.
  destruct (JsMap.get parent (_graph t)) as [n|] eqn:E; simpl.
  - apply JsMap_Forall_set; [exact H|]. simpl.
    apply JsMap_Forall_set; [eapply graph_ok_get; eauto|exact Hp].
  - apply JsMap_Forall_set.
    + apply JsMap_Forall_set; [exact H|]. simpl. constructor.
    + simpl. constructor; [exact Hp | constructor].
Qed.

(** ** The search *)

Lemma covers_min_old e x r : covers e r -> covers (Math_min e x) r.
Proof.
  intros (l & Hp & He). exists l. split; [exact Hp|].
  intros now H. apply num_gt_min in H. now apply He.
Qed.

Lemma covers_min_new e r l :
  parseLink r = Some l -> covers (Math_min e (Link.expiration l)) r.
Proof.
  intros Hp. exists l. split; [exact Hp|].
  intros now H. now apply num_gt_min in H.
Qed.

Lemma item_ok_extend now item v :
  item_ok now item ->
  child_ok v ->
  num_le (Link.expiration (link (snd v))) now = false ->
  Forall (covers (Math_min (i_expiration item)
                           (Link.expiration (link (snd v)))))
         (i_chain item ++ [raw (snd v)]) /\
  Forall (unexpired now) (i_chain item ++ [raw (snd v)]).
Proof.
  intros (Hc & Hu & _) Hv Hn. unfold child_ok in Hv. split.
  - apply Forall_app. split.
    + eapply Forall_impl; [|exact Hc]. intros r. apply covers_min_old.
    + constructor; [now apply covers_min_new | constructor].
  - apply Forall_app. split; [exact Hu|].
    constructor; [|constructor]. now exists (link (snd v)).
Qed.

Lemma for_children_spec hexRoot cb now visited item :
  item_ok now item ->
  forall entries queue t,
    Forall child_ok entries ->
    graph_ok (_graph t) -> lru_ok (_lru t) ->
    Forall (item_ok now) queue ->
    match for_children hexRoot cb now visited item entries queue t with
    | Found t' =>
        frame t t' /\ graph_ok (_graph t') /\ lru_ok (_lru t') /\
        exists chain,
          nextTicks t' = nextTicks t ++ [(cb, Chain chain)] /\
          answer_ok now (Chain chain)
    | Continue queue' t' =>
        frame t t' /\ graph_ok (_graph t') /\ lru_ok (_lru t') /\
        nextTicks t' = nextTicks t /\ Forall (item_ok now) queue'
    end.
Proof.
  intros Hitem. induction entries as [|[k v] rest IH];
    intros queue t Hent Hg Hl Hq; simpl.
  - conjs; auto using frame_refl.
  - inversion Hent as [|? ? Hv Hrest]; subst.
    destruct (num_le (Link.expiration (link v)) now) eqn:Hexp.
    + match goal with
      | |- match for_children _ _ _ _ _ _ _ ?t3 with _ => _ end =>
          specialize (IH queue t3 Hrest);
          assert (Hfr : frame t t3)
            by (eapply frame_trans;
                [apply frame_set_graph | apply frame_start])
      end.
      simpl in IH.
      specialize (IH (graph_ok_removeChild _ _ _ Hg) Hl Hq).
      destruct (for_children _ _ _ _ _ rest queue _) as [t'|queue' t'].
      * destruct IH as (Hf & Hg' & Hl' & chain & Ht & Ha).
        conjs; auto. { eapply frame_trans; eauto. }
        exists chain. split; [exact Ht | exact Ha].
      * destruct IH as (Hf & Hg' & Hl' & Ht & Hq').
        conjs; auto. eapply frame_trans; eauto.
    + destruct (item_ok_extend now item (k, v) Hitem Hv Hexp) as [Hc Hu].
      simpl in Hc, Hu.
      destruct (String.eqb (publicKey t) (Link.publicKey (link v))).
      * conjs.
        -- eapply frame_trans; [apply frame_set_lru | apply frame_nextTick].
        -- exact Hg.
        -- simpl. apply lru_ok_set; [exact Hl|]. split; [exact Hc|].
           simpl. intros HM. destruct Hitem as (_ & _ & Hlen).
           specialize (Hlen HM). rewrite length_app. simpl. lia.
        -- eexists. split; [reflexivity|]. split; [exact Hu|].
           intros HM. destruct Hitem as (_ & _ & Hlen).
           specialize (Hlen HM). rewrite length_app. simpl. lia.
      * destruct (JsMap.get k (_graph t)); [|now apply IH].
        destruct (visited_has k visited); [now apply IH|].
        destruct (Nat.leb MAX_CHAIN_LENGTH
                          (List.length (i_chain item ++ [raw v]))) eqn:Hlen;
          [now apply IH|].
        apply IH; auto. constructor; [|exact Hq].
        apply Nat.leb_gt in Hlen.
        split; [exact Hc|]. split; [exact Hu|]. intros _. exact Hlen.
Qed.

Lemma search_spec hexRoot cb now fuel :
  forall visited queue t t',
    graph_ok (_graph t) -> lru_ok (_lru t) ->
    Forall (item_ok now) queue ->
    search fuel hexRoot cb now visited queue t = Some t' ->
    frame t t' /\ graph_ok (_graph t') /\ lru_ok (_lru t') /\
    exists reply,
      nextTicks t' = nextTicks t ++ [(cb, reply)] /\ answer_ok now reply.
Proof.
  induction fuel as [|fuel IH]; intros visited queue t t' Hg Hl Hq; simpl;
    [discriminate|].
  destruct queue as [|item queue1].
  - intros [= <-]. conjs; auto using frame_nextTick.
    eexists. split; [reflexivity | exact I].
  - inversion Hq as [|? ? Hitem Hq1]; subst.
    pose proof (for_children_spec hexRoot cb now (i_node item :: visited)
                  item Hitem _ queue1 t
                  (graph_ok_entries (i_node item) _ Hg) Hg Hl Hq1) as Hfor.
    destruct (for_children _ _ _ _ _ _ queue1 t) as [t1|queue2 t1].
    + intros [= <-]. destruct Hfor as (Hf & Hg' & Hl' & chain & Ht & Ha).
      conjs; auto. now exists (Chain chain).
    + destruct Hfor as (Hf & Hg' & Hl' & Ht & Hq').
      intros Hs. apply IH in Hs; auto.
      destruct Hs as (Hf2 & Hg2 & Hl2 & reply & Ht2 & Ha).
      conjs; auto. { eapply frame_trans; eauto. }
      exists reply. rewrite Ht2, Ht. auto.
Qed.

(** ** The search ends *)

Lemma edge_count_get key n g :
  JsMap.get key g = Some n ->
  (List.length (children n) <= edge_count g)%nat.
Proof.
  induction g as [|[k' n'] g IH]; simpl; [discriminate|].
  destruct (String.eqb k' key).
  - intros [= ->]. lia.
  - intros H. apply IH in H. lia.
Qed.

Lemma edge_count_set key n n' g :
  JsMap.get key g = Some n ->
  (List.length (children n') <= List.length (children n))%nat ->
  (edge_count (JsMap.set key n' g) <= edge_count g)%nat.
Proof.
  intros Hget Hlen. induction g as [|[k0 n0] g IH]; simpl in *;
    [discriminate|].
  destruct (String.eqb k0 key); simpl.
  - injection Hget as ->. lia.
  - apply IH in Hget. lia.
Qed.

Lemma edge_count_removeChild key k g :
  (edge_count (update_node key (removeChild k) g) <= edge_count g)%nat.
Proof.
  unfold update_node. destruct (JsMap.get key g) as [n|] eqn:E; [|lia].
  eapply edge_count_set; [exact E|]. simpl. apply JsMap_length_delete.
Qed.

Lemma node_entries_length key g :
  (List.length (node_entries key g) <= edge_count g)%nat.
Proof.
  unfold node_entries. destruct (JsMap.get key g) as [n|] eqn:E; simpl.
  - eapply edge_count_get; eauto.
  - lia.
Qed.

Lemma for_children_weight W hexRoot cb now visited item :
  forall entries queue t queue' t',
    for_children hexRoot cb now visited item entries queue t
      = Continue queue' t' ->
    (edge_count (_graph t') <= edge_count (_graph t))%nat /\
    (queue_weight W queue' <=
     queue_weight W queue +
     List.length entries *
     (if Nat.leb MAX_CHAIN_LENGTH (S (List.length (i_chain item))) then 0
      else Nat.pow W (MAX_CHAIN_LENGTH - S (List.length (i_chain item)))))%nat.
Proof.
  induction entries as [|[k v] rest IH]; intros queue t queue' t'; simpl.
  - intros [= <- <-]. lia.
  - destruct (num_le (Link.expiration (link v)) now).
    + intros H. apply IH in H. simpl in H.
      pose proof (edge_count_removeChild (i_node item) k (_graph t)). lia.
    + destruct (String.eqb (publicKey t) (Link.publicKey (link v)));
        [discriminate|].
      destruct (JsMap.get k (_graph t));
        [|intros H; apply IH in H; lia].
      destruct (visited_has k visited); [intros H; apply IH in H; lia|].
      rewrite length_app. simpl List.length.
      replace (List.length (i_chain item) + 1)%nat
        with (S (List.length (i_chain item))) by lia.
      destruct (Nat.leb MAX_CHAIN_LENGTH (S (List.length (i_chain item))))
        eqn:Hlen; [intros H; apply IH in H; lia|].
      intros H. apply IH in H. simpl in H. unfold item_weight in H.
      simpl in H. rewrite length_app in H. simpl in H.
      replace (List.length (i_chain item) + 1)%nat
        with (S (List.length (i_chain item))) in H by lia.
      lia.
Qed.

Lemma search_enough_fuel W hexRoot cb now fuel :
  forall visited queue t,
    (edge_count (_graph t) < W)%nat ->
    (queue_weight W queue < fuel)%nat ->
    exists t', search fuel hexRoot cb now visited queue t = Some t'.
Proof.
  induction fuel as [|fuel IH]; intros visited queue t HW Hfuel; [lia|].
  simpl. destruct queue as [|item queue1]; [eauto|].
  pose proof (for_children_weight W hexRoot cb now (i_node item :: visited)
                item (node_entries (i_node item) (_graph t)) queue1 t) as Hw.
  destruct (for_children _ _ _ _ _ _ queue1 t) as [t1|queue2 t1]; [eauto|].
  destruct (Hw _ _ eq_refl) as [He Hq]. clear Hw.
  apply IH; [lia|].
  pose proof (node_entries_length (i_node item) (_graph t)) as Hn.
  simpl in Hfuel. unfold item_weight in Hfuel.
  set (n := List.length (node_entries (i_node item) (_graph t))) in *.
  set (len := List.length (i_chain item)) in *.
  assert (HW1 : (1 <= W)%nat) by lia.
  destruct (Nat.leb MAX_CHAIN_LENGTH (S len)) eqn:Hlen.
  - assert (1 <= Nat.pow W (MAX_CHAIN_LENGTH - len))%nat.
    { apply Nat.neq_0_lt_0. apply Nat.pow_nonzero. lia. }
    lia.
  - apply Nat.leb_gt in Hlen.
    replace (MAX_CHAIN_LENGTH - len)%nat
      with (S (MAX_CHAIN_LENGTH - S len)) in Hfuel by lia.
    rewrite Nat.pow_succ_r' in Hfuel.
    set (p := Nat.pow W (MAX_CHAIN_LENGTH - S len)) in *.
    assert (1 <= p)%nat.
    { apply Nat.neq_0_lt_0. apply Nat.pow_nonzero. lia. }
    nia.
Qed.

Lemma search_terminates hexRoot cb now t :
  exists t',
    search (search_fuel t) hexRoot cb now [] [mkItem hexRoot Infinity []] t
      = Some t'.
Proof.
  apply (search_enough_fuel (S (edge_count (_graph t)))); [lia|].
  unfold search_fuel, queue_weight, item_weight. simpl.
  rewrite Nat.sub_0_r. lia.
Qed.

(** More rounds do not change the result. *)
Lemma search_more_fuel hexRoot cb now fuel :
  forall fuel' visited queue t t',
    (fuel <= fuel')%nat ->
    search fuel hexRoot cb now visited queue t = Some t' ->
    search fuel' hexRoot cb now visited queue t = Some t'.
Proof.
  induction fuel as [|fuel IH]; intros fuel' visited queue t t' Hle;
    [discriminate|].
  destruct fuel' as [|fuel']; [lia|]. simpl.
  destruct queue as [|item queue1]; [auto|].
  destruct (for_children _ _ _ _ _ _ queue1 t); [auto|].
  apply IH. lia.
Qed.

(** ** [getChain] *)

Lemma resolve_spec hexRoot cb now t :
  graph_ok (_graph t) -> lru_ok (_lru t) ->
  frame t (resolve hexRoot cb now t) /\
  graph_ok (_graph (resolve hexRoot cb now t)) /\
  lru_ok (_lru (resolve hexRoot cb now t)) /\
  exists reply,
    nextTicks (resolve hexRoot cb now t) = nextTicks t ++ [(cb, reply)] /\
    answer_ok now reply.
Proof.
  intros Hg Hl. unfold resolve.
  destruct (search_terminates hexRoot cb now t) as [t' Hs]. rewrite Hs.
  apply search_spec in Hs; auto.
  constructor; [|constructor].
  split; [constructor|]. split; [constructor|]. simpl. intros H. exact H.
Qed.

Lemma getChain_buffered root cb now t :
  _ready t = false -> root <> publicKey t ->
  getChain root cb now t = set_queue (_queue t ++ [(root, cb)]) t.
Proof.
  intros Hr Hne. unfold getChain.
  destruct (String.eqb_spec root (publicKey t)); [contradiction|].
  now rewrite Hr.
Qed.

Lemma getChain_answers root cb now t :
  graph_ok (_graph t) -> lru_ok (_lru t) ->
  _ready t = true \/ root = publicKey t ->
  frame t (getChain root cb now t) /\
  graph_ok (_graph (getChain root cb now t)) /\
  lru_ok (_lru (getChain root cb now t)) /\
  exists reply,
    nextTicks (getChain root cb now t) = nextTicks t ++ [(cb, reply)] /\
    answer_ok now reply.
Proof.
  intros Hg Hl Hr. unfold getChain.
  destruct (String.eqb_spec root (publicKey t)) as [->|Hne].
  { conjs; auto using frame_nextTick.
    exists (Chain []). split; [reflexivity|]. split; [constructor|].
    simpl. lia. }
  destruct Hr as [Hr|Hr]; [|contradiction]. rewrite Hr. simpl negb.
  cbv iota.
  destruct (JsMap.has root (_graph t)); simpl negb; cbv iota.
  2:{ conjs; auto using frame_nextTick.
      eexists. split; [reflexivity | exact I]. }
  destruct (lru_ok_get root (_lru t) Hl) as [Hl1 Hv].
  destruct (LRU.get root (_lru t)) as [cached lru1]. simpl in Hl1, Hv.
  destruct cached as [c|].
  - specialize (Hv c eq_refl).
    destruct (num_gt (c_expiration c) now) eqn:Hgt.
    + conjs; simpl; auto.
      * eapply frame_trans; [apply frame_set_lru | apply frame_nextTick].
      * exists (Chain (c_chain c)). split; [reflexivity|].
        destruct Hv as [Hc Hlen]. split; [|exact Hlen].
        eapply Forall_impl; [|exact Hc].
        intros r (l & Hp & He). exists l. split; [exact Hp|].
        apply num_gt_not_le. now apply He.
    + match goal with
      | |- context [resolve root cb now ?t2] =>
          destruct (resolve_spec root cb now t2) as (Hf & Hg' & Hl' & Hrep)
      end; simpl; auto using lru_ok_remove.
      conjs; auto.
      eapply frame_trans; [|exact Hf].
      eapply frame_trans; apply frame_set_lru.
  - destruct (resolve_spec root cb now (set_lru lru1 t))
      as (Hf & Hg' & Hl' & Hrep); simpl; auto.
    conjs; auto. eapply frame_trans; [apply frame_set_lru | exact Hf].
Qed.

(** ** The invariant *)

Lemma invariant_frame t t' :
  invariant t -> frame t t' ->
  graph_ok (_graph t') -> lru_ok (_lru t') -> invariant t'.
Proof.
  intros [Hg Hl Hc Hcl Hq] [] Hg' Hl'. constructor; auto.
  - lia.
  - rewrite fr_dbQueue0. intros H. apply Hcl in H. lia.
  - rewrite fr_ready0, fr_queue0. exact Hq.
Qed.

Lemma getChain_invariant root cb now t :
  invariant t -> invariant (getChain root cb now t).
Proof.
  intros Hinv.
  destruct (_ready t) eqn:Hr.
  - destruct (getChain_answers root cb now t (inv_graph Hinv)
                (inv_lru Hinv) (or_introl Hr)) as (Hf & Hg & Hl & _).
    eapply invariant_frame; eauto.
  - destruct (String.eqb_spec root (publicKey t)) as [->|Hne].
    + rewrite getChain_local.
      eapply invariant_frame;
        [exact Hinv | apply frame_nextTick | apply Hinv | apply Hinv].
    + rewrite getChain_buffered by assumption.
      destruct Hinv. constructor; simpl; auto. congruence.
Qed.

Lemma _addLink_spec parent r l now t :
  parseLink r = Some l ->
  graph_ok (_graph t) ->
  frame t (_addLink parent r l now t) /\
  graph_ok (_graph (_addLink parent r l now t)) /\
  _lru (_addLink parent r l now t) = _lru t /\
  nextTicks (_addLink parent r l now t) = nextTicks t.
Proof.
  intros Hp Hg. unfold _addLink.
  destruct (num_le (Link.expiration l) now); [auto using frame_refl|].
  match goal with
  | |- context [_addMemLink parent r (Some l) ?t2] =>
      pose proof (graph_ok_addMemLink parent r l (Some l) t2 Hg eq_refl Hp)
        as Hg2;
      assert (Hf : frame t t2) by apply frame_start
  end.
  rewrite _addMemLink_parsed in *. simpl fst in *.
  conjs; auto.
  eapply frame_trans; [exact Hf | apply frame_set_graph].
Qed.

Lemma addChain_forEach_spec raw :
  forall clock prev t,
    graph_ok (_graph t) ->
    frame t (fst (addChain_forEach prev raw clock t)) /\
    graph_ok (_graph (fst (addChain_forEach prev raw clock t))) /\
    _lru (fst (addChain_forEach prev raw clock t)) = _lru t /\
    nextTicks (fst (addChain_forEach prev raw clock t)) = nextTicks t.
Proof.
  induction raw as [|r raw IH]; intros clock prev t Hg; simpl.
  - auto using frame_refl.
  - destruct (parseLink r) as [l|] eqn:Hp; simpl; [|auto using frame_refl].
    destruct (_addLink_spec prev r l (clock O) t Hp Hg)
      as (Hf & Hg1 & Hl1 & Ht1).
    destruct (IH (later clock) (Link.publicKey l) _ Hg1)
      as (Hf2 & Hg2 & Hl2 & Ht2).
    conjs; auto; try congruence. eapply frame_trans; eauto.
Qed.

Lemma addChain_invariant root raw callback clock t :
  invariant t -> invariant (fst (addChain root raw callback clock t)).
Proof.
  intros Hinv. unfold addChain.
  destruct (Nat.eqb (List.length raw) 0); [exact Hinv|].
  destruct (addChain_forEach_spec raw clock root t (inv_graph Hinv))
    as (Hf & Hg & Hl & Ht).
  destruct (addChain_forEach root raw clock t) as [t1 [|e]]; simpl in *.
  - destruct callback as [cb|]; simpl.
    + eapply invariant_frame;
        [exact Hinv | eapply frame_trans; [exact Hf | apply frame_nextTick]
        | exact Hg | simpl; rewrite Hl; apply Hinv].
    + eapply invariant_frame; eauto. rewrite Hl. apply Hinv.
  - eapply invariant_frame; eauto. rewrite Hl. apply Hinv.
Qed.

Lemma close_invariant cb t : invariant t -> invariant (close cb t).
Proof.
  intros [Hg Hl Hc Hcl Hq]. unfold close.
  destruct (Z.eqb_spec (_dbUsed t) 0); simpl.
  - constructor; simpl; auto.
  - constructor; simpl; auto. intros _. lia.
Qed.

(** With the counter at zero, the deferred closes all reach the handle. *)
Lemma flush_closes queue :
  forall t,
    _dbUsed t = 0%Z ->
    fold_left (fun st cb => close cb st) queue t =
    set_db (Level.mk (Level.store (db t)) (Level.pending (db t))
                     (Level.closeCalls (db t) ++ queue)) t.
Proof.
  induction queue as [|cb queue IH]; intros t H0; simpl.
  - rewrite app_nil_r. now destruct t as [[] ? ? ? ? ? ? ? ?].
  - unfold close at 2. rewrite H0. simpl. rewrite IH by exact H0.
    unfold set_db, Level.close. simpl. now rewrite <- app_assoc.
Qed.

Lemma _freeDB_graph t : _graph (fst (_freeDB t)) = _graph t.
Proof.
  unfold _freeDB.
  destruct (negb _); [reflexivity|]. destruct (negb _); [reflexivity|].
  simpl fst.
  assert (H : forall queue t0,
             _graph (fold_left (fun st cb => close cb st) queue t0)
             = _graph t0).
  { induction queue as [|cb queue IH]; intros t0; simpl; [reflexivity|].
    rewrite IH. unfold close. now destruct (negb _). }
  now rewrite H.
Qed.

(** The state in which a callback of the store finds the engine: its
    operation has left the list, the counter still counts it. *)
Lemma _freeDB_invariant t :
  graph_ok (_graph t) -> lru_ok (_lru t) ->
  _dbUsed t = (Z.of_nat (List.length (Level.pending (db t))) + 1)%Z ->
  (_ready t = true -> _queue t = []) ->
  invariant (fst (_freeDB t)) /\ snd (_freeDB t) = Returned /\
  _ready (fst (_freeDB t)) = _ready t /\
  _queue (fst (_freeDB t)) = _queue t /\
  nextTicks (fst (_freeDB t)) = nextTicks t.
Proof.
  intros Hg Hl Hc Hq. unfold _freeDB. simpl.
  destruct (Z.leb_spec 0 (_dbUsed t - 1)); [|lia]. simpl.
  destruct (Z.eqb_spec (_dbUsed t - 1) 0) as [H0|H0]; simpl.
  - rewrite flush_closes by exact H0. simpl.
    conjs; auto. constructor; simpl; auto; try lia. congruence.
  - conjs; auto. constructor; simpl; auto; try lia.
Qed.

(** ** Events of the store *)

Lemma remove_scan_length l :
  existsb is_scan l = true ->
  List.length l = S (List.length (remove_scan l)).
Proof.
  induction l as [|op l IH]; simpl; [discriminate|].
  destruct op; simpl; auto.
Qed.

Lemma remove_nth_length i :
  forall l op,
    nth_error l i = Some op ->
    List.length l = S (List.length (Level.remove_nth i l)).
Proof.
  induction i as [|i IH]; intros [|x l] op; simpl; try discriminate; auto.
  intros H. f_equal. eauto.
Qed.

Lemma load_data_invariant key value t :
  invariant t -> invariant (fst (load_data key value t)).
Proof.
  intros Hinv. unfold load_data.
  set (r := substring _ _ key).
  destruct (parseLink r) as [l|] eqn:Hp.
  - pose proof (graph_ok_addMemLink value r l None t (inv_graph Hinv) I Hp)
      as Hg.
    unfold _addMemLink in *. rewrite Hp in *.
    destruct (JsMap.get value (_graph t)); simpl in *;
      (eapply invariant_frame;
       [exact Hinv | apply frame_set_graph | exact Hg | apply Hinv]).
  - unfold _addMemLink. rewrite Hp. exact Hinv.
Qed.

(** The buffered queries, run in a state whose load has ended: each gets one
    reply, in the order of the buffer. *)
Lemma replay_spec queue :
  forall clock t,
    invariant t -> _ready t = true ->
    let t' := replay queue clock t in
    invariant t' /\ _ready t' = true /\
    exists replies,
      nextTicks t' = nextTicks t ++ replies /\
      map fst replies = map snd queue.
Proof.
  induction queue as [|[root cb] queue IH]; intros clock t Hinv Hr; simpl.
  - conjs; auto. exists []. rewrite app_nil_r. auto.
  - destruct (getChain_answers root cb (clock O) t (inv_graph Hinv)
                (inv_lru Hinv) (or_introl Hr))
      as (Hf & _ & _ & reply & Ht & Ha).
    pose proof (getChain_invariant root cb (clock O) t Hinv) as Hinv1.
    assert (Hr1 : _ready (getChain root cb (clock O) t) = true)
      by (rewrite (fr_ready Hf); exact Hr).
    destruct (IH (later clock) _ Hinv1 Hr1)
      as (Hinv2 & Hr2 & replies & Ht2 & Hm).
    conjs; auto. exists ((cb, reply) :: replies).
    rewrite Ht2, Ht, <- app_assoc. simpl. conjs; auto. now f_equal.
Qed.

Lemma load_end_spec clock t :
  invariant t ->
  existsb is_scan (Level.pending (db t)) = true ->
  let t' := fst (load_end clock (stream_closed t)) in
  invariant t' /\ snd (load_end clock (stream_closed t)) = Returned /\
  _ready t' = true /\
  exists replies,
    nextTicks t' = nextTicks t ++ replies /\
    map fst replies = map snd (_queue t).
Proof.
  intros Hinv Hscan. unfold load_end.
  destruct (_freeDB_invariant (stream_closed t)) as (Hi & Hret & Hr & Hq & Ht).
  { apply Hinv. } { apply Hinv. }
  { simpl. rewrite (inv_count Hinv), (remove_scan_length _ Hscan). lia. }
  { apply Hinv. }
  destruct (_freeDB (stream_closed t)) as [t1 c]. simpl in *. subst c.
  simpl in Hq, Ht. rewrite Hq.
  assert (Hinv2 : invariant (set_queue [] (set_ready true t1))).
  { destruct Hi. constructor; auto. }
  destruct (replay_spec (_queue t) clock _ Hinv2 eq_refl)
    as (Hinv3 & Hr3 & replies & Ht3 & Hm).
  simpl. conjs; auto. exists replies. simpl in Ht3. rewrite Ht3, Ht. auto.
Qed.

Lemma step_invariant e t :
  invariant t -> enabled e t = true ->
  invariant (fst (step e t)) /\ snd (step e t) <> Threw "AssertionError".
Proof.
  intros Hinv Hen. destruct e as [root raw0 cb now|root cb now|cb|key value
                                 |now| |i err]; simpl in *.
  - split; [now apply addChain_invariant|].
    unfold addChain. destruct (Nat.eqb _ 0); [discriminate|].
    assert (H : snd (addChain_forEach root raw0 now t)
                <> Threw "AssertionError").
    { clear. revert root now t. induction raw0 as [|r raw0 IH]; intros; simpl;
        [discriminate|].
      destruct (parseLink r); [apply IH | discriminate]. }
    destruct (addChain_forEach root raw0 now t) as [t1 [|m]]; simpl in *;
      [discriminate | exact H].
  - split; [now apply getChain_invariant | discriminate].
  - split; [now apply close_invariant | discriminate].
  - split; [now apply load_data_invariant|].
    unfold load_data, _addMemLink.
    destruct (parseLink _); [|discriminate].
    destruct (JsMap.get value (_graph t)); discriminate.
  - destruct (load_end_spec now t Hinv Hen) as (Hi & Hret & _).
    split; [exact Hi | rewrite Hret; discriminate].
  - unfold load_error.
    destruct (_freeDB_invariant (stream_closed t)) as (Hi & Hret & _);
      try apply Hinv.
    { simpl. rewrite (inv_count Hinv), (remove_scan_length _ Hen). lia. }
    split; [exact Hi | rewrite Hret; discriminate].
  - unfold op_done.
    destruct (nth_error (Level.pending (db t)) i) as [op|] eqn:Hop;
      [|discriminate].
    destruct (_freeDB_invariant (set_db (Level.land i err (db t)) t))
      as (Hi & Hret & _); try apply Hinv.
    { simpl. rewrite (inv_count Hinv), (remove_nth_length _ _ _ Hop). lia. }
    split; [exact Hi | rewrite Hret; discriminate].
Qed.

Lemma new_Trust_invariant pk : invariant (new_Trust pk).
Proof.
  constructor; simpl; auto; try constructor; discriminate.
Qed.

Lemma reachable_invariant pk t : reachable pk t -> invariant t.
Proof.
  induction 1 as [|t e _ IH Hen].
  - apply new_Trust_invariant.
  - now apply step_invariant.
Qed.

(** ** The claims on running engines *)

Lemma getChain_reply pk t root cb now r :
  reachable pk t ->
  nextTicks (getChain root cb now t) = nextTicks t ++ [(cb, r)] ->
  answer_ok now r.
Proof.
  intros Hreach Hticks. pose proof (reachable_invariant pk t Hreach) as Hinv.
  destruct (_ready t) eqn:Hr.
  - destruct (getChain_answers root cb now t (inv_graph Hinv) (inv_lru Hinv)
                (or_introl Hr)) as (_ & _ & _ & reply & Ht & Ha).
    rewrite Ht in Hticks. apply app_inv_head in Hticks.
    now injection Hticks as <-.
  - destruct (String.eqb_spec root (publicKey t)) as [->|Hne].
    + rewrite getChain_local in Hticks. simpl in Hticks.
      apply app_inv_head in Hticks. injection Hticks as <-.
      split; [constructor | simpl; lia].
    + rewrite getChain_buffered in Hticks by assumption. simpl in Hticks.
      apply (f_equal (@List.length _)) in Hticks.
      rewrite length_app in Hticks. simpl in Hticks. lia.
Qed.

(** X23: in every state that the engine can be in, a chain with which
    [getChain] answers at time [now] (found by the search or taken from the
    cache) holds only links that decode and that the test
    [expiration <= now] lets through: the expiration is greater than [now],
    or it is [NaN].  So a link for which the test held at some earlier time
    [added] is in no such chain. *)
Theorem getChain_returns_links_past_the_stale_test (pk : Buffer) (t : Trust)
    (root : Buffer) (callback : Callback) (now : Z) (chain : list Buffer) :
  reachable pk t ->
  nextTicks (getChain root callback now t)
    = nextTicks t ++ [(callback, Chain chain)] ->
  (forall r, In r chain ->
     exists l, parseLink r = Some l /\
               (num_gt (Link.expiration l) now = true \/
                Link.expiration l = NaN)) /\
  (forall r l added,
     parseLink r = Some l -> num_le (Link.expiration l) added = true ->
     (added <= now)%Z -> ~ In r chain).
Proof.
  intros Hreach Hticks.
  destruct (getChain_reply pk t root callback now _ Hreach Hticks)
    as [Hall _].
  rewrite Forall_forall in Hall. split.
  - intros r Hin. destruct (Hall r Hin) as (l & Hp & Hl).
    exists l. split; [exact Hp | now apply num_le_false].
  - intros r l added Hp He Ha Hin.
    destruct (Hall r Hin) as (l' & Hp' & Hl'). rewrite Hp in Hp'.
    injection Hp' as <-.
    rewrite (num_le_later _ _ _ He Ha) in Hl'. discriminate.
Qed.

(** C1: the invariant of the specification, that a returned chain holds
    only links with [expiration > now], does not hold of a link whose
    expiration is NaN.  The two tests of staleness, in [_addLink] and in the
    search of [getChain], are [expiration <= now], which is false of NaN: the
    link is indexed, the search neither removes it nor passes over it, and
    [getChain] answers with it at every time, the first time and every time
    after, although [expiration > now] is false of it.  (The test of the cache,
    [cached.expiration > now], is false of NaN too: the cached chain is not
    served, and the search gives the same chain again.) *)
Theorem getChain_returns_link_with_NaN_expiration
    (clock : nat -> Z) (callback callback2 : Callback) (now now2 : Z) :
  let t := NotANumber.added clock in
  let t' := @getChain NotANumber.env "R"%string callback now t in
  @parseLink NotANumber.env "RL"%string = Some (Link.mk "L"%string NaN) /\
  num_gt NaN now = false /\
  indexed "RL"%string t = true /\
  nextTicks t' = nextTicks t ++ [(callback, Chain ["RL"%string])] /\
  _graph t' = _graph t /\
  nextTicks (@getChain NotANumber.env "R"%string callback2 now2 t')
    = nextTicks t' ++ [(callback2, Chain ["RL"%string])].
Proof. vm_compute. auto 10. Qed.

(** C5: in every state that the engine can be in, a chain with which
    [getChain] answers has at most [MAX_CHAIN_LENGTH] links (the constant
    being at least one). *)
Theorem getChain_chain_length_bounded (pk : Buffer) (t : Trust)
    (root : Buffer) (callback : Callback) (now : Z) (chain : list Buffer) :
  (1 <= MAX_CHAIN_LENGTH)%nat ->
  reachable pk t ->
  nextTicks (getChain root callback now t)
    = nextTicks t ++ [(callback, Chain chain)] ->
  (List.length chain <= MAX_CHAIN_LENGTH)%nat.
Proof.
  intros HM Hreach Hticks.
  destruct (getChain_reply pk t root callback now _ Hreach Hticks)
    as [_ Hlen].
  exact (Hlen HM).
Qed.

(** C7: [close] called while the counter is not zero does not reach
    [db.close]: it is put on [_dbQueue].  The [_freeDB] that brings the
    counter from one to zero passes every deferred close to [db.close], in
    order, and empties the queue; a [_freeDB] that leaves the counter above
    zero passes none.  [db.close] is reached by [close] only with the counter
    at zero, and in a running engine a deferred close waits only while the
    counter is above zero. *)
Theorem close_waits_for_pending_operations (pk : Buffer) (t : Trust) :
  reachable pk t ->
  (forall cb,
     _dbUsed t <> 0%Z ->
     close cb t = set_dbQueue (_dbQueue t ++ [cb]) t) /\
  (forall cb,
     Level.closeCalls (db (close cb t)) <> Level.closeCalls (db t) ->
     _dbUsed t = 0%Z) /\
  (_dbUsed t = 1%Z ->
     Level.closeCalls (db (fst (_freeDB t)))
       = Level.closeCalls (db t) ++ _dbQueue t /\
     _dbQueue (fst (_freeDB t)) = [] /\
     _dbUsed (fst (_freeDB t)) = 0%Z) /\
  ((1 < _dbUsed t)%Z ->
     Level.closeCalls (db (fst (_freeDB t))) = Level.closeCalls (db t) /\
     _dbQueue (fst (_freeDB t)) = _dbQueue t) /\
  (_dbQueue t <> [] -> (0 < _dbUsed t)%Z).
Proof.
  intros Hreach. conjs.
  - intros cb H. unfold close.
    destruct (Z.eqb_spec (_dbUsed t) 0); [contradiction | reflexivity].
  - intros cb H. unfold close in H.
    destruct (Z.eqb_spec (_dbUsed t) 0); [assumption|].
    simpl in H. contradiction.
  - intros H1. unfold _freeDB. simpl. rewrite H1. simpl.
    rewrite flush_closes by reflexivity. simpl. auto.
  - intros H1. unfold _freeDB. simpl.
    destruct (Z.leb_spec 0 (_dbUsed t - 1)); [|lia]. simpl.
    destruct (Z.eqb_spec (_dbUsed t - 1) 0); [lia|]. simpl. auto.
  - apply (inv_close (reachable_invariant pk t Hreach)).
Qed.


(** C10: in every state that the engine can be in, [_dbUsed] is the number of
    storage operations in flight (the read stream, the puts and the deletes
    that have begun and have not completed), so it is not negative, and no
    turn of the engine ends in the assertion of [_freeDB]. *)
Theorem dbUsed_counts_operations_in_flight (pk : Buffer) (t : Trust) :
  reachable pk t ->
  _dbUsed t = Z.of_nat (List.length (Level.pending (db t))) /\
  (0 <= _dbUsed t)%Z /\
  (forall e, enabled e t = true -> snd (step e t) <> Threw "AssertionError").
Proof.
  intros Hreach. pose proof (reachable_invariant pk t Hreach) as Hinv.
  conjs.
  - apply Hinv.
  - rewrite (inv_count Hinv). lia.
  - intros e Hen. now apply step_invariant.
Qed.

(** ** Which chain the search finds first *)

Lemma for_children_app hexRoot cb now visited item pre :
  forall post queue t,
    for_children hexRoot cb now visited item (pre ++ post) queue t =
    match for_children hexRoot cb now visited item pre queue t with
    | Found t' => Found t'
    | Continue queue' t' =>
        for_children hexRoot cb now visited item post queue' t'
    end.
Proof.
  induction pre as [|[k v] pre IH]; intros post queue t; simpl;
    [reflexivity|].
  destruct (num_le _ now); [apply IH|].
  destruct (String.eqb _ _); [reflexivity|].
  destruct (JsMap.get k (_graph t)); [|apply IH].
  destruct (visited_has k visited); [apply IH|].
  destruct (Nat.leb _ _); apply IH.
Qed.

Lemma for_children_found hexRoot cb now visited item entries :
  forall queue t,
    Forall (not_expired now) entries ->
    existsb (is_local (publicKey t)) entries = true ->
    exists t' r,
      for_children hexRoot cb now visited item entries queue t = Found t' /\
      nextTicks t' = nextTicks t ++ [(cb, Chain (i_chain item ++ [r]))].
Proof.
  induction entries as [|[k v] entries IH]; intros queue t Hne Hex; simpl in *;
    [discriminate|].
  inversion Hne as [|? ? Hv Hrest]; subst. unfold not_expired in Hv.
  simpl in Hv. rewrite Hv. unfold is_local in Hex at 1. simpl in Hex.
  destruct (String.eqb (publicKey t) (Link.publicKey (link v))).
  - eexists. exists (raw v). split; reflexivity.
  - simpl in Hex.
    destruct (JsMap.get k (_graph t)); [|now apply IH].
    destruct (visited_has k visited); [now apply IH|].
    destruct (Nat.leb _ _); now apply IH.
Qed.

Lemma for_children_none hexRoot cb now visited item entries :
  forall queue t,
    Forall (not_expired now) entries ->
    existsb (is_local (publicKey t)) entries = false ->
    exists queue',
      for_children hexRoot cb now visited item entries queue t
        = Continue queue' t.
Proof.
  induction entries as [|[k v] entries IH]; intros queue t Hne Hex; simpl in *;
    [eauto|].
  inversion Hne as [|? ? Hv Hrest]; subst. unfold not_expired in Hv.
  simpl in Hv. rewrite Hv. unfold is_local in Hex at 1. simpl in Hex.
  destruct (String.eqb (publicKey t) (Link.publicKey (link v)));
    [discriminate|]. simpl in Hex.
  destruct (JsMap.get k (_graph t)); [|now apply IH].
  destruct (visited_has k visited); [now apply IH|].
  destruct (Nat.leb _ _); now apply IH.
Qed.

Lemma for_children_pushes_last hexRoot cb now visited item pre k v :
  forall queue t,
    Forall (not_expired now) (pre ++ [(k, v)]) ->
    existsb (is_local (publicKey t)) (pre ++ [(k, v)]) = false ->
    JsMap.get k (_graph t) <> None ->
    visited_has k visited = false ->
    Nat.leb MAX_CHAIN_LENGTH (S (List.length (i_chain item))) = false ->
    exists e queue',
      for_children hexRoot cb now visited item (pre ++ [(k, v)]) queue t
        = Continue (mkItem k e (i_chain item ++ [raw v]) :: queue') t.
Proof.
  intros queue t Hne Hex Hget Hvis Hlen.
  apply Forall_app in Hne. destruct Hne as [Hpre Hv].
  rewrite existsb_app in Hex. apply orb_false_iff in Hex.
  destruct Hex as [Hex1 Hex2].
  rewrite for_children_app.
  destruct (for_children_none hexRoot cb now visited item pre queue t Hpre
              Hex1) as [queue' ->].
  simpl. inversion Hv as [|? ? Hv1 _]; subst. unfold not_expired in Hv1.
  simpl in Hv1. rewrite Hv1.
  unfold is_local in Hex2. simpl in Hex2. rewrite orb_false_r in Hex2.
  rewrite Hex2.
  destruct (JsMap.get k (_graph t)); [|contradiction].
  rewrite Hvis. rewrite length_app. simpl List.length.
  replace (List.length (i_chain item) + 1)%nat
    with (S (List.length (i_chain item))) by lia.
  rewrite Hlen. eauto.
Qed.


Lemma resolve_two_rounds root cb now t t' :
  search 2 root cb now [] [mkItem root Infinity []] t = Some t' ->
  resolve root cb now t = t'.
Proof.
  intros H. unfold resolve.
  rewrite (search_more_fuel root cb now 2 (search_fuel t) [] _ t t'); auto.
  unfold search_fuel.
  assert (1 <= Nat.pow (S (edge_count (_graph t))) MAX_CHAIN_LENGTH)%nat.
  { apply Nat.neq_0_lt_0. apply Nat.pow_nonzero. lia. }
  lia.
Qed.

Lemma _addLink_unexpired parent r l now t :
  num_le (Link.expiration l) now = false ->
  _graph (_addLink parent r l now t)
    = graph_add parent (mkChild l r) (_graph t) /\
  publicKey (_addLink parent r l now t) = publicKey t /\
  _ready (_addLink parent r l now t) = _ready t /\
  _lru (_addLink parent r l now t) = _lru t /\
  nextTicks (_addLink parent r l now t) = nextTicks t.
Proof.
  intros H. unfold _addLink. rewrite H. rewrite _addMemLink_parsed.
  simpl. auto.
Qed.

Lemma graph_all_add P parent child g :
  graph_all P g -> P child -> graph_all P (graph_add parent child g).
Proof.
  intros Hg Hc. unfold graph_add, graph_all in *.
  destruct (JsMap.get parent g) as [n|] eqn:E.
  - apply JsMap_Forall_set; [exact Hg|]. simpl.
    apply JsMap_Forall_set; [|exact Hc].
    apply JsMap_get_In in E. rewrite Forall_forall in Hg. apply (Hg _ E).
  - apply JsMap_Forall_set.
    + apply JsMap_Forall_set; [exact Hg | constructor].
    + simpl. constructor; [exact Hc | constructor].
Qed.

Lemma graph_all_entries P key g :
  graph_all P g -> Forall (fun kc => P (snd kc)) (node_entries key g).
Proof.
  intros Hg. unfold node_entries.
  destruct (JsMap.get key g) as [n|] eqn:E; [|constructor].
  apply JsMap_get_In in E. unfold graph_all in Hg.
  rewrite Forall_forall in Hg. apply (Hg _ E).
Qed.

Lemma search_step fuel hexRoot cb now visited item queue1 t :
  search (S fuel) hexRoot cb now visited (item :: queue1) t =
  match for_children hexRoot cb now (i_node item :: visited) item
          (node_entries (i_node item) (_graph t)) queue1 t with
  | Found t' => Some t'
  | Continue queue2 t' =>
      search fuel hexRoot cb now (i_node item :: visited) queue2 t'
  end.
Proof. reflexivity. Qed.

Lemma addChain_fields root raw0 cb clock t :
  _graph (fst (addChain root raw0 cb clock t))
    = _graph (fst (addChain_forEach root raw0 clock t)) /\
  publicKey (fst (addChain root raw0 cb clock t))
    = publicKey (fst (addChain_forEach root raw0 clock t)) /\
  _ready (fst (addChain root raw0 cb clock t))
    = _ready (fst (addChain_forEach root raw0 clock t)) /\
  _lru (fst (addChain root raw0 cb clock t))
    = _lru (fst (addChain_forEach root raw0 clock t)).
Proof.
  unfold addChain. destruct raw0 as [|r raw0]; [simpl; auto|].
  simpl Nat.eqb. cbv iota.
  destruct (addChain_forEach root (r :: raw0) clock t) as [t1 [|e]];
    [destruct cb|]; simpl; auto.
Qed.

Lemma addChain_publicKey root raw0 cb clock t :
  publicKey (fst (addChain root raw0 cb clock t)) = publicKey t.
Proof.
  destruct (addChain_fields root raw0 cb clock t) as (_ & -> & _).
  revert root clock t.
  induction raw0 as [|r raw0 IH]; intros root clock t; simpl;
    [reflexivity|].
  destruct (parseLink r) as [l|]; [|reflexivity]. rewrite IH.
  unfold _addLink. destruct (num_le _ _); [reflexivity|].
  now rewrite _addMemLink_parsed.
Qed.

(** C3 (as the code has it): on an engine that has loaded an empty store, a
    chain of three links from [root] to the local key is added and then a
    chain of two; all five links decode and have not expired when they are
    added (at any reading of the clock during the call) and when [getChain]
    is called.  Then [getChain root] answers with a
    chain of at most two links.  (The search is depth first and takes the
    entry set last first; with the chains added in the other order it may
    answer with the chain of three, see the counterexample.) *)
Theorem getChain_prefers_chain_added_last
    (pk root : Buffer) (l1 l2 l3 s1 s2 : Buffer) (a1 a2 a3 b1 b2 : Link.t)
    (cb1 cb2 : option Callback) (callback : Callback)
    (clock1 clock2 : nat -> Z) (now : Z) :
  (2 <= MAX_CHAIN_LENGTH)%nat ->
  parseLink l1 = Some a1 -> parseLink l2 = Some a2 ->
  parseLink l3 = Some a3 -> Link.publicKey a3 = pk ->
  parseLink s1 = Some b1 -> parseLink s2 = Some b2 ->
  Link.publicKey b2 = pk ->
  Forall (fun l => (forall i, num_gt (Link.expiration l) (clock1 i) = true) /\
                   num_gt (Link.expiration l) now = true)
         [a1; a2; a3] ->
  Forall (fun l => (forall i, num_gt (Link.expiration l) (clock2 i) = true) /\
                   num_gt (Link.expiration l) now = true)
         [b1; b2] ->
  let t1 := fst (addChain root [l1; l2; l3] cb1 clock1 (loaded pk)) in
  let t2 := fst (addChain root [s1; s2] cb2 clock2 t1) in
  exists chain,
    nextTicks (getChain root callback now t2)
      = nextTicks t2 ++ [(callback, Chain chain)] /\
    (List.length chain <= 2)%nat.
Proof.
  intros HM P1 P2 P3 K3 Q1 Q2 K5 Hlong Hshort t1 t2.
  destruct (string_dec root pk) as [->|E0].
  { exists []. split; [|simpl; lia].
    replace pk with (publicKey t2) at 1
      by (subst t2 t1; now rewrite !addChain_publicKey).
    now rewrite getChain_local. }
  (* the links have not expired, when added and when asked *)
  repeat rewrite Forall_cons_iff in Hlong.
  repeat rewrite Forall_cons_iff in Hshort.
  destruct Hlong as ([A1 N1] & [A2 N2] & [A3 N3] & _).
  destruct Hshort as ([B1 N4] & [B2 N5] & _).
  apply num_gt_not_le in N1, N2, N3, N4, N5.
  set (c1 := mkChild a1 l1). set (c2 := mkChild a2 l2).
  set (c3 := mkChild a3 l3). set (c4 := mkChild b1 s1).
  set (c5 := mkChild b2 s2).
  set (g := graph_add (Link.publicKey b1) c5
              (graph_add root c4
                 (graph_add (Link.publicKey a2) c3
                    (graph_add (Link.publicKey a1) c2
                       (graph_add root c1 []))))).
  (* the state after the two calls *)
  assert (Ht1 : _graph t1
                = graph_add (Link.publicKey a2) c3
                    (graph_add (Link.publicKey a1) c2 (graph_add root c1 []))
                /\ publicKey t1 = pk /\ _ready t1 = true
                /\ _lru t1 = LRU.create Cached LRU_SIZE).
  { subst t1.
    destruct (addChain_fields root [l1; l2; l3] cb1 clock1 (loaded pk))
      as (-> & -> & -> & ->).
    simpl. rewrite P1, P2, P3. simpl. unfold later.
    repeat match goal with
           | |- context [_addLink ?p ?r ?l ?n ?t] =>
               destruct (_addLink_unexpired p r l n t) as (-> & -> & -> & -> & _);
               [apply num_gt_not_le; auto|]
           end.
    auto. }
  destruct Ht1 as (Hg1 & Hpk1 & Hr1 & Hl1).
  assert (Ht2 : _graph t2 = g /\ publicKey t2 = pk /\ _ready t2 = true
                /\ _lru t2 = LRU.create Cached LRU_SIZE).
  { subst t2.
    destruct (addChain_fields root [s1; s2] cb2 clock2 t1)
      as (-> & -> & -> & ->).
    simpl. rewrite Q1, Q2. simpl. unfold later.
    repeat match goal with
           | |- context [_addLink ?p ?r ?l ?n ?t] =>
               destruct (_addLink_unexpired p r l n t) as (-> & -> & -> & -> & _);
               [apply num_gt_not_le; auto|]
           end.
    rewrite Hg1. auto. }
  destruct Ht2 as (Hg2 & Hpk2 & Hr2 & Hl2).
  clearbody t2. clear t1 Hg1 Hpk1 Hr1 Hl1.
  (* the stored links have not expired *)
  assert (Hall : graph_all (fun c => num_le (Link.expiration (link c)) now
                                     = false) g).
  { subst g. repeat apply graph_all_add; try assumption. constructor. }
  (* the shape of the graph *)
  destruct (two_chains_shape pk root (Link.publicKey a1) (Link.publicKey a2)
              (Link.publicKey b1) c1 c2 c3 c4 c5 E0 eq_refl eq_refl K3
              eq_refl K5) as [Hroot Hshape].
  fold g in Hroot, Hshape. clearbody g.
  (* the call *)
  unfold getChain. rewrite Hpk2, Hr2, Hg2, Hl2.
  destruct (String.eqb_spec root pk); [contradiction|].
  unfold JsMap.has. destruct (JsMap.get root g) eqn:Eroot; [|contradiction].
  simpl.
  set (T := set_lru _ t2).
  assert (HgT : _graph T = g) by exact Hg2.
  assert (HpT : publicKey T = pk) by exact Hpk2.
  assert (HtT : nextTicks T = nextTicks t2) by reflexivity.
  assert (Hne : forall key, Forall (not_expired now) (node_entries key g)).
  { intros key. apply (graph_all_entries _ key g Hall). }
  clearbody T.
  destruct Hshape as [Hloc | (Hnone & [pre Hpre] & HC & HgC & HlocC)].
  - destruct (for_children_found root callback now [root]
                (mkItem root Infinity []) (node_entries root g) [] T
                (Hne root)) as (t' & r & Hfor & Hticks).
    { now rewrite HpT. }
    rewrite (resolve_two_rounds root callback now T t').
    + exists [r]. rewrite Hticks, HtT. split; [reflexivity | simpl; lia].
    + rewrite search_step. cbn [i_node]. rewrite HgT, Hfor. reflexivity.
  - destruct (for_children_pushes_last root callback now [root]
                (mkItem root Infinity []) pre (Link.publicKey b1) c4 [] T)
      as (e & queue' & Hfor).
    { rewrite <- Hpre. apply Hne. }
    { rewrite <- Hpre, HpT. exact Hnone. }
    { now rewrite HgT. }
    { simpl. now rewrite HC. }
    { simpl. apply Nat.leb_gt. lia. }
    match type of Hfor with
    | _ = Continue (?item :: _) _ =>
        destruct (for_children_found root callback now
                    [Link.publicKey b1; root] item
                    (node_entries (Link.publicKey b1) g) queue' T
                    (Hne _)) as (t' & r & Hfor2 & Hticks);
          [now rewrite HpT|]
    end.
    rewrite (resolve_two_rounds root callback now T t').
    + exists [raw c4; r]. rewrite Hticks, HtT.
      split; [reflexivity | simpl; lia].
    + rewrite search_step. cbn [i_node]. rewrite HgT, Hpre, Hfor.
      rewrite search_step. cbn [i_node]. rewrite HgT, Hfor2. reflexivity.
Qed.
End Properties.

(** * More properties of lib/trust.js *)

(** ** Maps with one entry per key *)

Lemma JsMap_get_delete_eq {V} (k : Buffer) (m : JsMap.t V) :
  JsMap.get k (JsMap.delete k m) = None.
Proof.
  induction m as [|[k' v'] m IH]; simpl; [reflexivity|].
  destruct (String.eqb k' k) eqn:E; simpl; [exact IH|]. now rewrite E.
Qed.

Lemma JsMap_get_delete_ne {V} (k k' : Buffer) (m : JsMap.t V) :
  k <> k' -> JsMap.get k' (JsMap.delete k m) = JsMap.get k' m.
Proof.
  intros Hne. induction m as [|[k0 v0] m IH]; simpl; [reflexivity|].
  destruct (String.eqb_spec k0 k); simpl.
  - subst k0. destruct (String.eqb_spec k k'); [contradiction | exact IH].
  - now rewrite IH.
Qed.

Lemma JsMap_get_delete_Some {V} (k k' : Buffer) (v : V) (m : JsMap.t V) :
  JsMap.get k' (JsMap.delete k m) = Some v -> JsMap.get k' m = Some v.
Proof.
  destruct (String.eqb_spec k k') as [->|Hne].
  - now rewrite JsMap_get_delete_eq.
  - now rewrite JsMap_get_delete_ne.
Qed.

Lemma JsMap_delete_absent {V} (k : Buffer) (m : JsMap.t V) :
  ~ In k (map fst m) -> JsMap.delete k m = m.
Proof.
  induction m as [|[k' v'] m IH]; simpl; [reflexivity|]. intros H.
  destruct (String.eqb_spec k' k) as [->|Hne]; [tauto|].
  rewrite IH; tauto.
Qed.

Lemma JsMap_get_None_keys {V} (k : Buffer) (m : JsMap.t V) :
  JsMap.get k m = None <-> ~ In k (map fst m).
Proof.
  induction m as [|[k' v'] m IH]; simpl; [tauto|].
  destruct (String.eqb_spec k' k).
  - split; [discriminate | intros H; exfalso; apply H; now left].
  - rewrite IH. tauto.
Qed.

Lemma JsMap_keys_set {V} (k : Buffer) (v : V) (m : JsMap.t V) :
  map fst (JsMap.set k v m) =
  if JsMap.has k m then map fst m else map fst m ++ [k].
Proof.
  unfold JsMap.has. induction m as [|[k' v'] m IH]; simpl; [reflexivity|].
  destruct (String.eqb_spec k' k); simpl.
  - now subst.
  - rewrite IH. now destruct (JsMap.get k m).
Qed.

Lemma JsMap_keys_delete {V} (k k' : Buffer) (m : JsMap.t V) :
  In k' (map fst (JsMap.delete k m)) -> In k' (map fst m).
Proof.
  induction m as [|[k0 v0] m IH]; simpl; [tauto|].
  destruct (String.eqb k0 k); simpl; tauto.
Qed.

Lemma keys_unique_set {V} (k : Buffer) (v : V) (m : JsMap.t V) :
  keys_unique m -> keys_unique (JsMap.set k v m).
Proof.
  unfold keys_unique. intros H. rewrite JsMap_keys_set.
  unfold JsMap.has. destruct (JsMap.get k m) eqn:E; [exact H|].
  apply JsMap_get_None_keys in E.
  apply NoDup_app; [exact H | repeat constructor; simpl; tauto |].
  intros x Hx [<-|[]]. contradiction.
Qed.

Lemma keys_unique_delete {V} (k : Buffer) (m : JsMap.t V) :
  keys_unique m -> keys_unique (JsMap.delete k m).
Proof.
  unfold keys_unique. induction m as [|[k0 v0] m IH]; simpl; [auto|].
  intros H. inversion H as [|? ? Hn Hm]; subst.
  destruct (String.eqb k0 k); simpl; [auto|].
  constructor; [|auto]. intros Hin. apply Hn.
  eapply JsMap_keys_delete; eauto.
Qed.

Lemma JsMap_In_get {V} (k : Buffer) (v : V) (m : JsMap.t V) :
  keys_unique m -> In (k, v) m -> JsMap.get k m = Some v.
Proof.
  unfold keys_unique. induction m as [|[k0 v0] m IH]; simpl; [tauto|].
  intros H [Heq|Hin]; inversion H as [|? ? Hn Hm]; subst.
  - injection Heq as -> ->. now rewrite String.eqb_refl.
  - destruct (String.eqb_spec k0 k); [|auto].
    subst k0. exfalso. apply Hn. apply (in_map fst) in Hin. exact Hin.
Qed.

Section MoreProperties.

Context {env : Env}.

(** ** The representation of the index *)

Lemma node_entries_update_same key f g n :
  JsMap.get key g = Some n ->
  node_entries key (update_node key f g) = children (f n).
Proof.
  intros E. unfold node_entries, update_node. rewrite E.
  now rewrite JsMap_get_set_eq.
Qed.

Lemma node_entries_update_other key key' f g :
  key <> key' ->
  node_entries key' (update_node key f g) = node_entries key' g.
Proof.
  intros Hne. unfold node_entries, update_node.
  destruct (JsMap.get key g); [|reflexivity].
  now rewrite JsMap_get_set_ne.
Qed.

Lemma update_node_keys key f g :
  map fst (update_node key f g) = map fst g.
Proof.
  unfold update_node. destruct (JsMap.get key g) eqn:E; [|reflexivity].
  rewrite JsMap_keys_set. unfold JsMap.has. now rewrite E.
Qed.

Lemma index_ok_get key n g :
  index_ok g -> JsMap.get key g = Some n -> node_keyed n.
Proof.
  intros [_ H] E. apply JsMap_get_In in E.
  rewrite Forall_forall in H. apply (H _ E).
Qed.

Lemma index_ok_entries key g :
  index_ok g ->
  keys_unique (node_entries key g) /\
  Forall (fun kc => fst kc = Link.publicKey (link (snd kc)))
         (node_entries key g).
Proof.
  intros H. unfold node_entries.
  destruct (JsMap.get key g) as [n|] eqn:E.
  - exact (index_ok_get key n g H E).
  - split; constructor.
Qed.

Lemma index_ok_removeChild key k g :
  index_ok g -> index_ok (update_node key (removeChild k) g).
Proof.
  intros H. split.
  - unfold keys_unique. rewrite update_node_keys. apply H.
  - unfold update_node. destruct (JsMap.get key g) as [n|] eqn:E;
      [|apply H].
    apply JsMap_Forall_set; [apply H|]. simpl.
    destruct (index_ok_get key n g H E) as [Hu Hk]. split; simpl.
    + now apply keys_unique_delete.
    + now apply JsMap_Forall_delete.
Qed.

Lemma index_ok_graph_add parent child g :
  index_ok g -> index_ok (graph_add parent child g).
Proof.
  intros H. unfold graph_add.
  assert (Hadd : forall n, node_keyed n -> node_keyed (addChild child n)).
  { intros n [Hu Hk]. split; simpl.
    - now apply keys_unique_set.
    - apply JsMap_Forall_set; [exact Hk | reflexivity]. }
  destruct (JsMap.get parent g) as [n|] eqn:E.
  - split.
    + apply keys_unique_set, H.
    + apply JsMap_Forall_set; [apply H|]. simpl.
      apply Hadd. exact (index_ok_get parent n g H E).
  - split.
    + apply keys_unique_set, keys_unique_set, H.
    + apply JsMap_Forall_set.
      * apply JsMap_Forall_set; [apply H|]. simpl. split; constructor.
      * simpl. apply Hadd. split; constructor.
Qed.

Lemma graph_add_keys parent child g key :
  In key (map fst g) -> In key (map fst (graph_add parent child g)).
Proof.
  intros Hin. unfold graph_add.
  destruct (JsMap.get parent g) eqn:E.
  - rewrite JsMap_keys_set. unfold JsMap.has. now rewrite E.
  - rewrite JsMap_keys_set. unfold JsMap.has.
    rewrite JsMap_get_set_eq. rewrite JsMap_keys_set. unfold JsMap.has.
    rewrite E. apply in_or_app. now left.
Qed.

Lemma _addMemLink_graph parent r l o t :
  match o with Some l' => l' = l | None => parseLink r = Some l end ->
  _graph (fst (_addMemLink parent r o t))
    = graph_add parent (mkChild l r) (_graph t).
Proof.
  intros Ho. unfold _addMemLink, graph_add.
  replace (match o with Some l0 => Some l0 | None => parseLink r end)
    with (Some l) by (destruct o; congruence).
  now destruct (JsMap.get parent (_graph t)).
Qed.

(** ** What pruning keeps *)

Lemma pruned_app now g1 r1 g2 :
  pruned now g1 r1 g2 ->
  forall r2 g3, pruned now g2 r2 g3 -> pruned now g1 (r1 ++ r2) g3.
Proof.
  induction 1 as [g|g key k v removed g' Hget Hexp _ IH]; intros r2 g3 H2;
    simpl; [exact H2|].
  econstructor; eauto.
Qed.

Lemma pruned_index_ok now g removed g' :
  pruned now g removed g' -> index_ok g -> index_ok g'.
Proof.
  induction 1 as [g|g key k v removed g' Hget Hexp _ IH]; intros H; [exact H|].
  apply IH. now apply index_ok_removeChild.
Qed.

Lemma pruned_keys now g removed g' :
  pruned now g removed g' -> map fst g' = map fst g.
Proof.
  induction 1 as [g|g key k v removed g' Hget Hexp _ IH]; [reflexivity|].
  now rewrite IH, update_node_keys.
Qed.

Lemma node_entries_removeChild key k key' g :
  node_entries key' (update_node key (removeChild k) g) =
  if String.eqb key key' then JsMap.delete k (node_entries key' g)
  else node_entries key' g.
Proof.
  destruct (String.eqb_spec key key') as [<-|Hne].
  - unfold node_entries at 2.
    destruct (JsMap.get key g) as [n|] eqn:E.
    + now rewrite (node_entries_update_same key _ g n E).
    + unfold update_node, node_entries. rewrite E. simpl. now rewrite E.
  - now apply node_entries_update_other.
Qed.

(** A link that is in the index after the pruning was there before. *)
Lemma pruned_sub now g removed g' :
  pruned now g removed g' ->
  forall key k c,
    JsMap.get k (node_entries key g') = Some c ->
    JsMap.get k (node_entries key g) = Some c.
Proof.
  induction 1 as [g|g key0 k0 v removed g' Hget Hexp _ IH];
    intros key k c H; [exact H|].
  apply IH in H. rewrite node_entries_removeChild in H.
  destruct (String.eqb key0 key); [|exact H].
  destruct (String.eqb_spec k0 k) as [->|Hne].
  - now rewrite JsMap_get_delete_eq in H.
  - now rewrite JsMap_get_delete_ne in H.
Qed.

(** A link that has not expired is still in the index after the pruning. *)
Lemma pruned_keeps now g removed g' :
  pruned now g removed g' ->
  forall key k c,
    JsMap.get k (node_entries key g) = Some c ->
    num_le (Link.expiration (link c)) now = false ->
    JsMap.get k (node_entries key g') = Some c.
Proof.
  induction 1 as [g|g key0 k0 v removed g' Hget Hexp _ IH];
    intros key k c H Hc; [exact H|].
  apply IH; [|exact Hc]. rewrite node_entries_removeChild.
  destruct (String.eqb_spec key0 key) as [->|Hne]; [|exact H].
  destruct (String.eqb_spec k0 k) as [->|Hne].
  - rewrite H in Hget. injection Hget as ->. congruence.
  - now rewrite JsMap_get_delete_ne.
Qed.

(** The removed links had expired. *)
Lemma pruned_removed now g removed g' :
  pruned now g removed g' ->
  Forall (fun c => num_le (Link.expiration (link c)) now = true) removed.
Proof.
  induction 1; constructor; auto.
Qed.

(** ** The search, for any property of the chains it builds

    [g0] is the graph when [getChain] is called, [pk] the local key.  [I] is
    what is known of an entry of the stack and [Q] what follows for a chain
    that is found; both are read off the links of [g0] that the search
    follows. *)

Section Search.

Variables (hexRoot : Buffer) (cb : Callback) (now : Z).
Variables (g0 : JsMap.t TrustNode) (pk : Buffer).
Variable I : Item -> Prop.
Variable Q : Num -> list Buffer -> Prop.

Hypothesis Hpush :
  forall item k v,
    I item ->
    JsMap.get k (node_entries (i_node item) g0) = Some v ->
    k = Link.publicKey (link v) ->
    num_le (Link.expiration (link v)) now = false ->
    I (mkItem k (Math_min (i_expiration item) (Link.expiration (link v)))
              (i_chain item ++ [raw v])).

Hypothesis Hmatch :
  forall item k v,
    I item ->
    JsMap.get k (node_entries (i_node item) g0) = Some v ->
    num_le (Link.expiration (link v)) now = false ->
    Link.publicKey (link v) = pk ->
    Q (Math_min (i_expiration item) (Link.expiration (link v)))
      (i_chain item ++ [raw v]).

Lemma within_pruned g removed g' :
  within g0 g -> pruned now g removed g' -> within g0 g'.
Proof.
  intros Hw Hp key k c H. apply Hw. eapply pruned_sub; eauto.
Qed.

Lemma for_children_generic visited item :
  I item ->
  forall entries queue t,
    publicKey t = pk -> index_ok (_graph t) -> within g0 (_graph t) ->
    Forall I queue ->
    keys_unique entries ->
    Forall (fun kv => JsMap.get (fst kv)
                        (node_entries (i_node item) (_graph t))
                      = Some (snd kv)) entries ->
    exists removed,
      match for_children hexRoot cb now visited item entries queue t with
      | Found t' =>
          frame t t' /\ pruned now (_graph t) removed (_graph t') /\
          Level.pending (db t')
            = Level.pending (db t) ++ map del_of removed /\
          exists e chain,
            Q e chain /\
            _lru t' = LRU.set hexRoot (mkCached e chain) (_lru t) /\
            nextTicks t' = nextTicks t ++ [(cb, Chain chain)]
      | Continue queue' t' =>
          frame t t' /\ pruned now (_graph t) removed (_graph t') /\
          Level.pending (db t')
            = Level.pending (db t) ++ map del_of removed /\
          _lru t' = _lru t /\ nextTicks t' = nextTicks t /\
          Forall I queue'
      end.
Proof.
  intros Hitem. induction entries as [|[k v] rest IH];
    intros queue t Hpk Hidx Hw Hq Hu Hent; simpl.
  - exists []. simpl. conjs; auto using frame_refl, pruned_refl.
    now rewrite app_nil_r.
  - apply Forall_cons_iff in Hent. destruct Hent as [Hv Hrest].
    simpl in Hv. unfold keys_unique in Hu. simpl in Hu.
    apply NoDup_cons_iff in Hu. destruct Hu as [Hnotin Hu'].
    destruct (num_le (Link.expiration (link v)) now) eqn:Hexp.
    + (* the link has expired: it is removed *)
      match goal with
      | |- exists _, match for_children _ _ _ _ _ _ _ ?t3 with _ => _ end =>
          assert (Hfr : frame t t3)
            by (eapply frame_trans;
                [apply frame_set_graph | apply frame_start]);
          destruct (IH queue t3) as [removed IHr]
      end; simpl; auto.
      * now apply index_ok_removeChild.
      * eapply within_pruned; [exact Hw|].
        eapply pruned_step; [exact Hv | exact Hexp | apply pruned_refl].
      * rewrite Forall_forall in Hrest |- *. intros [k' v'] Hin.
        simpl. rewrite node_entries_removeChild, String.eqb_refl.
        rewrite JsMap_get_delete_ne; [apply (Hrest _ Hin)|].
        intros <-. apply Hnotin. apply (in_map fst) in Hin. exact Hin.
      * exists (v :: removed).
        destruct (for_children _ _ _ _ _ rest queue _) as [t'|queue' t'];
          simpl in IHr.
        -- destruct IHr as (Hf & Hp & Hpend & Hfound).
           conjs; auto.
           ++ eapply frame_trans; eauto.
           ++ eapply pruned_step; eauto.
           ++ rewrite Hpend. simpl. now rewrite <- app_assoc.
        -- destruct IHr as (Hf & Hp & Hpend & Hl & Ht & Hq').
           conjs; auto.
           ++ eapply frame_trans; eauto.
           ++ eapply pruned_step; eauto.
           ++ rewrite Hpend. simpl. now rewrite <- app_assoc.
    + (* the link is kept *)
      assert (Hv0 : JsMap.get k (node_entries (i_node item) g0) = Some v)
        by (apply Hw; exact Hv).
      assert (Hk : k = Link.publicKey (link v)).
      { destruct (index_ok_entries (i_node item) _ Hidx) as [_ Hkeyed].
        rewrite Forall_forall in Hkeyed.
        apply (Hkeyed (k, v)). now apply JsMap_get_In. }
      destruct (String.eqb_spec (publicKey t) (Link.publicKey (link v)))
        as [Hloc|Hloc].
      * exists []. simpl. conjs.
        -- eapply frame_trans; [apply frame_set_lru | apply frame_nextTick].
        -- apply pruned_refl.
        -- now rewrite app_nil_r.
        -- eexists. eexists. conjs; [|reflexivity|reflexivity].
           apply (Hmatch item k v); auto; congruence.
      * destruct (JsMap.get k (_graph t)); [|now apply IH].
        destruct (visited_has k visited); [now apply IH|].
        destruct (Nat.leb _ _); [now apply IH|].
        apply IH; try assumption; try reflexivity.
        constructor; [|exact Hq]. now apply Hpush.
Qed.

Lemma search_generic fuel :
  forall visited queue t t',
    search fuel hexRoot cb now visited queue t = Some t' ->
    publicKey t = pk -> index_ok (_graph t) -> within g0 (_graph t) ->
    Forall I queue ->
    exists removed,
      frame t t' /\ pruned now (_graph t) removed (_graph t') /\
      Level.pending (db t') = Level.pending (db t) ++ map del_of removed /\
      answered hexRoot cb Q t t'.
Proof.
  induction fuel as [|fuel IH]; intros visited queue t t' Hs Hpk Hidx Hw Hq;
    simpl in Hs; [discriminate|].
  destruct queue as [|item queue1].
  - injection Hs as <-. exists []. simpl.
    conjs; auto using frame_nextTick, pruned_refl.
    + now rewrite app_nil_r.
    + left. auto.
  - apply Forall_cons_iff in Hq. destruct Hq as [Hitem Hq1].
    destruct (index_ok_entries (i_node item) _ Hidx) as [Hu _].
    destruct (for_children_generic (i_node item :: visited) item Hitem
                (node_entries (i_node item) (_graph t)) queue1 t
                Hpk Hidx Hw Hq1 Hu) as [removed Hfor].
    { rewrite Forall_forall. intros [k v] Hin. simpl.
      now apply JsMap_In_get. }
    destruct (for_children _ _ _ _ _ _ queue1 t) as [t1|queue2 t1].
    + injection Hs as <-. destruct Hfor as (Hf & Hp & Hpend & Hfound).
      exists removed. conjs; auto. right. exact Hfound.
    + destruct Hfor as (Hf & Hp & Hpend & Hl & Ht & Hq2).
      apply IH in Hs; auto.
      * destruct Hs as (removed2 & Hf2 & Hp2 & Hpend2 & Hans).
        exists (removed ++ removed2). conjs.
        -- eapply frame_trans; eauto.
        -- eapply pruned_app; eauto.
        -- rewrite Hpend2, Hpend, map_app. now rewrite app_assoc.
        -- destruct Hans as [[Hl2 Ht2]|(e & chain & HQ & Hl2 & Ht2)].
           ++ left. split; congruence.
           ++ right. exists e, chain. conjs; congruence.
      * rewrite (fr_publicKey Hf). exact Hpk.
      * eapply pruned_index_ok; eauto.
      * eapply within_pruned; eauto.
Qed.

End Search.

(** ** The three ways in which a ready engine answers *)

Lemma within_refl g : within g g.
Proof. intros key k c H. exact H. Qed.

Lemma getChain_cases (I : Item -> Prop) (Q : Num -> list Buffer -> Prop)
    root cb now t :
  (forall item k v,
     I item ->
     JsMap.get k (node_entries (i_node item) (_graph t)) = Some v ->
     k = Link.publicKey (link v) ->
     num_le (Link.expiration (link v)) now = false ->
     I (mkItem k (Math_min (i_expiration item) (Link.expiration (link v)))
               (i_chain item ++ [raw v]))) ->
  (forall item k v,
     I item ->
     JsMap.get k (node_entries (i_node item) (_graph t)) = Some v ->
     num_le (Link.expiration (link v)) now = false ->
     Link.publicKey (link v) = publicKey t ->
     Q (Math_min (i_expiration item) (Link.expiration (link v)))
       (i_chain item ++ [raw v])) ->
  I (mkItem root Infinity []) ->
  index_ok (_graph t) -> _ready t = true -> root <> publicKey t ->
  (JsMap.has root (_graph t) = false /\
   getChain root cb now t
     = nextTick cb (Failure "No trust path available") t) \/
  (JsMap.has root (_graph t) = true /\
   exists c,
     fst (LRU.get root (_lru t)) = Some c /\
     num_gt (c_expiration c) now = true /\
     getChain root cb now t
       = nextTick cb (Chain (c_chain c))
                  (set_lru (snd (LRU.get root (_lru t))) t)) \/
  (JsMap.has root (_graph t) = true /\
   (forall c, fst (LRU.get root (_lru t)) = Some c ->
              num_gt (c_expiration c) now = false) /\
   exists t1 removed,
     _graph t1 = _graph t /\ db t1 = db t /\ nextTicks t1 = nextTicks t /\
     frame t (getChain root cb now t) /\
     pruned now (_graph t) removed (_graph (getChain root cb now t)) /\
     Level.pending (db (getChain root cb now t))
       = Level.pending (db t) ++ map del_of removed /\
     answered root cb Q t1 (getChain root cb now t)).
Proof.
  intros Hpush Hmatch Hinit Hidx Hr Hne. unfold getChain.
  destruct (String.eqb_spec root (publicKey t)); [contradiction|].
  rewrite Hr. simpl negb. cbv iota.
  destruct (JsMap.has root (_graph t)); simpl negb; cbv iota; [|left; auto].
  right.
  assert (Hres : forall t1,
             _graph t1 = _graph t -> db t1 = db t ->
             nextTicks t1 = nextTicks t -> frame t t1 ->
             exists removed,
               frame t (resolve root cb now t1) /\
               pruned now (_graph t) removed
                      (_graph (resolve root cb now t1)) /\
               Level.pending (db (resolve root cb now t1))
                 = Level.pending (db t) ++ map del_of removed /\
               answered root cb Q t1 (resolve root cb now t1)).
  { intros t1 Hg1 Hd1 Ht1 Hf1. unfold resolve.
    destruct (search_terminates root cb now t1) as [t' Hs]. rewrite Hs.
    destruct (search_generic root cb now (_graph t) (publicKey t) I Q
                Hpush Hmatch _ _ _ _ _ Hs) as (removed & Hf & Hp & Hpend & Ha).
    - apply (fr_publicKey Hf1).
    - now rewrite Hg1.
    - rewrite Hg1. apply within_refl.
    - constructor; [exact Hinit | constructor].
    - exists removed. rewrite Hg1, Hd1 in *. conjs; auto.
      eapply frame_trans; eauto. }
  destruct (LRU.get root (_lru t)) as [[c|] lru1] eqn:Eget; simpl.
  - destruct (num_gt (c_expiration c) now) eqn:Hgt.
    + left. split; [reflexivity|]. exists c. auto.
    + right. split; [reflexivity|]. split; [now intros c' [= <-]|].
      match goal with
      | |- context [resolve root cb now ?t1] =>
          destruct (Hres t1) as (removed & H); try reflexivity;
          [|exists t1, removed; conjs; try reflexivity; apply H]
      end.
      eapply frame_trans; apply frame_set_lru.
  - right. split; [reflexivity|]. split; [discriminate|].
    destruct (Hres (set_lru lru1 t)) as (removed & H); try reflexivity;
      [apply frame_set_lru|].
    exists (set_lru lru1 t), removed. conjs; try reflexivity; apply H.
Qed.

(** ** The shape of the index in every state *)

Lemma _addLink_graph_cases parent r l now t :
  _graph (_addLink parent r l now t) = _graph t \/
  _graph (_addLink parent r l now t)
    = graph_add parent (mkChild l r) (_graph t).
Proof.
  unfold _addLink. destruct (num_le _ now); [now left|]. right.
  now rewrite (_addMemLink_graph parent r l (Some l)).
Qed.

Lemma addChain_forEach_index_ok clock raws :
  forall prev t,
    index_ok (_graph t) ->
    index_ok (_graph (fst (addChain_forEach prev raws clock t))).
Proof.
  revert clock.
  induction raws as [|r raws IH]; intros clock prev t H; simpl; [exact H|].
  destruct (parseLink r) as [l|]; [|exact H].
  apply IH. destruct (_addLink_graph_cases prev r l (clock O) t) as [->| ->];
    [exact H | now apply index_ok_graph_add].
Qed.

Lemma getChain_pruned root cb now t :
  index_ok (_graph t) ->
  exists removed,
    pruned now (_graph t) removed (_graph (getChain root cb now t)) /\
    Level.pending (db (getChain root cb now t))
      = Level.pending (db t) ++ map del_of removed /\
    _dbUsed (getChain root cb now t)
      = (_dbUsed t + Z.of_nat (List.length removed))%Z.
Proof.
  intros Hidx.
  assert (Hsame : forall t', _graph t' = _graph t -> db t' = db t ->
            _dbUsed t' = _dbUsed t ->
            exists removed,
              pruned now (_graph t) removed (_graph t') /\
              Level.pending (db t')
                = Level.pending (db t) ++ map del_of removed /\
              _dbUsed t' = (_dbUsed t + Z.of_nat (List.length removed))%Z).
  { intros t' -> -> ->. exists []. simpl. rewrite app_nil_r.
    conjs; [apply pruned_refl | reflexivity | lia]. }
  destruct (String.eqb_spec root (publicKey t)) as [->|Hne].
  { rewrite getChain_local. now apply Hsame. }
  destruct (_ready t) eqn:Hr.
  2:{ rewrite getChain_buffered by assumption. now apply Hsame. }
  destruct (getChain_cases (fun _ => True) (fun _ _ => True) root cb now t)
    as [[_ ->]|[(_ & c & _ & _ & ->)|(_ & _ & t1 & removed & H)]];
    try (now apply Hsame); auto.
  exists removed. destruct H as (_ & _ & _ & Hf & Hp & Hpend & _).
  conjs; auto. pose proof (fr_count Hf) as Hc. rewrite Hpend in Hc.
  rewrite length_app, length_map in Hc. lia.
Qed.

Lemma getChain_index_ok root cb now t :
  index_ok (_graph t) -> index_ok (_graph (getChain root cb now t)).
Proof.
  intros H. destruct (getChain_pruned root cb now t H) as (removed & Hp & _).
  eapply pruned_index_ok; eauto.
Qed.

Lemma step_index_ok e t :
  index_ok (_graph t) -> index_ok (_graph (fst (step e t))).
Proof.
  intros H. destruct e as [root raw0 cb now|root cb now|cb|key value
                          |now| |i err]; simpl.
  - destruct (addChain_fields root raw0 cb now t) as (-> & _).
    now apply addChain_forEach_index_ok.
  - now apply getChain_index_ok.
  - unfold close. now destruct (negb _).
  - unfold load_data. set (r := substring _ _ key).
    destruct (parseLink r) as [l|] eqn:Hp.
    + rewrite (_addMemLink_graph value r l None) by exact Hp.
      now apply index_ok_graph_add.
    + unfold _addMemLink. now rewrite Hp.
  - unfold load_end.
    pose proof (_freeDB_graph (stream_closed t)) as Hg.
    destruct (_freeDB (stream_closed t)) as [t1 [|m]]; simpl in *;
      [|now rewrite Hg].
    assert (Hfold : forall queue clock t0,
               index_ok (_graph t0) ->
               index_ok (_graph (replay queue clock t0))).
    { induction queue as [|q queue IH]; intros clock t0 H0; simpl;
        [exact H0|].
      apply IH. now apply getChain_index_ok. }
    apply Hfold. simpl. now rewrite Hg.
  - unfold load_error. now rewrite _freeDB_graph.
  - unfold op_done. now rewrite _freeDB_graph.
Qed.

Lemma reachable_index_ok (pk : Buffer) (t : Trust) :
  reachable pk t -> index_ok (_graph t).
Proof.
  induction 1 as [|t e _ IH _].
  - split; constructor.
  - now apply step_index_ok.
Qed.

(** X1: in every state that the engine reaches, the index keeps one node per
    issuer and, in a node, one link per subject, filed under the key of the
    subject. *)
Theorem index_has_one_link_per_pair (pk : Buffer) (t : Trust) :
  reachable pk t -> index_ok (_graph t).
Proof.
  induction 1 as [|t e _ IH _].
  - split; constructor.
  - now apply step_index_ok.
Qed.

(** ** What [getChain] answers and what it leaves *)

(** X2: a ready engine answers every [getChain] with one call of the
    callback, which gets a chain or the error [No trust path available]; the
    search always comes to an end. *)
Theorem getChain_answers_once (pk : Buffer) (t : Trust) (root : Buffer)
    (callback : Callback) (now : Z) :
  reachable pk t -> _ready t = true ->
  exists reply,
    nextTicks (getChain root callback now t)
      = nextTicks t ++ [(callback, reply)] /\
    (reply = Failure "No trust path available" \/
     exists chain, reply = Chain chain) /\
    _ready (getChain root callback now t) = true /\
    _queue (getChain root callback now t) = _queue t.
Proof.
  intros Hreach Hr.
  pose proof (reachable_index_ok pk t Hreach) as Hidx.
  destruct (String.eqb_spec root (publicKey t)) as [->|Hne].
  { rewrite getChain_local. exists (Chain []).
    conjs; simpl; eauto. }
  destruct (getChain_cases (fun _ => True) (fun _ _ => True) root callback
              now t)
    as [[_ ->]|[(_ & c & _ & _ & ->)|(_ & _ & t1 & removed & H)]]; auto.
  - eexists. conjs; simpl; eauto.
  - eexists. conjs; simpl; eauto.
  - destruct H as (_ & _ & Ht1 & Hf & _ & _ & Ha).
    rewrite (fr_ready Hf), (fr_queue Hf).
    destruct Ha as [[_ Ht]|(e & chain & _ & _ & Ht)]; rewrite Ht, Ht1;
      eexists; conjs; eauto.
Qed.

Lemma edge_entries issuer subject t :
  edge issuer subject t
  = JsMap.get subject (node_entries issuer (_graph t)).
Proof.
  unfold edge, node_entries. now destruct (JsMap.get issuer (_graph t)).
Qed.

(** A link that is no longer in the index after the pruning is one of the
    links removed. *)
Lemma pruned_gone now g removed g' :
  pruned now g removed g' ->
  forall key k c,
    JsMap.get k (node_entries key g) = Some c ->
    JsMap.get k (node_entries key g') <> Some c ->
    In c removed.
Proof.
  induction 1 as [g|g key0 k0 v removed g' Hget Hexp _ IH];
    intros key k c H Hgone; [contradiction|].
  destruct (String.eqb_spec key0 key) as [->|Hkey].
  - destruct (String.eqb_spec k0 k) as [->|Hk].
    + rewrite H in Hget. injection Hget as ->. now left.
    + right. apply (IH key k c); [|exact Hgone].
      rewrite node_entries_removeChild, String.eqb_refl.
      now rewrite JsMap_get_delete_ne.
  - right. apply (IH key k c); [|exact Hgone].
    rewrite node_entries_removeChild.
    destruct (String.eqb_spec key0 key); [contradiction | exact H].
Qed.

(** X3: what [getChain] does to the index is a sequence of [removeChild] of
    stored links, [removed], each of which had expired at [now] when it was
    taken out: every link that was in the index and is no longer there is in
    [removed], no link is added, and no link that has not expired is
    removed.  For the links of [removed], in this order, [getChain] issues
    one [db.del] each, under the key of the [db.put] that stored the link,
    and counts it in [_dbUsed]; it issues no other operation. *)
Theorem getChain_removes_only_expired_links (pk : Buffer) (t : Trust)
    (root : Buffer) (callback : Callback) (now : Z) :
  reachable pk t ->
  exists removed,
    pruned now (_graph t) removed (_graph (getChain root callback now t)) /\
    (forall issuer subject c,
       edge issuer subject t = Some c ->
       edge issuer subject (getChain root callback now t) <> Some c ->
       In c removed) /\
    (forall issuer subject c,
       edge issuer subject (getChain root callback now t) = Some c ->
       edge issuer subject t = Some c) /\
    (forall issuer subject c,
       edge issuer subject t = Some c ->
       num_le (Link.expiration (link c)) now = false ->
       edge issuer subject (getChain root callback now t) = Some c) /\
    Forall (fun c => num_le (Link.expiration (link c)) now = true) removed /\
    Level.pending (db (getChain root callback now t))
      = Level.pending (db t) ++ map del_of removed /\
    Level.store (db (getChain root callback now t)) = Level.store (db t) /\
    _dbUsed (getChain root callback now t)
      = (_dbUsed t + Z.of_nat (List.length removed))%Z.
Proof.
  intros Hreach.
  pose proof (reachable_index_ok pk t Hreach) as Hidx.
  pose proof (reachable_invariant pk t Hreach) as Hinv.
  destruct (getChain_pruned root callback now t Hidx)
    as (removed & Hp & Hpend & Hused).
  exists removed. conjs; auto.
  - intros issuer subject c. rewrite !edge_entries.
    apply (pruned_gone now _ _ _ Hp).
  - intros issuer subject c. rewrite !edge_entries.
    apply (pruned_sub now _ _ _ Hp).
  - intros issuer subject c. rewrite !edge_entries.
    apply (pruned_keeps now _ _ _ Hp).
  - eapply pruned_removed; eauto.
  - destruct (_ready t) eqn:Hr.
    + destruct (getChain_answers root callback now t (inv_graph Hinv)
                  (inv_lru Hinv) (or_introl Hr)) as (Hf & _).
      apply (fr_store Hf).
    + destruct (String.eqb_spec root (publicKey t)) as [->|Hne].
      * now rewrite getChain_local.
      * now rewrite getChain_buffered.
Qed.

Lemma JsMap_has_keys {V} (k : Buffer) (m : JsMap.t V) :
  JsMap.has k m = true <-> In k (map fst m).
Proof.
  unfold JsMap.has. destruct (JsMap.get k m) eqn:E.
  - split; [intros _|reflexivity].
    apply JsMap_get_In in E. now apply (in_map fst) in E.
  - apply JsMap_get_None_keys in E. split; [discriminate|contradiction].
Qed.

Lemma addChain_forEach_keys clock raws key :
  forall prev t,
    In key (map fst (_graph t)) ->
    In key (map fst (_graph (fst (addChain_forEach prev raws clock t)))).
Proof.
  revert clock.
  induction raws as [|r raws IH]; intros clock prev t H; simpl; [exact H|].
  destruct (parseLink r) as [l|]; [|exact H].
  apply IH. destruct (_addLink_graph_cases prev r l (clock O) t) as [->| ->];
    [exact H | now apply graph_add_keys].
Qed.

(** X4: a node of the graph is never removed: a key that has a node keeps it
    through every turn of the engine, also when all its links have been
    pruned. *)
Theorem nodes_are_never_removed (pk : Buffer) (t : Trust) (e : Event)
    (key : Buffer) :
  reachable pk t ->
  JsMap.has key (_graph t) = true ->
  JsMap.has key (_graph (fst (step e t))) = true.
Proof.
  intros Hreach. rewrite !JsMap_has_keys. intros H.
  pose proof (reachable_index_ok pk t Hreach) as Hidx.
  destruct e as [root raw0 cb now|root cb now|cb|k value|now| |i err]; simpl.
  - destruct (addChain_fields root raw0 cb now t) as (-> & _).
    now apply addChain_forEach_keys.
  - destruct (getChain_pruned root cb now t Hidx) as (removed & Hp & _).
    now rewrite (pruned_keys now _ _ _ Hp).
  - unfold close. now destruct (negb _).
  - unfold load_data. set (r := substring _ _ k).
    destruct (parseLink r) as [l|] eqn:Hp.
    + rewrite (_addMemLink_graph value r l None) by exact Hp.
      now apply graph_add_keys.
    + unfold _addMemLink. now rewrite Hp.
  - unfold load_end.
    pose proof (_freeDB_graph (stream_closed t)) as Hg.
    destruct (_freeDB (stream_closed t)) as [t1 [|m]]; simpl in *;
      [|now rewrite Hg].
    assert (Hfold : forall queue clock t0,
               index_ok (_graph t0) -> In key (map fst (_graph t0)) ->
               In key (map fst (_graph (replay queue clock t0)))).
    { induction queue as [|q queue IH]; intros clock t0 H0 Hin; simpl;
        [exact Hin|].
      apply IH; [now apply getChain_index_ok|].
      destruct (getChain_pruned (fst q) (snd q) (clock O) t0 H0)
        as (removed & Hp & _).
      now rewrite (pruned_keys (clock O) _ _ _ Hp). }
    apply Hfold; simpl; now rewrite Hg.
  - unfold load_error. now rewrite _freeDB_graph.
  - unfold op_done. now rewrite _freeDB_graph.
Qed.

(** ** The chain that a search finds *)

Lemma walk_snoc g from chain mid :
  walk g from chain mid ->
  forall k v,
    JsMap.get k (node_entries mid g) = Some v ->
    walk g from (chain ++ [raw v]) k.
Proof.
  induction 1 as [k0|from k0 v0 rest to Hget _ IH]; intros k v Hk; simpl.
  - econstructor; [exact Hk | constructor].
  - econstructor; [exact Hget | now apply IH].
Qed.

(** X5: when the cache holds no chain for [root] that is still good, the chain
    with which [getChain] answers is made of links that were in the index
    when it was called: the first is a link of [root], each next one a link of
    the subject of the one before, and the last one is a link to the local
    key. *)
Theorem getChain_finds_a_stored_path (pk : Buffer) (t : Trust)
    (root : Buffer) (callback : Callback) (now : Z) (chain : list Buffer) :
  reachable pk t -> _ready t = true -> root <> publicKey t ->
  (forall c, fst (LRU.get root (_lru t)) = Some c ->
             num_gt (c_expiration c) now = false) ->
  nextTicks (getChain root callback now t)
    = nextTicks t ++ [(callback, Chain chain)] ->
  walk (_graph t) root chain (publicKey t).
Proof.
  intros Hreach Hr Hne Hmiss Hticks.
  pose proof (reachable_index_ok pk t Hreach) as Hidx.
  destruct (getChain_cases
              (fun item => walk (_graph t) root (i_chain item) (i_node item))
              (fun _ c => walk (_graph t) root c (publicKey t))
              root callback now t)
    as [[_ Heq]|[(_ & c & Hc & Hgt & _)|(_ & _ & t1 & removed & H)]]; auto.
  - intros item k v Hw Hget _ _. simpl. now apply (walk_snoc _ _ _ _ Hw).
  - intros item k v Hw Hget _ Hloc. rewrite <- Hloc.
    destruct (index_ok_entries (i_node item) _ Hidx) as [_ Hkeyed].
    rewrite Forall_forall in Hkeyed.
    pose proof (Hkeyed (k, v) (JsMap_get_In _ _ _ Hget)) as Hk.
    simpl in Hk. rewrite <- Hk.
    now apply (walk_snoc _ _ _ _ Hw).
  - constructor.
  - rewrite Heq in Hticks. simpl in Hticks.
    apply app_inv_head in Hticks. discriminate.
  - rewrite (Hmiss c Hc) in Hgt. discriminate.
  - destruct H as (_ & _ & Ht1 & _ & _ & _ & Ha).
    destruct Ha as [[_ Ht]|(e & chain' & HQ & _ & Ht)];
      rewrite Ht, Ht1 in Hticks; apply app_inv_head in Hticks.
    + discriminate.
    + injection Hticks as <-. exact HQ.
Qed.

(** ** The cache *)

Lemma LRU_get_set {V} (k : Buffer) (v : V) (c : LRU.t V) :
  fst (LRU.get k (LRU.set k v c)) = Some v.
Proof.
  unfold LRU.get, LRU.set.
  destruct (JsMap.has k (LRU.items c)); simpl;
    now rewrite String.eqb_refl.
Qed.

Lemma LRU_get_get {V} (k : Buffer) (v : V) (c : LRU.t V) :
  fst (LRU.get k c) = Some v ->
  fst (LRU.get k (snd (LRU.get k c))) = Some v.
Proof.
  unfold LRU.get. destruct (JsMap.get k (LRU.items c)) as [v'|] eqn:E;
    simpl; [|discriminate].
  intros [= ->]. now rewrite String.eqb_refl.
Qed.

Lemma getChain_cache_hit root cb now t c :
  _ready t = true -> root <> publicKey t ->
  JsMap.has root (_graph t) = true ->
  fst (LRU.get root (_lru t)) = Some c ->
  num_gt (c_expiration c) now = true ->
  getChain root cb now t
  = nextTick cb (Chain (c_chain c)) (set_lru (snd (LRU.get root (_lru t))) t).
Proof.
  intros Hr Hne Hhas Hc Hgt. unfold getChain.
  destruct (String.eqb_spec root (publicKey t)); [contradiction|].
  rewrite Hr, Hhas. simpl.
  destruct (LRU.get root (_lru t)) as [cached lru1]. simpl in Hc. subst cached.
  now rewrite Hgt.
Qed.

Lemma num_gt_earlier e now now2 :
  num_gt e now = true -> (now2 <= now)%Z -> num_gt e now2 = true.
Proof.
  destruct e; simpl; auto. rewrite !Z.ltb_lt. lia.
Qed.

(** ** A search made again

    The entries of a node after a search are those before it without the
    ones that the search removed. *)

Lemma thinned_refl now l : thinned now l l.
Proof. induction l; constructor; auto. Qed.

Lemma thinned_trans now l1 l2 :
  thinned now l1 l2 -> forall l3, thinned now l2 l3 -> thinned now l1 l3.
Proof.
  induction 1 as [|kv l l' _ IH|kv l l' Hexp _ IH]; intros l3 H23.
  - exact H23.
  - inversion H23 as [|? ? l3' H'|? ? ? Hexp' H']; subst.
    + apply thinned_keep. now apply IH.
    + apply thinned_drop; [exact Hexp'|]. now apply IH.
  - apply thinned_drop; [exact Hexp|]. now apply IH.
Qed.

Lemma thinned_delete now k v l :
  keys_unique l -> JsMap.get k l = Some v ->
  num_le (Link.expiration (link v)) now = true ->
  thinned now l (JsMap.delete k l).
Proof.
  unfold keys_unique. induction l as [|[k' v'] l IH]; simpl; [discriminate|].
  intros Hu Hget Hexp. apply NoDup_cons_iff in Hu. destruct Hu as [Hn Hu].
  destruct (String.eqb_spec k' k) as [->|Hne].
  - injection Hget as ->. rewrite JsMap_delete_absent by exact Hn.
    apply thinned_drop; [exact Hexp | apply thinned_refl].
  - apply thinned_keep. now apply IH.
Qed.

Lemma pruned_thinned now g removed g' :
  pruned now g removed g' -> index_ok g ->
  forall key, thinned now (node_entries key g) (node_entries key g').
Proof.
  induction 1 as [g|g key0 k v removed g' Hget Hexp _ IH]; intros Hidx key.
  - apply thinned_refl.
  - eapply thinned_trans; [|apply IH; now apply index_ok_removeChild].
    rewrite node_entries_removeChild.
    destruct (String.eqb_spec key0 key) as [->|Hne]; [|apply thinned_refl].
    destruct (index_ok_entries key g Hidx) as [Hu _].
    now apply (thinned_delete now k v).
Qed.

Lemma JsMap_has_same_keys {V} (k : Buffer) (m m' : JsMap.t V) :
  map fst m' = map fst m -> JsMap.has k m' = JsMap.has k m.
Proof.
  intros H.
  destruct (JsMap.has k m) eqn:E.
  - apply JsMap_has_keys. rewrite H. now apply JsMap_has_keys.
  - destruct (JsMap.has k m') eqn:E'; [|reflexivity].
    apply JsMap_has_keys in E'. rewrite H in E'.
    apply JsMap_has_keys in E'. congruence.
Qed.

(** A link that is in the index after the loop was there before. *)
Lemma for_children_sub hexRoot cb now visited item :
  forall entries queue t key k c,
    JsMap.get k
      (node_entries key
         (graph_of (for_children hexRoot cb now visited item entries queue
                                 t))) = Some c ->
    JsMap.get k (node_entries key (_graph t)) = Some c.
Proof.
  induction entries as [|[k0 v] rest IH]; intros queue t key k c; simpl;
    [auto|].
  destruct (num_le (Link.expiration (link v)) now).
  - intros H. apply IH in H. simpl in H.
    rewrite node_entries_removeChild in H.
    destruct (String.eqb (i_node item) key); [|exact H].
    now apply JsMap_get_delete_Some in H.
  - destruct (String.eqb (publicKey t) (Link.publicKey (link v)));
      [simpl; auto|].
    destruct (JsMap.get k0 (_graph t)); [|apply IH].
    destruct (visited_has k0 visited); [apply IH|].
    destruct (Nat.leb _ _); apply IH.
Qed.

Lemma for_children_pruned hexRoot cb now visited item queue t :
  index_ok (_graph t) ->
  exists removed,
    pruned now (_graph t) removed
      (graph_of (for_children hexRoot cb now visited item
                   (node_entries (i_node item) (_graph t)) queue t)) /\
    match for_children hexRoot cb now visited item
            (node_entries (i_node item) (_graph t)) queue t with
    | Found _ => True
    | Continue _ t' =>
        publicKey t' = publicKey t /\ nextTicks t' = nextTicks t
    end.
Proof.
  intros Hidx.
  destruct (index_ok_entries (i_node item) _ Hidx) as [Hu _].
  destruct (for_children_generic hexRoot cb now (_graph t) (publicKey t)
              (fun _ => True) (fun _ _ => True)
              (fun _ _ _ _ _ _ _ => I) (fun _ _ _ _ _ _ _ => I)
              visited item I
              (node_entries (i_node item) (_graph t)) queue t
              eq_refl Hidx (within_refl _)) as [removed H]; auto.
  - clear. induction queue; constructor; auto.
  - rewrite Forall_forall. intros [k v] Hin. simpl. now apply JsMap_In_get.
  - exists removed.
    destruct (for_children _ _ _ _ _ _ queue t) as [t'|queue' t']; simpl.
    + destruct H as (_ & Hp & _). auto.
    + destruct H as (Hf & Hp & _ & _ & Ht & _).
      conjs; auto. apply (fr_publicKey Hf).
Qed.

Lemma search_pruned hexRoot cb now fuel visited queue t t' :
  search fuel hexRoot cb now visited queue t = Some t' ->
  index_ok (_graph t) ->
  exists removed, pruned now (_graph t) removed (_graph t').
Proof.
  intros Hs Hidx.
  destruct (search_generic hexRoot cb now (_graph t) (publicKey t)
              (fun _ => True) (fun _ _ => True)
              (fun _ _ _ _ _ _ _ => I) (fun _ _ _ _ _ _ _ => I)
              fuel visited queue t t' Hs eq_refl Hidx (within_refl _))
    as (removed & _ & Hp & _).
  - clear. induction queue; constructor; auto.
  - now exists removed.
Qed.

(** The loop of a second search, at a time [now2] that is not later, on the
    graph [_graph s] that the first search has left: it does what the loop
    of the first did, and removes nothing. *)
Lemma for_children_again hexRoot cb now visited item cb2 now2 s :
  (now2 <= now)%Z ->
  forall E1 E2 queue t1,
    thinned now E1 E2 ->
    Forall (fun kv => JsMap.get (fst kv)
                        (node_entries (i_node item) (_graph s))
                      = Some (snd kv)) E2 ->
    (forall k c,
       JsMap.get k (node_entries (i_node item) (_graph s)) = Some c ->
       JsMap.get k
         (node_entries (i_node item)
            (graph_of (for_children hexRoot cb now visited item E1 queue
                                    t1))) = Some c) ->
    (forall key, JsMap.has key (_graph s) = JsMap.has key (_graph t1)) ->
    publicKey s = publicKey t1 ->
    match for_children hexRoot cb now visited item E1 queue t1 with
    | Continue queue' t1' =>
        nextTicks t1' = nextTicks t1 /\
        for_children hexRoot cb2 now2 visited item E2 queue s
          = Continue queue' s
    | Found t1' =>
        exists e c,
          nextTicks t1' = nextTicks t1 ++ [(cb, Chain c)] /\
          for_children hexRoot cb2 now2 visited item E2 queue s
            = Found (nextTick cb2 (Chain c)
                       (set_lru (LRU.set hexRoot (mkCached e c) (_lru s)) s))
    end.
Proof.
  intros Hnow. induction E1 as [|[k v] rest IH];
    intros E2 queue t1 Hth Hin Hsub Hhas Hpk.
  - inversion Hth; subst. simpl. auto.
  - revert Hsub. simpl.
    destruct (num_le (Link.expiration (link v)) now) eqn:Hexp; intros Hsub.
    + (* removed by the first search: it is not in what that search left *)
      inversion Hth as [|kv l l' Hth'|kv l l' Hexp' Hth']; subst.
      * exfalso. apply Forall_cons_iff in Hin. destruct Hin as [Hget _].
        simpl in Hget. apply Hsub in Hget. apply for_children_sub in Hget.
        simpl in Hget.
        rewrite node_entries_removeChild, String.eqb_refl in Hget.
        now rewrite JsMap_get_delete_eq in Hget.
      * match goal with
        | |- match for_children _ _ _ _ _ _ _ ?t3 with _ => _ end =>
            specialize (IH E2 queue t3 Hth' Hin Hsub)
        end.
        simpl in IH. apply IH; [|exact Hpk].
        intros key. rewrite Hhas. symmetry.
        apply JsMap_has_same_keys, update_node_keys.
    + (* kept by the first search: the second finds it and keeps it *)
      inversion Hth as [|kv l l' Hth'|kv l l' Hexp' Hth']; subst;
        [|simpl in Hexp'; congruence].
      apply Forall_cons_iff in Hin. destruct Hin as [_ Hin].
      simpl. rewrite (num_le_earlier _ _ _ Hexp Hnow), Hpk.
      revert Hsub.
      destruct (String.eqb (publicKey t1) (Link.publicKey (link v)));
        intros Hsub.
      * eexists _, _. split; reflexivity.
      * pose proof (Hhas k) as Hk. unfold JsMap.has in Hk. revert Hsub.
        destruct (JsMap.get k (_graph s)), (JsMap.get k (_graph t1));
          try discriminate; intros Hsub; [|now apply IH].
        revert Hsub. destruct (visited_has k visited); intros Hsub;
          [now apply IH|].
        revert Hsub. destruct (Nat.leb _ _); intros Hsub; now apply IH.
Qed.

Lemma search_again hexRoot cb now cb2 now2 s c :
  (now2 <= now)%Z ->
  forall fuel visited queue t1 t1f,
    search fuel hexRoot cb now visited queue t1 = Some t1f ->
    index_ok (_graph t1) ->
    _graph s = _graph t1f -> publicKey s = publicKey t1 ->
    nextTicks t1f = nextTicks t1 ++ [(cb, Chain c)] ->
    exists e,
      search fuel hexRoot cb2 now2 visited queue s
      = Some (nextTick cb2 (Chain c)
                (set_lru (LRU.set hexRoot (mkCached e c) (_lru s)) s)).
Proof.
  intros Hnow. induction fuel as [|fuel IH];
    intros visited queue t1 t1f Hs Hidx Hg Hpk Ht; [discriminate|].
  destruct (search_pruned _ _ _ _ _ _ _ _ Hs Hidx) as [removed Hp].
  simpl in Hs. destruct queue as [|item queue1].
  { injection Hs as <-. simpl in Ht. apply app_inv_head in Ht.
    discriminate. }
  destruct (for_children_pruned hexRoot cb now (i_node item :: visited) item
              queue1 t1 Hidx) as (removed1 & Hp1 & Hfr).
  pose proof (for_children_again hexRoot cb now (i_node item :: visited) item
                cb2 now2 s Hnow
                (node_entries (i_node item) (_graph t1))
                (node_entries (i_node item) (_graph s)) queue1 t1) as Hloop.
  assert (Hidxf : index_ok (_graph t1f)) by (eapply pruned_index_ok; eauto).
  simpl. 
  destruct (for_children hexRoot cb now (i_node item :: visited) item
              (node_entries (i_node item) (_graph t1)) queue1 t1)
    as [t'|queue2 t1'] eqn:Efor; simpl in Hp1.
  - injection Hs as ->.
    destruct Hloop as (e & c' & Ht' & Hrun); auto.
    + rewrite Hg. now apply pruned_thinned with (removed := removed).
    + rewrite Forall_forall. intros [k v] Hin. simpl.
      apply JsMap_In_get; [|exact Hin]. rewrite Hg.
      now destruct (index_ok_entries (i_node item) _ Hidxf).
    + simpl. now rewrite Hg.
    + intros key. rewrite Hg. apply JsMap_has_same_keys.
      eapply pruned_keys; eauto.
    + rewrite Ht in Ht'. apply app_inv_head in Ht'. injection Ht' as <-.
      rewrite Hrun. now exists e.
  - destruct Hfr as [Hpk1 Ht1].
    assert (Hidx1 : index_ok (_graph t1')) by (eapply pruned_index_ok; eauto).
    destruct (search_pruned _ _ _ _ _ _ _ _ Hs Hidx1) as [removed2 Hp2].
    destruct Hloop as (_ & Hrun); auto.
    + rewrite Hg. now apply pruned_thinned with (removed := removed).
    + rewrite Forall_forall. intros [k v] Hin. simpl.
      apply JsMap_In_get; [|exact Hin]. rewrite Hg.
      now destruct (index_ok_entries (i_node item) _ Hidxf).
    + simpl. rewrite Hg. intros k c0 H.
      eapply pruned_sub; eauto.
    + intros key. rewrite Hg. apply JsMap_has_same_keys.
      eapply pruned_keys; eauto.
    + rewrite Hrun. apply (IH _ _ t1' t1f); auto; congruence.
Qed.

(** What a query does when the cache has nothing for it that is good. *)
Lemma getChain_searches root cb now t :
  _ready t = true -> root <> publicKey t ->
  JsMap.has root (_graph t) = true ->
  (forall c, fst (LRU.get root (_lru t)) = Some c ->
             num_gt (c_expiration c) now = false) ->
  exists t1,
    _graph t1 = _graph t /\ db t1 = db t /\ publicKey t1 = publicKey t /\
    nextTicks t1 = nextTicks t /\
    search (search_fuel t1) root cb now [] [mkItem root Infinity []] t1
      = Some (getChain root cb now t).
Proof.
  intros Hr Hne Hhas Hmiss. unfold getChain.
  destruct (String.eqb_spec root (publicKey t)); [contradiction|].
  rewrite Hr, Hhas. simpl.
  assert (Hres : forall t1,
             search (search_fuel t1) root cb now [] [mkItem root Infinity []]
                    t1 = Some (resolve root cb now t1)).
  { intros t1. unfold resolve.
    destruct (search_terminates root cb now t1) as [t' Hs]. now rewrite Hs. }
  destruct (LRU.get root (_lru t)) as [[c|] lru1] eqn:Eget; simpl.
  - rewrite (Hmiss c eq_refl).
    eexists. conjs; [| | | |apply Hres]; reflexivity.
  - eexists. conjs; [| | | |apply Hres]; reflexivity.
Qed.

(** X6: a chain with which [getChain] has answered is the answer to the same
    query made again, at that time or an earlier one, and neither the index
    nor the store is touched: the chain is taken from the cache or, when the
    cache does not vouch for it, found again by a search that removes
    nothing. *)
Theorem getChain_repeats_from_cache (pk : Buffer) (t : Trust)
    (root : Buffer) (callback : Callback) (now : Z) (chain : list Buffer)
    (callback2 : Callback) (now2 : Z) :
  reachable pk t -> _ready t = true -> root <> publicKey t ->
  nextTicks (getChain root callback now t)
    = nextTicks t ++ [(callback, Chain chain)] ->
  (now2 <= now)%Z ->
  let t' := getChain root callback now t in
  nextTicks (getChain root callback2 now2 t')
    = nextTicks t' ++ [(callback2, Chain chain)] /\
  _graph (getChain root callback2 now2 t') = _graph t' /\
  db (getChain root callback2 now2 t') = db t'.
Proof.
  intros Hreach Hr Hne Hticks Hnow t'.
  pose proof (reachable_index_ok pk t Hreach) as Hidx.
  assert (Hhit : forall c,
             _ready t' = true -> publicKey t' = publicKey t ->
             JsMap.has root (_graph t') = true ->
             fst (LRU.get root (_lru t')) = Some c ->
             num_gt (c_expiration c) now2 = true ->
             c_chain c = chain ->
             nextTicks (getChain root callback2 now2 t')
               = nextTicks t' ++ [(callback2, Chain chain)] /\
             _graph (getChain root callback2 now2 t') = _graph t' /\
             db (getChain root callback2 now2 t') = db t').
  { intros c Hr' Hpk' Hhas' Hc' Hgt' <-.
    rewrite (getChain_cache_hit root callback2 now2 t' c); auto.
    congruence. }
  subst t'.
  destruct (getChain_cases (fun _ => True) (fun _ _ => True)
              root callback now t)
    as [[_ Heq]|[(Hhas & c & Hc & Hgt & Heq)
                |(Hhas & Hmiss & t1 & removed & H)]]; auto.
  - rewrite Heq in Hticks. simpl in Hticks.
    apply app_inv_head in Hticks. discriminate.
  - rewrite Heq in Hticks. simpl in Hticks.
    apply app_inv_head in Hticks. injection Hticks as <-.
    apply (Hhit c); rewrite ?Heq; simpl; auto.
    + now apply LRU_get_get.
    + eapply num_gt_earlier; eauto.
  - destruct H as (_ & _ & Ht1 & Hf & Hp & _ & Ha).
    destruct Ha as [[_ Ht]|(e & chain' & _ & Hl & Ht)];
      rewrite Ht, Ht1 in Hticks; apply app_inv_head in Hticks;
      [discriminate|].
    injection Hticks as <-.
    set (t' := getChain root callback now t) in *.
    assert (Hr' : _ready t' = true) by (rewrite (fr_ready Hf); exact Hr).
    assert (Hpk' : publicKey t' = publicKey t) by apply (fr_publicKey Hf).
    assert (Hhas' : JsMap.has root (_graph t') = true).
    { rewrite JsMap_has_keys in Hhas |- *.
      now rewrite (pruned_keys now _ _ _ Hp). }
    assert (Hc' : fst (LRU.get root (_lru t')) = Some (mkCached e chain'))
      by (rewrite Hl; apply LRU_get_set).
    destruct (num_gt e now2) eqn:Hgt2.
    { now apply (Hhit (mkCached e chain')). }
    (* the cache does not vouch for the chain: it is found again *)
    destruct (getChain_searches root callback now t Hr Hne Hhas Hmiss)
      as (t0 & Hg0 & _ & Hpk0 & Ht0 & Hs0).
    fold t' in Hs0.
    destruct (getChain_searches root callback2 now2 t' Hr') as
      (s & Hgs & Hds & Hpks & Hts & Hss); auto.
    { congruence. }
    { intros c0 Hc0. rewrite Hc' in Hc0. now injection Hc0 as <-. }
    destruct (search_again root callback now callback2 now2 s chain' Hnow
                (search_fuel t0) [] _ t0 t' Hs0) as [e' Hrun]; auto.
    { now rewrite Hg0. }
    { congruence. }
    { congruence. }
    assert (Heq : getChain root callback2 now2 t'
                  = nextTick callback2 (Chain chain')
                      (set_lru (LRU.set root (mkCached e' chain') (_lru s))
                               s)).
    { destruct (Nat.le_ge_cases (search_fuel t0) (search_fuel s)) as [Hle|Hle].
      - apply (search_more_fuel root callback2 now2 _ _ _ _ _ _ Hle) in Hrun.
        rewrite Hss in Hrun. now injection Hrun.
      - apply (search_more_fuel root callback2 now2 _ _ _ _ _ _ Hle) in Hss.
        rewrite Hrun in Hss. now injection Hss. }
    rewrite Heq. simpl. rewrite Hts, Hgs, Hds. auto.
Qed.

(** ** What [addChain] writes and what the load reads *)

Lemma _addLink_pending parent r l now t :
  Level.pending (db (_addLink parent r l now t))
    = Level.pending (db t) ++
      (if num_le (Link.expiration l) now then []
       else [Put (String.append LINK_PREFIX r) parent]) /\
  Level.store (db (_addLink parent r l now t)) = Level.store (db t) /\
  _dbUsed (_addLink parent r l now t)
    = (_dbUsed t + (if num_le (Link.expiration l) now then 0 else 1))%Z.
Proof.
  unfold _addLink. destruct (num_le _ now).
  - rewrite app_nil_r. conjs; auto. lia.
  - rewrite _addMemLink_parsed. simpl. auto.
Qed.

Lemma addChain_forEach_puts clock raws :
  forall prev t,
    Level.pending (db (fst (addChain_forEach prev raws clock t)))
      = Level.pending (db t) ++ puts_of prev raws clock /\
    Level.store (db (fst (addChain_forEach prev raws clock t)))
      = Level.store (db t) /\
    _dbUsed (fst (addChain_forEach prev raws clock t))
      = (_dbUsed t + Z.of_nat (List.length (puts_of prev raws clock)))%Z.
Proof.
  revert clock. induction raws as [|r raws IH]; intros clock prev t; simpl.
  - rewrite app_nil_r. conjs; auto. lia.
  - destruct (parseLink r) as [l|]; simpl.
    + destruct (IH (later clock) (Link.publicKey l)
                   (_addLink prev r l (clock O) t))
        as (-> & -> & ->).
      destruct (_addLink_pending prev r l (clock O) t) as (-> & -> & ->).
      rewrite <- app_assoc, length_app.
      conjs; auto. destruct (num_le _ _); simpl List.length; lia.
    + rewrite app_nil_r. conjs; auto. lia.
Qed.

Lemma addChain_forEach_ticks clock raws :
  forall prev t,
    nextTicks (fst (addChain_forEach prev raws clock t)) = nextTicks t.
Proof.
  revert clock.
  induction raws as [|r raws IH]; intros clock prev t; simpl; [reflexivity|].
  destruct (parseLink r) as [l|]; [|reflexivity]. rewrite IH.
  unfold _addLink. destruct (num_le _ _); [reflexivity|].
  now rewrite _addMemLink_parsed.
Qed.

Lemma addChain_effects (root : Buffer)
    (raws : list Buffer) (callback : option Callback) (clock : nat -> Z)
    (t : Trust) :
  Level.pending (db (fst (addChain root raws callback clock t)))
    = Level.pending (db t) ++ puts_of root raws clock /\
  Level.store (db (fst (addChain root raws callback clock t)))
    = Level.store (db t) /\
  _dbUsed (fst (addChain root raws callback clock t))
    = (_dbUsed t + Z.of_nat (List.length (puts_of root raws clock)))%Z /\
  (raws <> [] -> Forall (fun r => parseLink r <> None) raws ->
   snd (addChain root raws callback clock t) = Returned /\
   nextTicks (fst (addChain root raws callback clock t))
     = nextTicks t ++
       match callback with Some cb => [(cb, Called)] | None => [] end).
Proof.
  destruct (addChain_forEach_puts clock raws root t) as (Hp & Hs & Hu).
  pose proof (addChain_forEach_ticks clock raws root t) as Ht.
  pose proof (addChain_forEach_decodable root raws clock t) as Hdec.
  unfold addChain. destruct raws as [|r raws].
  { simpl. rewrite app_nil_r. conjs; auto; try lia. intros H. now elim H. }
  simpl Nat.eqb. cbv iota.
  destruct (addChain_forEach root (r :: raws) clock t) as [t1 [|m]];
    simpl fst in *; simpl snd in *.
  - destruct callback as [cb|]; simpl; conjs; auto; intros _ _;
      (split; [reflexivity|]); rewrite Ht; [reflexivity|].
    now rewrite app_nil_r.
  - conjs; auto. intros _ Hall. specialize (Hdec Hall). discriminate.
Qed.

(** X7: the storage operations of [addChain] are one [db.put] for each link
    of the batch that has not expired at the reading of the clock that
    [_addLink] makes for it, in the order of the batch, under the key [l2/]
    followed by the raw link and with the issuer as value - up to the first
    link that does not decode; each is counted in [_dbUsed], and nothing is
    in the store before a put completes. *)
Theorem addChain_puts_each_unexpired_link (root : Buffer)
    (raws : list Buffer) (callback : option Callback) (clock : nat -> Z)
    (t : Trust) :
  Level.pending (db (fst (addChain root raws callback clock t)))
    = Level.pending (db t) ++ puts_of root raws clock /\
  Level.store (db (fst (addChain root raws callback clock t)))
    = Level.store (db t) /\
  _dbUsed (fst (addChain root raws callback clock t))
    = (_dbUsed t + Z.of_nat (List.length (puts_of root raws clock)))%Z.
Proof.
  destruct (addChain_effects root raws callback clock t)
    as (H1 & H2 & H3 & _).
  auto.
Qed.

(** X8: when the batch is not empty and all its links decode, [addChain]
    returns and schedules the callback, if there is one, exactly once -
    whether the links are stored or left out as expired, and before any put
    has completed. *)
Theorem addChain_calls_back_once (root : Buffer)
    (raws : list Buffer) (callback : option Callback) (clock : nat -> Z)
    (t : Trust) :
  raws <> [] -> Forall (fun r => parseLink r <> None) raws ->
  snd (addChain root raws callback clock t) = Returned /\
  nextTicks (fst (addChain root raws callback clock t))
    = nextTicks t ++
      match callback with Some cb => [(cb, Called)] | None => [] end.
Proof.
  intros Hne Hall.
  destruct (addChain_effects root raws callback clock t) as (_ & _ & _ & H).
  now apply H.
Qed.

Lemma substring_all (s : string) : substring 0 (String.length s) s = s.
Proof.
  induction s as [|a s IH]; simpl; [reflexivity | now rewrite IH].
Qed.

Lemma load_data_key r parent t :
  load_data (String.append LINK_PREFIX r) parent t
  = _addMemLink parent r None t.
Proof.
  unfold load_data. simpl. now rewrite Nat.sub_0_r, substring_all.
Qed.

(** X9: what [_addLink] writes, the load reads back: for a link that decodes
    and has not expired, [_addLink] issues the put of key [l2/] followed by
    the raw link with the issuer as value, and the ['data'] handler of the
    start-up load, given that key and value, adds to the graph the very link
    that [_addLink] adds. *)
Theorem load_reads_back_what_addLink_wrote (parent r : Buffer) (l : Link.t)
    (now : Z) (t : Trust) :
  parseLink r = Some l -> num_gt (Link.expiration l) now = true ->
  Level.pending (db (_addLink parent r l now t))
    = Level.pending (db t) ++ [Put (String.append LINK_PREFIX r) parent] /\
  load_data (String.append LINK_PREFIX r) parent t
    = (set_graph (_graph (_addLink parent r l now t)) t, Returned).
Proof.
  intros Hp Hexp. apply num_gt_not_le in Hexp. split.
  - destruct (_addLink_pending parent r l now t) as (-> & _).
    now rewrite Hexp.
  - rewrite load_data_key. unfold _addLink. rewrite Hexp.
    rewrite _addMemLink_parsed. unfold _addMemLink. rewrite Hp.
    simpl. now destruct (JsMap.get parent (_graph t)).
Qed.

(** ** A load that fails *)

Lemma filter_remove_scan l :
  filter is_scan (remove_scan l) = tl (filter is_scan l).
Proof.
  induction l as [|op l IH]; simpl; [reflexivity|].
  destruct op; simpl; auto.
Qed.

Lemma filter_remove_nth i :
  forall l op,
    nth_error l i = Some op -> is_scan op = false ->
    filter is_scan (Level.remove_nth i l) = filter is_scan l.
Proof.
  induction i as [|i IH]; intros [|x l] op; simpl; try discriminate.
  - intros [= ->] ->. reflexivity.
  - intros H Hop. rewrite (IH l op H Hop). reflexivity.
Qed.

Lemma filter_scan_puts prev raws clock :
  filter is_scan (puts_of prev raws clock) = [].
Proof.
  revert prev clock. induction raws as [|r raws IH]; intros prev clock; simpl;
    [reflexivity|].
  destruct (parseLink r) as [l|]; [|reflexivity].
  rewrite filter_app, IH. now destruct (num_le _ _).
Qed.

Lemma filter_scan_dels removed :
  filter is_scan (map del_of removed) = [].
Proof. induction removed; simpl; auto. Qed.

Lemma existsb_filter_scan l :
  existsb is_scan l = true <-> filter is_scan l <> [].
Proof.
  induction l as [|op l IH]; simpl; [split; [discriminate|congruence]|].
  destruct (is_scan op); simpl; [split; [discriminate|reflexivity]|].
  exact IH.
Qed.

Lemma _freeDB_pending t :
  Level.pending (db (fst (_freeDB t))) = Level.pending (db t).
Proof.
  unfold _freeDB.
  destruct (negb _); [reflexivity|]. destruct (negb _); [reflexivity|].
  simpl fst.
  assert (H : forall queue t0,
             Level.pending (db (fold_left (fun st cb => close cb st)
                                          queue t0))
             = Level.pending (db t0)).
  { induction queue as [|cb queue IH]; intros t0; simpl; [reflexivity|].
    rewrite IH. unfold close. now destruct (negb _). }
  now rewrite H.
Qed.

Lemma replay_pending clock queue :
  forall t,
    index_ok (_graph t) ->
    filter is_scan (Level.pending (db (replay queue clock t)))
    = filter is_scan (Level.pending (db t)).
Proof.
  revert clock.
  induction queue as [|q queue IH]; intros clock t H; simpl; [reflexivity|].
  rewrite IH by now apply getChain_index_ok.
  destruct (getChain_pruned (fst q) (snd q) (clock O) t H)
    as (removed & _ & -> & _).
  now rewrite filter_app, filter_scan_dels, app_nil_r.
Qed.

(** The read streams in flight after one turn. *)
Lemma step_scans e t :
  index_ok (_graph t) -> enabled e t = true ->
  filter is_scan (Level.pending (db (fst (step e t)))) =
  match e with
  | StreamEnd _ | StreamError => tl (filter is_scan (Level.pending (db t)))
  | _ => filter is_scan (Level.pending (db t))
  end.
Proof.
  intros Hidx Hen.
  destruct e as [root raw0 cb now|root cb now|cb|key value|now| |i err];
    simpl in *.
  - destruct (addChain_effects root raw0 cb now t)
      as (-> & _).
    now rewrite filter_app, filter_scan_puts, app_nil_r.
  - destruct (getChain_pruned root cb now t Hidx) as (removed & _ & -> & _).
    now rewrite filter_app, filter_scan_dels, app_nil_r.
  - unfold close. now destruct (negb _).
  - unfold load_data, _addMemLink. destruct (parseLink _); [|reflexivity].
    now destruct (JsMap.get value (_graph t)).
  - unfold load_end.
    pose proof (_freeDB_pending (stream_closed t)) as Hp.
    pose proof (_freeDB_graph (stream_closed t)) as Hg.
    destruct (_freeDB (stream_closed t)) as [t1 [|m]]; simpl fst in *.
    + rewrite replay_pending by (simpl; now rewrite Hg).
      simpl. rewrite Hp. simpl. apply filter_remove_scan.
    + rewrite Hp. simpl. apply filter_remove_scan.
  - unfold load_error. rewrite _freeDB_pending. simpl.
    apply filter_remove_scan.
  - unfold op_done. rewrite _freeDB_pending. simpl.
    destruct (nth_error (Level.pending (db t)) i) as [op|] eqn:Hop;
      [|discriminate].
    apply (filter_remove_nth i _ op Hop). now destruct (is_scan op).
Qed.

(** There is one read stream, and it is over when the engine is ready. *)
Lemma reachable_scans pk t :
  reachable pk t ->
  (List.length (filter is_scan (Level.pending (db t))) <= 1)%nat /\
  (_ready t = true -> filter is_scan (Level.pending (db t)) = []).
Proof.
  induction 1 as [|t e Hreach [IH1 IH2] Hen].
  - simpl. split; [lia | discriminate].
  - pose proof (reachable_index_ok pk t Hreach) as Hidx.
    pose proof (reachable_invariant pk t Hreach) as Hinv.
    rewrite (step_scans e t Hidx Hen).
    assert (Htl : tl (filter is_scan (Level.pending (db t))) = []).
    { destruct (filter is_scan (Level.pending (db t))) as [|x [|y l]];
        simpl in *; auto; lia. }
    destruct e as [root raw0 cb now|root cb now|cb|key value|now| |i err];
      try rewrite Htl; (split; [simpl; auto; lia|]); auto; simpl.
    + destruct (addChain_fields root raw0 cb now t) as (_ & _ & -> & _).
      destruct (addChain_forEach_spec raw0 now root t (inv_graph Hinv))
        as (Hf & _). rewrite (fr_ready Hf). exact IH2.
    + destruct (_ready t) eqn:Hr.
      * auto.
      * destruct (String.eqb_spec root (publicKey t)) as [->|Hne].
        -- rewrite getChain_local. simpl. congruence.
        -- rewrite getChain_buffered by assumption. simpl. congruence.
    + unfold close. destruct (negb _); exact IH2.
    + unfold load_data, _addMemLink. destruct (parseLink _); [|exact IH2].
      destruct (JsMap.get value (_graph t)); exact IH2.
    + unfold op_done. simpl in Hen.
      destruct (nth_error (Level.pending (db t)) i) as [op|] eqn:Hop;
        [|discriminate].
      destruct (_freeDB_invariant (set_db (Level.land i err (db t)) t))
        as (_ & _ & -> & _); try apply Hinv; auto.
      simpl. rewrite (inv_count Hinv), (remove_nth_length _ _ _ Hop). lia.
Qed.

Lemma step_keeps_waiting pk e t :
  reachable pk t -> _ready t = false -> enabled e t = true ->
  (forall now, e <> StreamEnd now) ->
  _ready (fst (step e t)) = false /\
  exists more, _queue (fst (step e t)) = _queue t ++ more.
Proof.
  intros Hreach Hr Hen Hnot.
  pose proof (reachable_invariant pk t Hreach) as Hinv.
  assert (Hsame : forall t', _ready t' = _ready t -> _queue t' = _queue t ->
             _ready t' = false /\ exists more, _queue t' = _queue t ++ more).
  { intros t' -> ->. split; [exact Hr|]. exists []. now rewrite app_nil_r. }
  destruct e as [root raw0 cb now|root cb now|cb|key value|now| |i err];
    simpl in *.
  - destruct (addChain_fields root raw0 cb now t) as (_ & _ & Hrd & _).
    destruct (addChain_forEach_spec raw0 now root t (inv_graph Hinv))
      as (Hf & _).
    apply Hsame; [now rewrite Hrd, (fr_ready Hf)|].
    unfold addChain. destruct (Nat.eqb _ 0); [reflexivity|].
    destruct (addChain_forEach root raw0 now t) as [t1 [|m]];
      simpl in *; [destruct cb|]; simpl; apply (fr_queue Hf).
  - destruct (String.eqb_spec root (publicKey t)) as [->|Hne].
    + rewrite getChain_local. now apply Hsame.
    + rewrite getChain_buffered by assumption. simpl. eauto.
  - unfold close. destruct (negb _); now apply Hsame.
  - unfold load_data, _addMemLink. destruct (parseLink _); [|now apply Hsame].
    destruct (JsMap.get value (_graph t)); now apply Hsame.
  - now elim (Hnot now).
  - unfold load_error.
    destruct (_freeDB_invariant (stream_closed t)) as (_ & _ & Hrd & Hq & _);
      try apply Hinv.
    { simpl. rewrite (inv_count Hinv), (remove_scan_length _ Hen). lia. }
    now apply Hsame.
  - unfold op_done.
    destruct (nth_error (Level.pending (db t)) i) as [op|] eqn:Hop;
      [|discriminate].
    destruct (_freeDB_invariant (set_db (Level.land i err (db t)) t))
      as (_ & _ & Hrd & Hq & _); try apply Hinv.
    { simpl. rewrite (inv_count Hinv), (remove_nth_length _ _ _ Hop). lia. }
    now apply Hsame.
Qed.

(** X10: when the read stream of the start-up load fails, the engine never
    becomes ready: whatever turns follow, [_ready] stays false and the queries
    that were waiting stay in [_queue] (with those that arrive later behind
    them); they are never run. *)
Theorem failed_load_never_becomes_ready (pk : Buffer) (t : Trust)
    (es : list Event) :
  reachable pk t -> enabled StreamError t = true ->
  _ready (run es (fst (step StreamError t))) = false /\
  exists more,
    _queue (run es (fst (step StreamError t))) = _queue t ++ more.
Proof.
  intros Hreach Hen.
  destruct (reachable_scans pk t Hreach) as [Hone Hdone].
  assert (Hr : _ready t = false).
  { destruct (_ready t); [|reflexivity].
    simpl in Hen. apply existsb_filter_scan in Hen.
    now elim Hen; apply Hdone. }
  assert (Hstart :
            reachable pk (fst (step StreamError t)) /\
            filter is_scan (Level.pending (db (fst (step StreamError t))))
              = [] /\
            _ready (fst (step StreamError t)) = false /\
            exists more, _queue (fst (step StreamError t)) = _queue t ++ more).
  { split; [now apply reachable_step|]. split.
    - rewrite (step_scans StreamError t
                 (reachable_index_ok pk t Hreach) Hen).
      destruct (filter is_scan (Level.pending (db t))) as [|x [|y l]];
        simpl in *; auto; lia.
    - apply (step_keeps_waiting pk StreamError t); auto. discriminate. }
  generalize dependent (fst (step StreamError t)). clear Hen.
  induction es as [|e es IH]; intros t1 (Hreach1 & Hscan & Hr1 & Hq1);
    simpl.
  - auto.
  - unfold run in IH. apply IH. destruct (enabled e t1) eqn:Hen; [|auto].
    assert (Hnot : forall now, e <> StreamEnd now).
    { intros now ->. simpl in Hen. apply existsb_filter_scan in Hen.
      now elim Hen. }
    destruct (step_keeps_waiting pk e t1 Hreach1 Hr1 Hen Hnot)
      as [Hr2 [more2 Hq2]].
    split; [now apply reachable_step|]. split; [|split; [exact Hr2|]].
    + rewrite (step_scans e t1
                 (reachable_index_ok pk t1 Hreach1) Hen).
      rewrite Hscan. now destruct e.
    + destruct Hq1 as [more1 Hq1]. exists (more1 ++ more2).
      now rewrite Hq2, Hq1, app_assoc.
Qed.

(** ** A chain that is added is found *)

Lemma JsMap_get_app {V} (k : Buffer) (m1 m2 : JsMap.t V) :
  ~ In k (map fst m1) -> JsMap.get k (m1 ++ m2) = JsMap.get k m2.
Proof.
  induction m1 as [|[k' v'] m1 IH]; simpl; [reflexivity|].
  intros H. destruct (String.eqb_spec k' k); [|apply IH]; tauto.
Qed.

Lemma JsMap_set_absent {V} (k : Buffer) (v : V) (m : JsMap.t V) :
  ~ In k (map fst m) -> JsMap.set k v m = m ++ [(k, v)].
Proof.
  induction m as [|[k' v'] m IH]; simpl; [reflexivity|].
  intros H. destruct (String.eqb_spec k' k); [tauto|].
  rewrite IH; tauto.
Qed.

Lemma JsMap_set_last {V} (k : Buffer) (v v' : V) (m : JsMap.t V) :
  ~ In k (map fst m) -> JsMap.set k v' (m ++ [(k, v)]) = m ++ [(k, v')].
Proof.
  induction m as [|[k0 v0] m IH]; simpl.
  - now rewrite String.eqb_refl.
  - intros H. destruct (String.eqb_spec k0 k); [tauto|].
    rewrite IH; tauto.
Qed.

Lemma graph_add_absent parent c g :
  ~ In parent (map fst g) ->
  graph_add parent c g
  = g ++ [(parent, mkNode [(Link.publicKey (link c), c)])].
Proof.
  intros H. unfold graph_add.
  rewrite (proj2 (JsMap_get_None_keys parent g) H).
  rewrite (JsMap_set_absent parent _ g H).
  now rewrite JsMap_set_last.
Qed.

Lemma addChain_forEach_chain_graph clock cs :
  forall prev t,
    Forall (fun c => parseLink (raw c) = Some (link c)) cs ->
    Forall (fun c => forall i,
                num_le (Link.expiration (link c)) (clock i) = false) cs ->
    NoDup (chain_keys prev cs) ->
    (forall k, In k (chain_keys prev cs) -> ~ In k (map fst (_graph t))) ->
    _graph (fst (addChain_forEach prev (map raw cs) clock t))
    = _graph t ++ chain_graph prev cs.
Proof.
  revert clock.
  induction cs as [|c cs IH]; intros clock prev t Hdec Hexp Hnd Hfresh; simpl.
  - now rewrite app_nil_r.
  - apply Forall_cons_iff in Hdec. destruct Hdec as [Hc Hdec].
    apply Forall_cons_iff in Hexp. destruct Hexp as [He Hexp].
    rewrite Hc.
    unfold chain_keys in *. simpl in Hnd, Hfresh.
    apply NoDup_cons_iff in Hnd. destruct Hnd as [Hprev Hnd].
    assert (Hg : _graph (_addLink prev (raw c) (link c) (clock O) t)
                 = _graph t ++
                   [(prev, mkNode [(Link.publicKey (link c), c)])]).
    { destruct (_addLink_unexpired prev (raw c) (link c) (clock O) t (He O))
        as (-> & _).
      replace (mkChild (link c) (raw c)) with c by now destruct c.
      apply graph_add_absent. apply Hfresh. now left. }
    rewrite IH; auto.
    + rewrite Hg. now rewrite <- app_assoc.
    + eapply Forall_impl; [|exact Hexp]. intros c0 H i. apply (H (S i)).
    + intros k Hk. rewrite Hg, map_app. simpl. intros Hin.
      apply in_app_or in Hin. destruct Hin as [Hin|[<-|[]]].
      * apply (Hfresh k); auto.
      * apply Hprev. exact Hk.
Qed.

Lemma only_chain_chain_graph cs :
  forall k pre,
    NoDup (chain_keys k cs) ->
    (forall k', In k' (chain_keys k cs) -> ~ In k' (map fst pre)) ->
    only_chain (pre ++ chain_graph k cs) k cs.
Proof.
  induction cs as [|c cs IH]; intros k pre Hnd Hfresh; simpl; [exact I|].
  unfold chain_keys in *. simpl in Hnd, Hfresh.
  apply NoDup_cons_iff in Hnd. destruct Hnd as [Hk Hnd].
  split.
  - unfold node_entries. rewrite JsMap_get_app by (apply Hfresh; now left).
    simpl. now rewrite String.eqb_refl.
  - change (pre ++ (k, mkNode [(Link.publicKey (link c), c)])
                  :: chain_graph (Link.publicKey (link c)) cs)
      with (pre ++ [(k, mkNode [(Link.publicKey (link c), c)])]
                ++ chain_graph (Link.publicKey (link c)) cs).
    rewrite app_assoc. apply IH; [exact Hnd|].
    intros k' Hk'. rewrite map_app. simpl. intros Hin.
    apply in_app_or in Hin. destruct Hin as [Hin|[<-|[]]].
    + apply (Hfresh k'); auto.
    + apply Hk. exact Hk'.
Qed.

Lemma search_follows_chain hexRoot cb now final inner :
  forall k e chain visited queue t fuel,
    only_chain (_graph t) k (inner ++ [final]) ->
    Forall (fun c => num_le (Link.expiration (link c)) now = false)
           (inner ++ [final]) ->
    Link.publicKey (link final) = publicKey t ->
    (forall c, In c inner -> Link.publicKey (link c) <> publicKey t) ->
    NoDup (map (fun c => Link.publicKey (link c)) inner) ->
    (forall c, In c inner ->
               visited_has (Link.publicKey (link c)) (k :: visited) = false) ->
    (List.length chain + S (List.length inner) <= MAX_CHAIN_LENGTH)%nat ->
    (S (List.length inner) <= fuel)%nat ->
    exists t',
      search fuel hexRoot cb now visited (mkItem k e chain :: queue) t
        = Some t' /\
      nextTicks t'
        = nextTicks t ++ [(cb, Chain (chain ++ map raw (inner ++ [final])))].
Proof.
  induction inner as [|c inner IH];
    intros k e chain visited queue t fuel Hchain Hexp Hfinal Hinner Hnd Hvis
           Hlen Hfuel;
    (destruct fuel as [|fuel]; [lia|]);
    destruct Hchain as [Hnode Hchain];
    apply Forall_cons_iff in Hexp; destruct Hexp as [He Hexp];
    rewrite search_step; cbn [i_node]; rewrite Hnode;
    cbn [for_children i_chain i_expiration]; rewrite He.
  - (* the last link: it is a link to the local key *)
    rewrite Hfinal, String.eqb_refl. eexists. split; reflexivity.
  - (* a link on the way *)
    simpl map in Hnd. apply NoDup_cons_iff in Hnd. destruct Hnd as [Hc Hnd].
    replace (String.eqb (publicKey t) (Link.publicKey (link c))) with false
      by (symmetry; apply String.eqb_neq; intros Heq;
          apply (Hinner c); [now left | now symmetry]).
    assert (Hget : JsMap.get (Link.publicKey (link c)) (_graph t) <> None).
    { assert (Hent : node_entries (Link.publicKey (link c)) (_graph t) <> []).
      { destruct inner; simpl in Hchain; destruct Hchain as [-> _];
          discriminate. }
      unfold node_entries in Hent.
      destruct (JsMap.get (Link.publicKey (link c)) (_graph t));
        [discriminate | now elim Hent]. }
    destruct (JsMap.get (Link.publicKey (link c)) (_graph t));
      [|now elim Hget].
    rewrite (Hvis c) by now left.
    replace (Nat.leb MAX_CHAIN_LENGTH (List.length (chain ++ [raw c])))
      with false
      by (symmetry; apply Nat.leb_gt; rewrite length_app; simpl in *; lia).
    destruct (IH (Link.publicKey (link c))
                 (Math_min e (Link.expiration (link c)))
                 (chain ++ [raw c]) (k :: visited) queue t fuel)
      as (t' & Hs & Ht); auto.
    + intros c0 Hin. apply Hinner. now right.
    + intros c0 Hin. simpl.
      replace (String.eqb (Link.publicKey (link c0))
                          (Link.publicKey (link c))) with false.
      * apply (Hvis c0). now right.
      * symmetry. apply String.eqb_neq. intros Heq. apply Hc.
        rewrite <- Heq.
        apply (in_map (fun c1 => Link.publicKey (link c1))). exact Hin.
    + rewrite length_app. simpl in *. lia.
    + simpl in Hfuel. lia.
    + exists t'. split; [exact Hs|]. rewrite Ht.
      now rewrite <- app_assoc.
Qed.

(** X11: a chain that is added is found (the first test, for any chain): on an
    engine that has loaded an empty store, [addChain] is given a chain from
    [root] to the local key whose keys are pairwise distinct, whose links
    decode and have not expired (at any reading of the clock during
    [addChain], and when [getChain] is called), and which is not longer than
    [MAX_CHAIN_LENGTH]; then [getChain root] answers with that very chain. *)
Theorem added_chain_is_found (pk root : Buffer) (inner : list Child)
    (final : Child) (cb : option Callback) (callback : Callback)
    (clock0 : nat -> Z) (now : Z) :
  Forall (fun c => parseLink (raw c) = Some (link c)) (inner ++ [final]) ->
  Link.publicKey (link final) = pk ->
  NoDup (chain_keys root (inner ++ [final])) ->
  Forall (fun c =>
            (forall i, num_gt (Link.expiration (link c)) (clock0 i) = true) /\
            num_gt (Link.expiration (link c)) now = true)
         (inner ++ [final]) ->
  (List.length (inner ++ [final]) <= MAX_CHAIN_LENGTH)%nat ->
  let t := fst (addChain root (map raw (inner ++ [final])) cb clock0
                         (loaded pk)) in
  nextTicks (getChain root callback now t)
    = nextTicks t ++ [(callback, Chain (map raw (inner ++ [final])))].
Proof.
  intros Hdec Hfinal Hnd Hexp Hlen t.
  set (cs := inner ++ [final]) in *.
  assert (Hexp0 : Forall (fun c => forall i,
                      num_le (Link.expiration (link c)) (clock0 i) = false)
                         cs)
    by (eapply Forall_impl; [|exact Hexp];
        intros c [H _] i; apply num_gt_not_le, H).
  assert (Hexp1 : Forall (fun c => num_le (Link.expiration (link c)) now
                                   = false) cs)
    by (eapply Forall_impl; [|exact Hexp];
        intros c [_ H]; now apply num_gt_not_le).
  (* the state after the call *)
  destruct (addChain_fields root (map raw cs) cb clock0 (loaded pk))
    as (Hg & _ & Hr & Hl).
  fold t in Hg, Hr, Hl.
  pose proof (addChain_publicKey root (map raw cs) cb clock0 (loaded pk))
    as Hpk.
  fold t in Hpk. change (publicKey (loaded pk)) with pk in Hpk.
  destruct (addChain_forEach_spec (map raw cs) clock0 root (loaded pk))
    as (Hf & _ & Hl' & _); [constructor|].
  rewrite (fr_ready Hf) in Hr. change (_ready (loaded pk)) with true in Hr.
  rewrite Hl' in Hl.
  change (_lru (loaded pk)) with (LRU.create Cached LRU_SIZE) in Hl.
  rewrite (addChain_forEach_chain_graph clock0 cs root (loaded pk)) in Hg;
    auto.
  change (_graph (loaded pk)) with (@nil (Buffer * TrustNode)) in Hg.
  simpl app in Hg.
  clearbody t. clear Hf Hl'.
  (* the keys *)
  unfold chain_keys in Hnd. apply NoDup_cons_iff in Hnd.
  destruct Hnd as [Hroot Hkeys].
  assert (Hne : root <> pk).
  { intros ->. apply Hroot. subst cs. rewrite map_app. apply in_or_app.
    right. simpl. now left. }
  subst cs. rewrite map_app in Hkeys, Hroot. simpl in Hkeys, Hroot.
  assert (Hinner : forall c, In c inner -> Link.publicKey (link c) <> pk).
  { intros c Hin Heq. apply NoDup_remove_2 in Hkeys. apply Hkeys.
    rewrite app_nil_r, Hfinal, <- Heq.
    apply (in_map (fun c1 => Link.publicKey (link c1))). exact Hin. }
  (* the call *)
  unfold getChain. rewrite Hpk, Hr, Hl.
  destruct (String.eqb_spec root pk); [contradiction|]. simpl negb.
  cbv iota.
  assert (Hhas : JsMap.has root (_graph t) = true).
  { rewrite Hg. unfold JsMap.has. destruct inner; simpl;
      now rewrite String.eqb_refl. }
  rewrite Hhas. simpl negb. cbv iota.
  change (LRU.get root (LRU.create Cached LRU_SIZE))
    with (@None Cached, LRU.create Cached LRU_SIZE).
  cbv iota beta.
  set (T := set_lru (LRU.create Cached LRU_SIZE) t).
  assert (HgT : _graph T = chain_graph root (inner ++ [final])) by exact Hg.
  assert (HpT : publicKey T = pk) by exact Hpk.
  assert (HtT : nextTicks T = nextTicks t) by reflexivity.
  clearbody T.
  destruct (search_follows_chain root callback now final inner root Infinity
              [] [] [] T (search_fuel T)) as (t' & Hs & Ht).
  - rewrite HgT.
    apply (only_chain_chain_graph (inner ++ [final]) root []).
    + unfold chain_keys. constructor; rewrite map_app; auto.
    + intros k _ [].
  - exact Hexp1.
  - congruence.
  - intros c Hin. rewrite HpT. now apply Hinner.
  - eapply NoDup_app_remove_r. exact Hkeys.
  - intros c Hin. simpl. rewrite orb_false_r. apply String.eqb_neq.
    intros Heq. apply Hroot. apply in_or_app. left. rewrite <- Heq.
    apply (in_map (fun c1 => Link.publicKey (link c1))). exact Hin.
  - rewrite length_app in Hlen. simpl in *. lia.
  - unfold search_fuel. rewrite HgT. rewrite length_app in Hlen.
    simpl in Hlen.
    assert (He : (1 <= edge_count (chain_graph root (inner ++ [final])))%nat).
    { destruct inner; simpl; lia. }
    pose proof (Nat.pow_gt_lin_r
                  (S (edge_count (chain_graph root (inner ++ [final]))))
                  MAX_CHAIN_LENGTH).
    lia.
  - unfold resolve. rewrite Hs, Ht, HtT. reflexivity.
Qed.

End MoreProperties.

(** * Properties of the earlier engine *)

Lemma JsMap_get_removelast {V} (k : Buffer) (v : V) (m : JsMap.t V) :
  JsMap.get k (removelast m) = Some v -> JsMap.get k m = Some v.
Proof.
  induction m as [|[k' v'] m IH]; simpl; [discriminate|].
  destruct m as [|x m']; [discriminate|].
  change (JsMap.get k ((k', v') :: removelast (x :: m')) = Some v ->
          JsMap.get k ((k', v') :: x :: m') = Some v).
  simpl JsMap.get at 1. simpl JsMap.get at 2.
  destruct (String.eqb k' k); [auto|]. exact IH.
Qed.

Lemma legacy_prefix_inj (k k' : Buffer) :
  String.append Legacy.LINK_PREFIX k = String.append Legacy.LINK_PREFIX k' ->
  k = k'.
Proof. simpl. now intros [= ->]. Qed.

Section LegacyProperties.

Context {env : Env}.

(** ** Reading and writing a link *)

Lemma legacy_getLink_result signedBy t :
  snd (Legacy._getLink signedBy t) =
  match Legacy.stored signedBy t with
  | Some v =>
      match parseLink (Legacy.raw v) with
      | Some l => Legacy.Got (Legacy.mkFound (Legacy.depth v) l (Legacy.raw v))
      | None => Legacy.Thrown "parseLink"
      end
  | None => Legacy.Failed "NotFound"
  end.
Proof.
  unfold Legacy._getLink, Legacy.stored, LRU.get.
  destruct (JsMap.get signedBy (LRU.items (Legacy._lru t))); simpl;
    [reflexivity|].
  now destruct (JsMap.get _ (Legacy.db t)).
Qed.

Lemma legacy_getLink_state signedBy t :
  Legacy.db (fst (Legacy._getLink signedBy t)) = Legacy.db t /\
  Legacy.publicKey (fst (Legacy._getLink signedBy t)) = Legacy.publicKey t /\
  forall k, Legacy.stored k (fst (Legacy._getLink signedBy t))
            = Legacy.stored k t.
Proof.
  unfold Legacy._getLink, Legacy.stored, LRU.get.
  destruct (JsMap.get signedBy (LRU.items (Legacy._lru t))) as [v|] eqn:E;
    simpl.
  - conjs; auto. intros k. simpl.
    destruct (String.eqb_spec signedBy k) as [<-|Hne].
    + now rewrite E.
    + now rewrite JsMap_get_delete_ne.
  - destruct (JsMap.get _ (Legacy.db t)); simpl; auto.
Qed.

Lemma legacy_putLink_stored signedBy r d t k :
  Legacy.stored k (fst (Legacy._putLink signedBy r d t)) =
  if String.eqb signedBy k then Some (Legacy.mkValue d r)
  else
    match JsMap.get k (LRU.items (LRU.set signedBy (Legacy.mkValue d r)
                                          (Legacy._lru t))) with
    | Some v => Some v
    | None => JsMap.get (String.append Legacy.LINK_PREFIX k) (Legacy.db t)
    end.
Proof.
  unfold Legacy._putLink, Legacy.stored. simpl fst. cbn [Legacy._lru Legacy.db].
  destruct (String.eqb_spec signedBy k) as [<-|Hne].
  - unfold LRU.set. destruct (JsMap.has _ _); simpl;
      now rewrite String.eqb_refl.
  - destruct (JsMap.get k _); [reflexivity|].
    apply JsMap_get_set_ne. intros H. apply Hne.
    now apply legacy_prefix_inj.
Qed.

Lemma LRU_set_get_other {V} (k k' : Buffer) (v v' : V) (c : LRU.t V) :
  k <> k' ->
  JsMap.get k' (LRU.items (LRU.set k v c)) = Some v' ->
  JsMap.get k' (LRU.items c) = Some v'.
Proof.
  intros Hne. unfold LRU.set. destruct (JsMap.has k (LRU.items c)); simpl;
    destruct (String.eqb_spec k k'); try contradiction.
  - apply JsMap_get_delete_Some.
  - destruct (Nat.eqb _ _); [apply JsMap_get_removelast | auto].
Qed.

(** ** Following the stored links *)

Lemma legacy_follows_ext t t' from chain to clock i :
  (forall k, Legacy.stored k t' = Legacy.stored k t) ->
  Legacy.follows t from chain to clock i ->
  Legacy.follows t' from chain to clock i.
Proof.
  intros Hs. revert from i.
  induction chain as [|r rest IH]; simpl; intros from i; [auto|].
  intros (v & l & H1 & H2 & H3 & H4 & H5).
  exists v, l. rewrite Hs. conjs; auto.
Qed.

Lemma legacy_getChain_state fuel clock :
  forall prev signedBy t t' res,
    Legacy._getChain fuel prev signedBy clock t = Some (t', res) ->
    Legacy.db t' = Legacy.db t /\
    Legacy.publicKey t' = Legacy.publicKey t /\
    forall k, Legacy.stored k t' = Legacy.stored k t.
Proof.
  induction fuel as [|fuel IH]; simpl; intros prev signedBy t t' res;
    [discriminate|].
  destruct (legacy_getLink_state signedBy t) as (Hd & Hk & Hs).
  destruct (Legacy._getLink signedBy t) as [t1 [f|err|m]]; simpl in *.
  - destruct (num_le _ _); [intros [= <- <-]; auto|].
    destruct (String.eqb _ _); [intros [= <- <-]; auto|].
    destruct (Nat.eqb _ _); [intros [= <- <-]; auto|].
    intros H. apply IH in H. destruct H as (Hd' & Hk' & Hs').
    conjs; try congruence.
  - intros [= <- <-]; auto.
  - intros [= <- <-]; auto.
Qed.

Lemma legacy_getChain_sound fuel clock :
  forall prev signedBy t t' chain,
    (List.length prev < MAX_CHAIN_LENGTH)%nat ->
    Legacy._getChain fuel prev signedBy clock t = Some (t', Legacy.Got chain) ->
    exists rest,
      chain = (prev ++ rest)%list /\
      (List.length chain <= MAX_CHAIN_LENGTH)%nat /\
      Legacy.follows t signedBy rest (Legacy.publicKey t) clock
                     (List.length prev).
Proof.
  induction fuel as [|fuel IH]; simpl; intros prev signedBy t t' chain Hlen;
    [discriminate|].
  pose proof (legacy_getLink_result signedBy t) as Hres.
  destruct (legacy_getLink_state signedBy t) as (Hd & Hk & Hs).
  destruct (Legacy._getLink signedBy t) as [t1 [f|err|m]]; simpl in *;
    try discriminate.
  destruct (Legacy.stored signedBy t) as [v|] eqn:Ev; [|discriminate].
  destruct (parseLink (Legacy.raw v)) as [l|] eqn:Ep; [|discriminate].
  injection Hres as ->. simpl.
  destruct (num_le (Link.expiration l) (clock (List.length prev))) eqn:Eexp;
    [discriminate|].
  destruct (String.eqb_spec (Link.publicKey l) (Legacy.publicKey t)) as [E|E].
  - intros [= <- <-]. exists [Legacy.raw v]. conjs; auto.
    + rewrite length_app. simpl. lia.
    + simpl. exists v, l. auto.
  - destruct (Nat.eqb_spec (List.length (prev ++ [Legacy.raw v]))
                           MAX_CHAIN_LENGTH) as [E2|E2]; [discriminate|].
    intros Hrun. rewrite length_app in E2. simpl in E2.
    apply IH in Hrun; [|rewrite length_app; simpl; lia].
    destruct Hrun as (rest & -> & Hl & Hf).
    exists (Legacy.raw v :: rest). rewrite <- app_assoc in *. conjs; auto.
    simpl. exists v, l. conjs; auto.
    rewrite length_app, Hk in Hf. simpl in Hf.
    replace (List.length prev + 1)%nat with (S (List.length prev)) in Hf
      by lia.
    eapply legacy_follows_ext; [|exact Hf]. intros k. now rewrite Hs.
Qed.

Lemma legacy_getChain_enough fuel clock :
  forall prev signedBy t,
    (List.length prev < MAX_CHAIN_LENGTH)%nat ->
    (MAX_CHAIN_LENGTH <= List.length prev + fuel)%nat ->
    exists t' res,
      Legacy._getChain fuel prev signedBy clock t = Some (t', res) /\
      forall err, res = Legacy.Failed err ->
                  In err ["NotFound"%string; "Route expired"%string;
                          "Route length exceeded"%string].
Proof.
  induction fuel as [|fuel IH]; simpl; intros prev signedBy t Hlen Hfuel;
    [lia|].
  pose proof (legacy_getLink_result signedBy t) as Hres.
  destruct (Legacy._getLink signedBy t) as [t1 [f|err|m]]; simpl in *.
  - destruct (num_le _ _).
    { eexists _, _. split; [reflexivity|]. intros err [= <-]. simpl. auto. }
    destruct (String.eqb _ _).
    { eexists _, _. split; [reflexivity|]. discriminate. }
    destruct (Nat.eqb_spec (List.length (prev ++ [Legacy.f_raw f]))
                           MAX_CHAIN_LENGTH) as [E2|E2].
    { eexists _, _. split; [reflexivity|]. intros err [= <-]. simpl. auto. }
    rewrite length_app in E2. simpl in E2.
    apply IH; rewrite length_app; simpl; lia.
  - eexists _, _. split; [reflexivity|]. intros e [= <-].
    destruct (Legacy.stored signedBy t) as [v|]; [|injection Hres as ->].
    + destruct (parseLink _); discriminate.
    + simpl. auto.
  - eexists _, _. split; [reflexivity|]. discriminate.
Qed.

(** X13: [getChain] of the earlier engine always ends within
    [MAX_CHAIN_LENGTH] links, and leaves the store as it was.  A chain that
    it gives has at most [MAX_CHAIN_LENGTH] links; they are the stored link
    of the root, then the stored link of its subject, and so on to a link to
    the local key, and for each the test [expiration <= now] of [_getChain]
    is false at the time the link is read: its expiration is greater than
    that time, or is NaN.  An error that it gives is [Route expired],
    [Route length exceeded] or the error of [db.get]; [db.get] is taken to
    fail only for a key that is not in the store, and its error is written
    [NotFound]. *)
Theorem legacy_getChain_follows_stored_links (root : Buffer)
    (clock : nat -> Z) (t : Legacy.Trust) :
  (1 <= MAX_CHAIN_LENGTH)%nat ->
  exists t' res,
    Legacy.getChain root clock t = Some (t', res) /\
    Legacy.db t' = Legacy.db t /\
    (forall chain, res = Legacy.Got chain ->
       (List.length chain <= MAX_CHAIN_LENGTH)%nat /\
       Legacy.follows t root chain (Legacy.publicKey t) clock 0) /\
    (forall err, res = Legacy.Failed err ->
       In err ["NotFound"%string; "Route expired"%string;
                          "Route length exceeded"%string]).
Proof.
  intros Hmax. unfold Legacy.getChain.
  destruct (String.eqb_spec root (Legacy.publicKey t)) as [E|E].
  - eexists _, _. split; [reflexivity|]. conjs; auto; [|discriminate].
    intros chain [= <-]. simpl. split; [lia|exact E].
  - destruct (legacy_getChain_enough MAX_CHAIN_LENGTH clock [] root t)
      as (t' & res & Hrun & Herr); simpl; try lia.
    exists t', res. split; [exact Hrun|].
    destruct (legacy_getChain_state _ _ _ _ _ _ _ Hrun) as (Hd & _ & _).
    conjs; auto.
    intros chain ->.
    apply legacy_getChain_sound in Hrun; simpl; [|lia].
    destruct Hrun as (rest & -> & Hl & Hf). simpl in *. auto.
Qed.

Lemma legacy_getChain_complete clock t to :
  to = Legacy.publicKey t ->
  forall chain prev from fuel,
    chain <> [] ->
    Legacy.follows t from chain to clock (List.length prev) ->
    Forall (fun r => forall l, parseLink r = Some l ->
                               Link.publicKey l <> to) (removelast chain) ->
    (List.length prev + List.length chain <= MAX_CHAIN_LENGTH)%nat ->
    (List.length chain <= fuel)%nat ->
    exists t',
      Legacy._getChain fuel prev from clock t
        = Some (t', Legacy.Got (prev ++ chain)%list).
Proof.
  intros Hto chain. revert t Hto.
  induction chain as [|r rest IH]; intros t Hto prev from fuel Hne Hf Hmid
    Hlen Hfuel; [congruence|].
  destruct fuel as [|fuel]; [simpl in Hfuel; lia|].
  simpl in Hf. destruct Hf as (v & l & Hv & Hr & Hp & Hexp & Hf).
  simpl Legacy._getChain.
  pose proof (legacy_getLink_result from t) as Hres.
  destruct (legacy_getLink_state from t) as (Hd & Hk & Hs).
  rewrite Hv, Hr, Hp in Hres.
  destruct (Legacy._getLink from t) as [t1 res]. simpl in *. subst res.
  simpl.
  destruct (num_le (Link.expiration l) (clock (List.length prev))) eqn:Eexp;
    [congruence|].
  destruct rest as [|r2 rest].
  - simpl in Hf. rewrite Hf, Hto, String.eqb_refl. now exists t1.
  - simpl removelast in Hmid. apply Forall_cons_iff in Hmid.
    destruct Hmid as [Hmid1 Hmid].
    specialize (Hmid1 l Hp).
    destruct (String.eqb_spec (Link.publicKey l) (Legacy.publicKey t));
      [congruence|].
    destruct (Nat.eqb_spec (List.length (prev ++ [r])) MAX_CHAIN_LENGTH)
      as [E|E].
    { rewrite length_app in E. simpl in *. lia. }
    destruct (IH t1 (eq_trans Hto (eq_sym Hk)) (prev ++ [r])%list
                 (Link.publicKey l) fuel) as [t' Ht'].
    + discriminate.
    + replace (List.length (prev ++ [r])) with (S (List.length prev))
        by (rewrite length_app; simpl; lia).
      apply (legacy_follows_ext t t1); [exact Hs | exact Hf].
    + exact Hmid.
    + rewrite length_app. simpl in *. lia.
    + simpl in *. lia.
    + exists t'. rewrite Ht'. now rewrite <- app_assoc.
Qed.

(** X14: when the stored links lead from the root to the local key in at
    most [MAX_CHAIN_LENGTH] links, the test [expiration <= now] false for
    each of them when it is read and none before the last a link to the
    local key, [getChain] of the earlier engine gives these links. *)
Theorem legacy_getChain_gives_the_stored_chain (root : Buffer)
    (chain : list Buffer) (clock : nat -> Z) (t : Legacy.Trust) :
  root <> Legacy.publicKey t ->
  Legacy.follows t root chain (Legacy.publicKey t) clock 0 ->
  Forall (fun r => forall l, parseLink r = Some l ->
                             Link.publicKey l <> Legacy.publicKey t)
         (removelast chain) ->
  (List.length chain <= MAX_CHAIN_LENGTH)%nat ->
  exists t', Legacy.getChain root clock t = Some (t', Legacy.Got chain).
Proof.
  intros Hroot Hf Hmid Hlen. unfold Legacy.getChain.
  destruct (String.eqb_spec root (Legacy.publicKey t)); [contradiction|].
  destruct chain as [|r rest]; [simpl in Hf; contradiction|].
  apply (legacy_getChain_complete clock t (Legacy.publicKey t) eq_refl
           (r :: rest) [] root MAX_CHAIN_LENGTH); auto.
  discriminate.
Qed.

(** ** What holds of the stored links *)

Lemma legacy_stored_in_db t k v :
  Legacy.invariant t -> Legacy.stored k t = Some v ->
  JsMap.get (String.append Legacy.LINK_PREFIX k) (Legacy.db t) = Some v.
Proof.
  intros Hinv. unfold Legacy.stored.
  destruct (JsMap.get k (LRU.items (Legacy._lru t))) as [v'|] eqn:E; [|auto].
  intros [= <-]. now apply (Legacy.inv_cache t Hinv).
Qed.

Lemma legacy_stored_value t k v :
  Legacy.invariant t -> Legacy.stored k t = Some v ->
  exists l, parseLink (Legacy.raw v) = Some l /\
            (-1 <= Legacy.depth v)%Z /\
            (Legacy.depth v = 0%Z <-> Link.publicKey l = Legacy.publicKey t).
Proof.
  intros Hinv Hs. apply legacy_stored_in_db in Hs; [|exact Hinv].
  apply JsMap_get_In in Hs.
  pose proof (Legacy.inv_values t Hinv) as Hall.
  rewrite Forall_forall in Hall. exact (Hall _ Hs).
Qed.

Lemma legacy_invariant_same t t' :
  Legacy.db t' = Legacy.db t ->
  Legacy.publicKey t' = Legacy.publicKey t ->
  (forall k, Legacy.stored k t' = Legacy.stored k t) ->
  Legacy.invariant t -> Legacy.invariant t'.
Proof.
  intros Hd Hk Hs Hinv. split.
  - intros k v Hc. rewrite Hd. apply legacy_stored_in_db; [exact Hinv|].
    rewrite <- Hs. unfold Legacy.stored. now rewrite Hc.
  - rewrite Hd, Hk. exact (Legacy.inv_values t Hinv).
Qed.

Lemma legacy_getLink_invariant signedBy t :
  Legacy.invariant t -> Legacy.invariant (fst (Legacy._getLink signedBy t)).
Proof.
  destruct (legacy_getLink_state signedBy t) as (Hd & Hk & Hs).
  now apply legacy_invariant_same.
Qed.

Lemma legacy_putLink_invariant signedBy r d l t :
  parseLink r = Some l ->
  (-1 <= d)%Z ->
  (d = 0%Z <-> Link.publicKey l = Legacy.publicKey t) ->
  Legacy.invariant t ->
  Legacy.invariant (fst (Legacy._putLink signedBy r d t)).
Proof.
  intros Hp Hd H0 Hinv. split.
  - intros k v Hc. simpl in *.
    destruct (String.eqb_spec signedBy k) as [<-|Hne].
    + rewrite JsMap_get_set_eq. revert Hc. unfold LRU.set.
      destruct (JsMap.has _ _); simpl; rewrite String.eqb_refl; auto.
    + rewrite JsMap_get_set_ne
        by (intros H; apply Hne; now apply legacy_prefix_inj).
      apply (Legacy.inv_cache t Hinv).
      eapply LRU_set_get_other; [exact Hne | exact Hc].
  - simpl. apply JsMap_Forall_set; [exact (Legacy.inv_values t Hinv)|].
    simpl. exists l. auto.
Qed.

(** What [_addLink] does to the stored links: nothing, or one [_putLink] of
    the new link for its issuer, with a depth that fits. *)
Lemma legacy_addLink_cases signedBy link r t :
  Legacy.invariant t ->
  let t' := fst (Legacy._addLink signedBy link r t) in
  let res := snd (Legacy._addLink signedBy link r t) in
  (res = Legacy.Got tt \/ res = Legacy.Failed "NotFound") /\
  ((Legacy.db t' = Legacy.db t /\
    Legacy.publicKey t' = Legacy.publicKey t /\
    forall k, Legacy.stored k t' = Legacy.stored k t)
   \/
   (exists t1 d,
      t' = fst (Legacy._putLink signedBy r d t1) /\
      res = Legacy.Got tt /\
      Legacy.db t1 = Legacy.db t /\
      Legacy.publicKey t1 = Legacy.publicKey t /\
      (forall k, Legacy.stored k t1 = Legacy.stored k t) /\
      (-1 <= d)%Z /\
      (d = 0%Z <-> Link.publicKey link = Legacy.publicKey t))).
Proof.
  intros Hinv. unfold Legacy._addLink.
  pose proof (legacy_getLink_result signedBy t) as Hres.
  destruct (legacy_getLink_state signedBy t) as (Hd & Hk & Hs).
  pose proof (legacy_getLink_invariant signedBy t Hinv) as Hinv1.
  destruct (Legacy._getLink signedBy t) as [t1 old]. simpl in Hres, Hd, Hk, Hs,
    Hinv1.
  destruct (Legacy.stored signedBy t) as [v|] eqn:Ev.
  - destruct (legacy_stored_value t signedBy v Hinv Ev)
      as (lo & Hpo & Hdo & H0o).
    rewrite Hpo in Hres. subst old. cbn [Legacy.f_raw Legacy.f_link
      Legacy.f_depth].
    destruct (String.eqb (Legacy.raw v) r); [simpl; auto|].
    destruct (String.eqb_spec (Link.publicKey lo) (Link.publicKey link))
      as [Esub|Esub].
    { unfold Legacy.undefined_ge. simpl. split; [auto|]. right.
      exists t1, (Legacy.depth v). conjs; auto; rewrite <- Esub;
        apply H0o. }
    destruct (String.eqb_spec (Link.publicKey link) (Legacy.publicKey t))
      as [Eus|Eus].
    { simpl. split; [auto|]. right. exists t1, 0%Z.
      conjs; auto; try lia. split; auto. }
    pose proof (legacy_getLink_result (Link.publicKey link) t1) as Hres2.
    destruct (legacy_getLink_state (Link.publicKey link) t1)
      as (Hd2 & Hk2 & Hs2).
    destruct (Legacy._getLink (Link.publicKey link) t1) as [t2 next].
    simpl in Hres2, Hd2, Hk2, Hs2.
    destruct (Legacy.stored (Link.publicKey link) t1) as [vn|] eqn:Evn.
    + destruct (legacy_stored_value t1 _ vn Hinv1 Evn)
        as (ln & Hpn & Hdn & H0n).
      rewrite Hpn in Hres2. subst next. cbn [Legacy.f_depth].
      destruct (Z.ltb_spec (Legacy.depth vn) 0); simpl.
      { split; [auto|]. left. conjs; congruence. }
      destruct (_ && _); simpl.
      { split; [auto|]. left. conjs; congruence. }
      split; [auto|]. right. exists t2, (Legacy.depth vn + 1)%Z.
      conjs; auto; try congruence; try lia.
      split; [intros; lia | intros; contradiction].
    + subst next. simpl. split; [auto|]. left. conjs; congruence.
  - subst old. simpl. split; [auto|]. right.
    exists t1, (if String.eqb (Link.publicKey link) (Legacy.publicKey t)
                then 0 else -1)%Z.
    conjs; auto.
    + destruct (String.eqb _ _); lia.
    + destruct (String.eqb_spec (Link.publicKey link) (Legacy.publicKey t));
        split; auto; try discriminate; contradiction.
Qed.

Lemma legacy_addLink_invariant signedBy link r t :
  parseLink r = Some link ->
  Legacy.invariant t ->
  Legacy.invariant (fst (Legacy._addLink signedBy link r t)) /\
  Legacy.publicKey (fst (Legacy._addLink signedBy link r t))
    = Legacy.publicKey t.
Proof.
  intros Hp Hinv.
  destruct (legacy_addLink_cases signedBy link r t Hinv)
    as (_ & [(Hd & Hk & Hs) | (t1 & d & -> & _ & Hd & Hk & Hs & Hd1 & H0)]).
  - split; [now apply (legacy_invariant_same t) | exact Hk].
  - split; [|exact Hk].
    apply (legacy_putLink_invariant signedBy r d link); auto.
    + now rewrite Hk.
    + now apply (legacy_invariant_same t).
Qed.

Lemma legacy_parse_links_decode prev raws links :
  Legacy.parse_links prev raws = Some links ->
  Forall (fun x => parseLink (fst (fst x)) = Some (snd x)) links.
Proof.
  revert prev links. induction raws as [|r raws IH]; simpl; intros prev links.
  - intros [= <-]. constructor.
  - destruct (parseLink r) as [l|] eqn:Ep; [|discriminate].
    destruct (Legacy.parse_links (Link.publicKey l) raws) as [res|] eqn:E;
      [|discriminate].
    intros [= <-]. constructor; [exact Ep | eauto].
Qed.

Lemma legacy_forEachSeries_invariant links :
  Forall (fun x => parseLink (fst (fst x)) = Some (snd x)) links ->
  forall t,
    Legacy.invariant t ->
    Legacy.invariant (fst (Legacy.forEachSeries links t)) /\
    Legacy.publicKey (fst (Legacy.forEachSeries links t))
      = Legacy.publicKey t /\
    forall m, snd (Legacy.forEachSeries links t) <> Legacy.Thrown m.
Proof.
  induction 1 as [|[[r s] l] links Hx Hall IH]; intros t Hinv; simpl.
  - conjs; auto. discriminate.
  - simpl in Hx.
    destruct (legacy_addLink_invariant s l r t Hx Hinv) as (Hinv1 & Hk1).
    destruct (legacy_addLink_cases s l r t Hinv) as (Hres & _).
    simpl in Hres.
    destruct (Legacy._addLink s l r t) as [t1 res]. simpl in *.
    destruct Hres as [-> | ->].
    + destruct (IH t1 Hinv1) as (H1 & H2 & H3). conjs; auto. congruence.
    + simpl. conjs; auto. discriminate.
Qed.

Lemma legacy_addChain_invariant root raws t :
  Legacy.invariant t ->
  Legacy.invariant (fst (Legacy.addChain root raws t)) /\
  Legacy.publicKey (fst (Legacy.addChain root raws t)) = Legacy.publicKey t.
Proof.
  intros Hinv. unfold Legacy.addChain.
  destruct (Nat.eqb _ _); [auto|].
  destruct (Legacy.parse_links root raws) as [links|] eqn:E; [|auto].
  apply legacy_parse_links_decode in E. apply Forall_rev in E.
  destruct (legacy_forEachSeries_invariant _ E t Hinv) as (H1 & H2 & _).
  destruct (Legacy.forEachSeries (rev links) t). simpl in *. auto.
Qed.

Lemma legacy_getChain_invariant fuel clock :
  forall prev signedBy t t' res,
    Legacy.invariant t ->
    Legacy._getChain fuel prev signedBy clock t = Some (t', res) ->
    Legacy.invariant t' /\ forall m, res <> Legacy.Thrown m.
Proof.
  induction fuel as [|fuel IH]; simpl; intros prev signedBy t t' res Hinv;
    [discriminate|].
  pose proof (legacy_getLink_result signedBy t) as Hres.
  pose proof (legacy_getLink_invariant signedBy t Hinv) as Hinv1.
  destruct (Legacy._getLink signedBy t) as [t1 [f|err|m]]; simpl in *.
  - destruct (num_le _ _); [intros [= <- <-]; split; [auto|discriminate]|].
    destruct (String.eqb _ _); [intros [= <- <-]; split; [auto|discriminate]|].
    destruct (Nat.eqb _ _); [intros [= <- <-]; split; [auto|discriminate]|].
    now apply IH.
  - intros [= <- <-]; split; [auto|discriminate].
  - destruct (Legacy.stored signedBy t) as [v|] eqn:Ev; [|discriminate].
    destruct (legacy_stored_value t signedBy v Hinv Ev) as (l & Hp & _).
    rewrite Hp in Hres. discriminate.
Qed.

Lemma legacy_reachable_invariant pk t :
  Legacy.reachable pk t -> Legacy.invariant t /\ Legacy.publicKey t = pk.
Proof.
  induction 1 as [|t root raws Hr [IH1 IH2]|t root clock t' res Hr [IH1 IH2]
                   Hrun].
  - split; [|reflexivity]. split; simpl; [discriminate|constructor].
  - destruct (legacy_addChain_invariant root raws t IH1) as (H1 & H2).
    split; congruence.
  - unfold Legacy.getChain in Hrun.
    destruct (String.eqb root (Legacy.publicKey t)).
    + injection Hrun as <- <-. auto.
    + destruct (legacy_getChain_state _ _ _ _ _ _ _ Hrun) as (_ & Hk & _).
      apply legacy_getChain_invariant in Hrun; [|exact IH1].
      split; [tauto | congruence].
Qed.

(** X15: in every state that [addChain] and [getChain] reach from the empty
    store, a link that is stored for an issuer - in the cache or in the
    database - is in the database, it decodes, its depth is -1 or more, and
    the depth is 0 exactly for a link to the local key. *)
Theorem legacy_depth_zero_is_a_link_to_us (pk : Buffer) (t : Legacy.Trust)
    (k : Buffer) (v : Legacy.Value) :
  Legacy.reachable pk t ->
  Legacy.stored k t = Some v ->
  JsMap.get (String.append Legacy.LINK_PREFIX k) (Legacy.db t) = Some v /\
  exists l, parseLink (Legacy.raw v) = Some l /\
            (-1 <= Legacy.depth v)%Z /\
            (Legacy.depth v = 0%Z <-> Link.publicKey l = pk).
Proof.
  intros Hr Hs. destruct (legacy_reachable_invariant pk t Hr) as (Hinv & <-).
  split; [now apply legacy_stored_in_db|].
  now apply (legacy_stored_value t k v).
Qed.

(** X16: in every state that [addChain] and [getChain] reach, a link that
    [_putLink] writes for an issuer is the link that [_getLink] then reads
    for it, with its depth, and the links of the other issuers are what they
    were - also the one that the cache lets go to make room. *)
Theorem legacy_getLink_reads_what_putLink_wrote (pk : Buffer)
    (t : Legacy.Trust) (signedBy r : Buffer) (d : Z) (l : Link.t) :
  Legacy.reachable pk t ->
  parseLink r = Some l ->
  snd (Legacy._getLink signedBy (fst (Legacy._putLink signedBy r d t)))
    = Legacy.Got (Legacy.mkFound d l r) /\
  forall k, k <> signedBy ->
            Legacy.stored k (fst (Legacy._putLink signedBy r d t))
            = Legacy.stored k t.
Proof.
  intros Hr Hp. destruct (legacy_reachable_invariant pk t Hr) as (Hinv & _).
  split.
  - rewrite legacy_getLink_result, legacy_putLink_stored, String.eqb_refl.
    simpl. now rewrite Hp.
  - intros k Hne. rewrite legacy_putLink_stored.
    destruct (String.eqb_spec signedBy k); [congruence|].
    unfold Legacy.stored.
    destruct (JsMap.get k (LRU.items (LRU.set _ _ _))) as [v|] eqn:E.
    + apply LRU_set_get_other in E; [|congruence]. now rewrite E.
    + destruct (JsMap.get k (LRU.items (Legacy._lru t))) as [v|] eqn:E2;
        [|reflexivity].
      now apply (Legacy.inv_cache t Hinv).
Qed.

(** X17: in every state that [addChain] and [getChain] reach from the empty
    store, neither call leaves by an exception of the codec when the links
    it is given decode: [getChain] answers with a chain or an error,
    [addChain] with success or the error of the database. *)
Theorem legacy_reachable_never_throws (pk : Buffer) (t : Legacy.Trust)
    (root : Buffer) (clock : nat -> Z) (raws : list Buffer) :
  Legacy.reachable pk t ->
  (1 <= MAX_CHAIN_LENGTH)%nat ->
  Forall (fun r => parseLink r <> None) raws ->
  raws <> [] ->
  (exists t' res, Legacy.getChain root clock t = Some (t', res) /\
                  forall m, res <> Legacy.Thrown m) /\
  (snd (Legacy.addChain root raws t) = Some (Legacy.Got tt) \/
   snd (Legacy.addChain root raws t) = Some (Legacy.Failed "NotFound")).
Proof.
  intros Hr Hmax Hdec Hne.
  destruct (legacy_reachable_invariant pk t Hr) as (Hinv & Hk).
  split.
  - unfold Legacy.getChain.
    destruct (String.eqb root (Legacy.publicKey t)).
    + eexists _, _. split; [reflexivity | discriminate].
    + destruct (legacy_getChain_enough MAX_CHAIN_LENGTH clock [] root t)
        as (t' & res & Hrun & _); simpl; try lia.
      exists t', res. split; [exact Hrun|].
      now apply legacy_getChain_invariant in Hrun.
  - unfold Legacy.addChain.
    destruct raws as [|r raws]; [congruence|]. simpl Nat.eqb.
    cbv iota.
    assert (Hparse : exists links,
               Legacy.parse_links root (r :: raws) = Some links).
    { clear Hne. revert root. induction Hdec as [|x xs Hx Hxs IH];
        intros root; simpl; [eauto|].
      destruct (parseLink x) as [l|]; [|congruence].
      destruct (IH (Link.publicKey l)) as [links ->]. eauto. }
    destruct Hparse as [links Hparse]. rewrite Hparse.
    apply legacy_parse_links_decode in Hparse. apply Forall_rev in Hparse.
    revert Hinv. generalize (rev links) Hparse t. clear.
    induction 1 as [|[[r s] l] links Hx Hall IH]; intros t Hinv; simpl;
      [auto|].
    simpl in Hx.
    destruct (legacy_addLink_invariant s l r t Hx Hinv) as (Hinv1 & _).
    destruct (legacy_addLink_cases s l r t Hinv) as (Hres & _).
    simpl in Hres.
    destruct (Legacy._addLink s l r t) as [t1 res]. simpl in *.
    destruct Hres as [-> | ->]; [|auto].
    specialize (IH t1 Hinv1).
    destruct (Legacy.forEachSeries links t1). exact IH.
Qed.

(** ** What [_addLink] stores *)

(** X18: a link with other bytes for an edge that is stored - same issuer,
    same subject - always takes its place and keeps its depth, whatever the
    two expiration times are: the comparison that would keep the stored link
    reads a field that the stored entry does not have. *)
Theorem legacy_same_edge_always_replaces (signedBy r : Buffer)
    (link lo : Link.t) (old : Legacy.Value) (t : Legacy.Trust) :
  Legacy.stored signedBy t = Some old ->
  parseLink (Legacy.raw old) = Some lo ->
  Legacy.raw old <> r ->
  Link.publicKey lo = Link.publicKey link ->
  snd (Legacy._addLink signedBy link r t) = Legacy.Got tt /\
  Legacy.stored signedBy (fst (Legacy._addLink signedBy link r t))
    = Some (Legacy.mkValue (Legacy.depth old) r).
Proof.
  intros Hs Hp Hraw Hsub. unfold Legacy._addLink.
  pose proof (legacy_getLink_result signedBy t) as Hres.
  destruct (Legacy._getLink signedBy t) as [t1 res]. simpl in Hres.
  rewrite Hs, Hp in Hres. subst res.
  cbn [Legacy.f_raw Legacy.f_link Legacy.f_depth].
  destruct (String.eqb_spec (Legacy.raw old) r); [contradiction|].
  rewrite Hsub, String.eqb_refl. unfold Legacy.undefined_ge.
  split; [reflexivity|].
  now rewrite legacy_putLink_stored, String.eqb_refl.
Qed.

(** X19: a link to a key of which the store has no link cannot take the place
    of a stored link of its issuer to another key: [_addLink] gives the
    error of the database, and the stored links stay. *)
Theorem legacy_link_to_unknown_key_is_an_error (signedBy r : Buffer)
    (link lo : Link.t) (old : Legacy.Value) (t : Legacy.Trust) :
  Legacy.stored signedBy t = Some old ->
  parseLink (Legacy.raw old) = Some lo ->
  Legacy.raw old <> r ->
  Link.publicKey lo <> Link.publicKey link ->
  Link.publicKey link <> Legacy.publicKey t ->
  Legacy.stored (Link.publicKey link) t = None ->
  snd (Legacy._addLink signedBy link r t) = Legacy.Failed "NotFound" /\
  Legacy.db (fst (Legacy._addLink signedBy link r t)) = Legacy.db t /\
  forall k, Legacy.stored k (fst (Legacy._addLink signedBy link r t))
            = Legacy.stored k t.
Proof.
  intros Hs Hp Hraw Hsub Hus Hnone. unfold Legacy._addLink.
  pose proof (legacy_getLink_result signedBy t) as Hres.
  destruct (legacy_getLink_state signedBy t) as (Hd & Hk & Hst).
  destruct (Legacy._getLink signedBy t) as [t1 res]. simpl in Hres, Hd, Hk, Hst.
  rewrite Hs, Hp in Hres. subst res.
  cbn [Legacy.f_raw Legacy.f_link Legacy.f_depth].
  destruct (String.eqb_spec (Legacy.raw old) r); [contradiction|].
  destruct (String.eqb_spec (Link.publicKey lo) (Link.publicKey link));
    [contradiction|].
  destruct (String.eqb_spec (Link.publicKey link) (Legacy.publicKey t));
    [contradiction|].
  pose proof (legacy_getLink_result (Link.publicKey link) t1) as Hres2.
  destruct (legacy_getLink_state (Link.publicKey link) t1)
    as (Hd2 & Hk2 & Hst2).
  destruct (Legacy._getLink (Link.publicKey link) t1) as [t2 res2].
  simpl in Hres2, Hd2, Hk2, Hst2.
  rewrite Hst, Hnone in Hres2. subst res2. simpl.
  conjs; try congruence.
Qed.

Lemma legacy_addLink_direct signedBy link r t :
  Legacy.invariant t ->
  Link.publicKey link = Legacy.publicKey t ->
  snd (Legacy._addLink signedBy link r t) = Legacy.Got tt /\
  exists d,
    Legacy.stored signedBy (fst (Legacy._addLink signedBy link r t))
      = Some (Legacy.mkValue d r).
Proof.
  intros Hinv Hus. unfold Legacy._addLink.
  pose proof (legacy_getLink_result signedBy t) as Hres.
  destruct (legacy_getLink_state signedBy t) as (Hd & Hk & Hst).
  destruct (Legacy._getLink signedBy t) as [t1 res]. simpl in Hres, Hd, Hk, Hst.
  rewrite Hus, String.eqb_refl.
  destruct (Legacy.stored signedBy t) as [v|] eqn:Ev.
  - destruct (legacy_stored_value t signedBy v Hinv Ev) as (lo & Hpo & _).
    rewrite Hpo in Hres. subst res.
    cbn [Legacy.f_raw Legacy.f_link Legacy.f_depth].
    destruct (String.eqb_spec (Legacy.raw v) r) as [E|E].
    { simpl. split; [reflexivity|]. exists (Legacy.depth v).
      rewrite Hst, Ev. destruct v; simpl in *. now subst. }
    unfold Legacy.undefined_ge.
    destruct (String.eqb _ _); (split; [reflexivity|]); eexists;
      now rewrite legacy_putLink_stored, String.eqb_refl.
  - subst res. split; [reflexivity|]. eexists.
    now rewrite legacy_putLink_stored, String.eqb_refl.
Qed.

(** X20: a link from a root to the local key is found as soon as it is added,
    in whatever state the store is: [addChain] of this one link succeeds and
    [getChain] of the root then gives it, as long as it has not expired. *)
Theorem legacy_direct_link_is_found (pk : Buffer) (t : Legacy.Trust)
    (root r : Buffer) (l : Link.t) (clock : nat -> Z) :
  Legacy.reachable pk t ->
  parseLink r = Some l ->
  Link.publicKey l = pk ->
  root <> pk ->
  num_gt (Link.expiration l) (clock 0%nat) = true ->
  (1 <= MAX_CHAIN_LENGTH)%nat ->
  snd (Legacy.addChain root [r] t) = Some (Legacy.Got tt) /\
  exists t',
    Legacy.getChain root clock (fst (Legacy.addChain root [r] t))
      = Some (t', Legacy.Got [r]).
Proof.
  intros Hr Hp Hpk Hroot Hexp Hmax.
  destruct (legacy_reachable_invariant pk t Hr) as (Hinv & Hk).
  unfold Legacy.addChain. simpl. rewrite Hp. simpl.
  destruct (legacy_addLink_direct root l r t Hinv) as (Hres & d & Hst);
    [congruence|].
  destruct (legacy_addLink_invariant root l r t Hp Hinv) as (_ & Hk1).
  destruct (Legacy._addLink root l r t) as [t1 res]. simpl in *. subst res.
  simpl. split; [reflexivity|].
  unfold Legacy.getChain.
  destruct (String.eqb_spec root (Legacy.publicKey t1)); [congruence|].
  apply (legacy_getChain_complete clock t1 (Legacy.publicKey t1) eq_refl
           [r] [] root MAX_CHAIN_LENGTH); simpl; auto.
  - discriminate.
  - exists (Legacy.mkValue d r), l.
    conjs; auto; first [congruence | now apply num_gt_not_le].
Qed.

(** ** Decoding comes first *)

Lemma legacy_parse_links_fails prev raws :
  Exists (fun r => parseLink r = None) raws ->
  Legacy.parse_links prev raws = None.
Proof.
  intros Hex. revert prev. induction Hex as [r raws Hr|r raws Hex IH];
    intros prev; simpl.
  - now rewrite Hr.
  - destruct (parseLink r); [|reflexivity]. now rewrite IH.
Qed.

(** X21: [addChain] decodes the whole chain before it stores anything: when
    one link of the chain does not decode, wherever it is, the exception of
    the codec leaves [addChain] and the store is as before. *)
Theorem legacy_addChain_stores_nothing_on_decode_failure (root : Buffer)
    (raws : list Buffer) (t : Legacy.Trust) :
  Exists (fun r => parseLink r = None) raws ->
  Legacy.addChain root raws t = (t, Some (Legacy.Thrown "parseLink")).
Proof.
  intros Hex. unfold Legacy.addChain.
  destruct raws as [|r raws]; [inversion Hex|]. simpl Nat.eqb. cbv iota.
  now rewrite legacy_parse_links_fails.
Qed.

(** ** A long chain and a short one *)

Ltac buffer_facts :=
  repeat match goal with
  | E : ?x = ?y |- _ =>
      assert (String.eqb x y = true) by (apply String.eqb_eq; exact E);
      assert (String.eqb y x = true)
        by (apply String.eqb_eq; symmetry; exact E);
      clear E
  | E : ?x <> ?y |- _ =>
      assert (String.eqb x y = false) by (apply String.eqb_neq; exact E);
      assert (String.eqb y x = false)
        by (apply String.eqb_neq; intros ?; apply E; symmetry; assumption);
      clear E
  end.

Ltac legacy_simpl H1 H2 H3 H4 H5 Hx :=
  repeat (progress (cbn in Hx; unfold JsMap.has, LRU_SIZE in Hx;
                    rewrite ?H1, ?H2, ?H3, ?H4, ?H5, ?String.eqb_refl in Hx;
                    use_eqb_in Hx)).

(* One [_addLink] on a state that is written out. *)
Ltac legacy_step H1 H2 H3 H4 H5 Hs :=
  match type of Hs with
  | context [Legacy._addLink ?s ?l ?r (Legacy.mkTrust ?d ?k ?c)] =>
      let x := fresh "x" in
      let Hx := fresh "Hx" in
      remember (Legacy._addLink s l r (Legacy.mkTrust d k c)) as x eqn:Hx
        in Hs;
      unfold Legacy._addLink, Legacy._getLink, Legacy._putLink,
        Legacy.undefined_ge, LRU.get, LRU.set in Hx;
      legacy_simpl H1 H2 H3 H4 H5 Hx;
      subst x; cbn [Legacy.forEachSeries fst snd] in Hs
  end.

(** X22: from the empty store, a chain of three links from a root to the local
    key and a chain of two, through four or five keys, added in one order or
    the other: [getChain] of the root gives two links, the first of the
    short chain and a link from its subject to the local key. *)
Theorem legacy_short_chain_is_found_in_either_order
    (R A B C L r1 r2 r3 r4 r5 : Buffer) (e1 e2 e3 e4 e5 : Num)
    (clock : nat -> Z) :
  NoDup [R; A; B; L] -> C <> R -> C <> A -> C <> L ->
  parseLink r1 = Some (Link.mk A e1) ->
  parseLink r2 = Some (Link.mk B e2) ->
  parseLink r3 = Some (Link.mk L e3) ->
  parseLink r4 = Some (Link.mk C e4) ->
  parseLink r5 = Some (Link.mk L e5) ->
  num_gt e4 (clock 0%nat) = true -> num_gt e5 (clock 1%nat) = true ->
  num_gt e3 (clock 1%nat) = true ->
  (2 <= MAX_CHAIN_LENGTH)%nat ->
  let long := [r1; r2; r3] in
  let short := [r4; r5] in
  let t0 := Legacy.new_Trust L in
  let t12 := fst (Legacy.addChain R short (fst (Legacy.addChain R long t0))) in
  let t21 := fst (Legacy.addChain R long (fst (Legacy.addChain R short t0))) in
  (exists t' x, Legacy.getChain R clock t12 = Some (t', Legacy.Got [r4; x])
                /\ (x = r5 \/ (C = B /\ x = r3))) /\
  (exists t' x, Legacy.getChain R clock t21 = Some (t', Legacy.Got [r4; x])
                /\ (x = r5 \/ (C = B /\ x = r3))).
Proof.
  intros Hnd HCR HCA HCL H1 H2 H3 H4 H5 Hc4 Hc5 Hc3 Hmax.
  repeat (apply NoDup_cons_iff in Hnd; destruct Hnd as [? Hnd]).
  simpl in *.
  assert (R <> A) by intuition congruence.
  assert (R <> B) by intuition congruence.
  assert (R <> L) by intuition congruence.
  assert (A <> B) by intuition congruence.
  assert (A <> L) by intuition congruence.
  assert (B <> L) by intuition congruence.
  assert (r1 <> r4) by (intros ->; congruence).
  assert (Hz4 : num_le e4 (clock 0%nat) = false) by now apply num_gt_not_le.
  assert (Hz5 : num_le e5 (clock 1%nat) = false) by now apply num_gt_not_le.
  assert (Hz3 : num_le e3 (clock 1%nat) = false) by now apply num_gt_not_le.
  destruct MAX_CHAIN_LENGTH as [|[|n]] eqn:Emax; try lia.
  clear H0 H6 Hnd.
  decide_pair B C; [subst C|]; decide_pair r3 r5; buffer_facts.
  all: split.
  all: match goal with |- context [Legacy.getChain _ _ ?t] =>
         remember t as st eqn:Hst end.
  all: unfold Legacy.addChain, Legacy.new_Trust, LRU.create in Hst.
  all: cbn [List.length Nat.eqb Legacy.parse_links] in Hst.
  all: repeat (rewrite ?H1, ?H2, ?H3, ?H4, ?H5 in Hst;
               cbn [Legacy.parse_links Link.publicKey rev app] in Hst).
  all: cbn [Legacy.forEachSeries] in Hst.
  all: repeat legacy_step H1 H2 H3 H4 H5 Hst.
  all: subst st; unfold Legacy.getChain; rewrite Emax;
    unfold Legacy._getChain, Legacy._getLink, LRU.get.
  all: repeat (progress (cbn; rewrite ?Emax, ?H1, ?H2, ?H3, ?H4, ?H5,
                           ?Hz3, ?Hz4, ?Hz5, ?String.eqb_refl; use_eqb)).
  all: eexists _, _; (split; [reflexivity|]); auto.
Qed.

End LegacyProperties.

(** * The claims at work on the example codec *)

Local Open Scope string_scope.

Lemma reachable_loaded {env : Env} (pk : Buffer) : reachable pk (loaded pk).
Proof.
  unfold loaded. apply reachable_step; [apply reachable_new | reflexivity].
Qed.

(** X23 at work: the chain of the first test, asked for at time 10. *)
Lemma getChain_returns_links_past_the_stale_test_witness :
  (forall r, In r ["RA"; "AB"; "BL"] ->
     exists l, @parseLink Example.env r = Some l /\
               (num_gt (Link.expiration l) 10 = true \/
                Link.expiration l = NaN)) /\
  (forall r l added,
     @parseLink Example.env r = Some l ->
     num_le (Link.expiration l) added = true -> (added <= 10)%Z ->
     ~ In r ["RA"; "AB"; "BL"]).
Proof.
  apply (@getChain_returns_links_past_the_stale_test Example.env "L"
           Example.added
           "R" 2%nat 10%Z).
  - apply reachable_step; [apply reachable_loaded | reflexivity].
  - vm_compute. reflexivity.
Defined.

(** C5 at work: the same chain has three links, and the constant is 5. *)
Lemma getChain_chain_length_bounded_witness :
  (List.length ["RA"; "AB"; "BL"] <= 5)%nat.
Proof.
  apply (@getChain_chain_length_bounded Example.env "L"
           Example.added
           "R" 2%nat 10%Z).
  - simpl. lia.
  - apply reachable_step; [apply reachable_loaded | reflexivity].
  - vm_compute. reflexivity.
Defined.

(** C2 fails as stated: the stored link R -> A expires at 1000; a link for
    the same pair that expires at 500 is added.  By the rule of the
    specification it does not replace the stored one; in the index it has. *)
Lemma older_link_replaces_counterexample :
  let t := fst (@addChain Example.env "R" ["RA"] None (at_time 0) Example.start) in
  let t' := fst (@addChain Example.env "R" ["RA'"] None (at_time 0) t) in
  edge "R" "A" t = Some (mkChild (Example.L "A" 1000) "RA") /\
  @parseLink Example.env "RA'" = Some (Example.L "A" 500) /\
  spec_replaces (edge "R" "A" t) (Example.L "A" 500) = false /\
  edge "R" "A" t' = Some (mkChild (Example.L "A" 500) "RA'").
Proof. vm_compute. auto. Qed.

(** C3 fails as stated: the chain of two links is added first, the chain of
    three after it; all links expire at 1000 and the query is made at 10.
    The answer is the chain of three. *)
Lemma short_chain_first_counterexample :
  let t1 := fst (@addChain Example.env "R" ["RB"; "BL"] (Some 1%nat) (at_time 0)
                   Example.start) in
  let t2 := fst (@addChain Example.env "R" ["RA"; "AB"; "BL"] (Some 2%nat) (at_time 0)
                   t1) in
  nextTicks (@getChain Example.env "R" 3%nat 10 t2)
    = (nextTicks t2 ++ [(3%nat, Chain ["RA"; "AB"; "BL"])])%list /\
  ~ (List.length ["RA"; "AB"; "BL"] <= 2)%nat.
Proof. split; [vm_compute; reflexivity | simpl; lia]. Qed.

(** C3 at work: the two chains of the second test, in the order of the
    test. *)
Lemma getChain_prefers_chain_added_last_witness :
  let t1 := fst (@addChain Example.env "R" ["RA"; "AB"; "BL"] (Some 1%nat) (at_time 0)
                   (@loaded Example.env "L")) in
  let t2 := fst (@addChain Example.env "R" ["RB"; "BL"] (Some 2%nat) (at_time 0)
                   t1) in
  exists chain,
    nextTicks (@getChain Example.env "R" 3%nat 10 t2)
      = (nextTicks t2 ++ [(3%nat, Chain chain)])%list /\
    (List.length chain <= 2)%nat.
Proof.
  apply (@getChain_prefers_chain_added_last Example.env "L" "R"
           "RA" "AB" "BL" "RB" "BL"
           (Example.L "A" 1000) (Example.L "B" 1000) (Example.L "L" 1000)
           (Example.L "B" 1000) (Example.L "L" 1000)
           (Some 1%nat) (Some 2%nat) 3%nat (at_time 0) (at_time 0) 10%Z);
    try reflexivity.
  - simpl. lia.
  - repeat constructor.
  - repeat constructor.
Defined.

(** C4 fails as stated: the second link of the batch does not decode; the
    third one decodes and has not expired, and it is not indexed after the
    call; the callback has not been scheduled. *)
Lemma decode_failure_drops_the_rest_counterexample :
  let t' := fst (@addChain Example.env "R" ["RA"; "XX"; "BL"] (Some 1%nat) (at_time 0)
                   Example.start) in
  @parseLink Example.env "XX" = None /\
  @parseLink Example.env "BL" = Some (Example.L "L" 1000) /\
  indexed "RA" t' = true /\
  indexed "BL" t' = false /\
  nextTicks t' = [].
Proof. vm_compute. auto. Qed.

(** C4 at work: the same batch. *)
Lemma addChain_stops_at_decode_failure_witness :
  @addChain Example.env "R" (["RA"] ++ "XX" :: ["BL"])%list (Some 1%nat) (at_time 0)
            Example.start
  = (fst (@addChain Example.env "R" ["RA"] None (at_time 0) Example.start),
     Threw "parseLink").
Proof.
  apply (@addChain_stops_at_decode_failure Example.env "R" ["RA"] "XX"
           ["BL"] (Some 1%nat) (at_time 0) Example.start).
  - constructor; [simpl; discriminate | constructor].
  - reflexivity.
Defined.

(** C7 at work: a [close] that arrived during the load waits on [_dbQueue]
    and reaches [db.close] when the read stream has ended. *)
Lemma close_waits_for_pending_operations_witness :
  _dbQueue Example.closing = [9%nat] /\
  Level.closeCalls (db Example.closing) = [] /\
  Level.closeCalls (db (fst (_freeDB Example.closing))) = [9%nat] /\
  _dbQueue (fst (_freeDB Example.closing)) = [] /\
  _dbUsed (fst (_freeDB Example.closing)) = 0%Z.
Proof.
  split; [reflexivity|]. split; [reflexivity|].
  destruct (@close_waits_for_pending_operations Example.env "L"
              Example.closing) as (_ & _ & H & _).
  - apply reachable_step; [apply reachable_new | reflexivity].
  - apply H. reflexivity.
Defined.


(** C10 at work: three puts are in flight after the chain of the first test
    has been added. *)
Lemma dbUsed_counts_operations_in_flight_witness :
  _dbUsed Example.added
    = Z.of_nat (List.length (Level.pending (db Example.added))) /\
  (0 <= _dbUsed Example.added)%Z /\
  (forall e, @enabled e Example.added = true ->
             snd (@step Example.env e Example.added)
             <> Threw "AssertionError").
Proof.
  apply (@dbUsed_counts_operations_in_flight Example.env "L" Example.added).
  apply reachable_step; [apply reachable_loaded | reflexivity].
Defined.

(** * The search of lib/trust.js is not complete *)

Lemma reachable_detour : @reachable Detour.env "L" Detour.index.
Proof.
  unfold Detour.index.
  apply reachable_step; [|reflexivity].
  apply reachable_step; [apply reachable_loaded | reflexivity].
Qed.

(** X12: [getChain] can answer that there is no trust path while the index
    holds a chain from the root to the local key that is short enough and
    whose links have not expired.  The search marks a node when it takes it
    from its stack and never takes it again: a node that it reached first at
    the end of a longer path, too far to go on from, is lost for the shorter
    one. *)
Theorem getChain_can_miss_a_stored_chain :
  exists (env : Env) (pk : Buffer) (t : Trust) (root : Buffer)
         (chain : list Buffer) (now : Z),
    reachable pk t /\ _ready t = true /\
    walk (_graph t) root chain pk /\
    (List.length chain <= MAX_CHAIN_LENGTH)%nat /\
    graph_all (fun c => num_gt (Link.expiration (link c)) now = true)
              (_graph t) /\
    forall callback,
      nextTicks (getChain root callback now t)
        = (nextTicks t ++ [(callback, Failure "No trust path available")])%list.
Proof.
  exists Detour.env, "L", Detour.index, "R", Detour.short, 10%Z.
  split; [exact reachable_detour|].
  split; [reflexivity|].
  split.
  { unfold Detour.short.
    apply (walk_cons _ "R" "X" (mkChild (Example.L "X" 1000) "RX"));
      [reflexivity|].
    apply (walk_cons _ "X" "C" (mkChild (Example.L "C" 1000) "XC"));
      [reflexivity|].
    apply (walk_cons _ "C" "E" (mkChild (Example.L "E" 1000) "CE"));
      [reflexivity|].
    apply (walk_cons _ "E" "L" (mkChild (Example.L "L" 1000) "EL"));
      [reflexivity|].
    apply walk_nil. }
  split; [simpl; lia|].
  split.
  { vm_compute. repeat constructor. }
  intros callback. vm_compute. reflexivity.
Qed.

(** * The further properties at work on the example codec *)

#[local] Existing Instance Example.env.

Lemma reachable_added : reachable "L" Example.added.
Proof. apply reachable_step; [apply reachable_loaded | reflexivity]. Qed.

Lemma legacy_reachable_added : Legacy.reachable "L" LegacyExample.added.
Proof. apply Legacy.after_addChain, Legacy.after_new. Qed.

Lemma legacy_reachable_one : Legacy.reachable "L" LegacyExample.one.
Proof. apply Legacy.after_addChain, Legacy.after_new. Qed.

(** X1 at work: the index after the chain of the first test. *)
Lemma index_has_one_link_per_pair_witness :
  index_ok (_graph Example.added).
Proof.
  exact (index_has_one_link_per_pair "L" Example.added reachable_added).
Defined.

(** X2 at work: the chain of the first test is asked for at time 10. *)
Lemma getChain_answers_once_witness :
  exists reply,
    nextTicks (getChain "R" 2%nat 10 Example.added)
      = (nextTicks Example.added ++ [(2%nat, reply)])%list /\
    (reply = Failure "No trust path available" \/
     exists chain, reply = Chain chain) /\
    _ready (getChain "R" 2%nat 10 Example.added) = true /\
    _queue (getChain "R" 2%nat 10 Example.added) = _queue Example.added.
Proof.
  apply (getChain_answers_once "L"); [exact reachable_added | reflexivity].
Defined.

(** X3 at work: the same chain is asked for at time 2000, when its links have
    expired. *)
Lemma getChain_removes_only_expired_links_witness :
  let t' := getChain "R" 2%nat 2000 Example.added in
  exists removed,
    pruned 2000 (_graph Example.added) removed (_graph t') /\
    (forall issuer subject c,
       edge issuer subject Example.added = Some c ->
       edge issuer subject t' <> Some c ->
       In c removed) /\
    (forall issuer subject c,
       edge issuer subject t' = Some c ->
       edge issuer subject Example.added = Some c) /\
    (forall issuer subject c,
       edge issuer subject Example.added = Some c ->
       num_le (Link.expiration (link c)) 2000 = false ->
       edge issuer subject t' = Some c) /\
    Forall (fun c => num_le (Link.expiration (link c)) 2000 = true) removed /\
    Level.pending (db t')
      = (Level.pending (db Example.added) ++ map del_of removed)%list /\
    Level.store (db t') = Level.store (db Example.added) /\
    _dbUsed t'
      = (_dbUsed Example.added + Z.of_nat (List.length removed))%Z.
Proof.
  apply (getChain_removes_only_expired_links "L"). exact reachable_added.
Defined.

(** X4 at work: the node of the root is there after that query. *)
Lemma nodes_are_never_removed_witness :
  JsMap.has "R"
    (_graph (fst (step (CallGetChain "R" 2%nat 2000) Example.added))) = true.
Proof.
  apply (nodes_are_never_removed "L");
    [exact reachable_added | reflexivity].
Defined.

(** X5 at work: the answer at time 10 is a path of the index. *)
Lemma getChain_finds_a_stored_path_witness :
  walk (_graph Example.added) "R" ["RA"; "AB"; "BL"]
       (publicKey Example.added).
Proof.
  apply (getChain_finds_a_stored_path "L" Example.added "R" 2%nat 10).
  - exact reachable_added.
  - reflexivity.
  - vm_compute. discriminate.
  - intros c H. vm_compute in H. discriminate.
  - vm_compute. reflexivity.
Defined.

(** X6 at work: the chain is asked for at time 10 and again at time 5. *)
Lemma getChain_repeats_from_cache_witness :
  let t' := getChain "R" 2%nat 10 Example.added in
  nextTicks (getChain "R" 3%nat 5 t')
    = (nextTicks t' ++ [(3%nat, Chain ["RA"; "AB"; "BL"])])%list /\
  _graph (getChain "R" 3%nat 5 t') = _graph t' /\
  db (getChain "R" 3%nat 5 t') = db t'.
Proof.
  apply (getChain_repeats_from_cache "L" Example.added "R" 2%nat 10).
  - exact reachable_added.
  - reflexivity.
  - vm_compute. discriminate.
  - vm_compute. reflexivity.
  - lia.
Defined.

(** X8 at work: the chain of the first test is added with a callback. *)
Lemma addChain_calls_back_once_witness :
  snd (addChain "R" ["RA"; "AB"; "BL"] (Some 1%nat) (at_time 0)
         Example.start)
    = Returned /\
  nextTicks (fst (addChain "R" ["RA"; "AB"; "BL"] (Some 1%nat) (at_time 0)
                    Example.start))
    = (nextTicks Example.start ++ [(1%nat, Called)])%list.
Proof.
  apply (addChain_calls_back_once "R" ["RA"; "AB"; "BL"] (Some 1%nat)
           (at_time 0) Example.start).
  - discriminate.
  - repeat constructor; vm_compute; discriminate.
Defined.

(** X9 at work: the link R -> A, written at time 0 and read back. *)
Lemma load_reads_back_what_addLink_wrote_witness :
  Level.pending (db (_addLink "R" "RA" (Example.L "A" 1000) 0 Example.start))
    = (Level.pending (db Example.start)
       ++ [Put (String.append LINK_PREFIX "RA") "R"])%list /\
  load_data (String.append LINK_PREFIX "RA") "R" Example.start
    = (set_graph
         (_graph (_addLink "R" "RA" (Example.L "A" 1000) 0 Example.start))
         Example.start, Returned).
Proof.
  apply (load_reads_back_what_addLink_wrote "R" "RA" (Example.L "A" 1000) 0
           Example.start).
  - reflexivity.
  - reflexivity.
Defined.

(** X10 at work: the load of a new engine fails, and a query comes after. *)
Lemma failed_load_never_becomes_ready_witness :
  _ready (run [CallGetChain "R" 1%nat 0]
              (fst (step StreamError (new_Trust "L")))) = false /\
  exists more,
    _queue (run [CallGetChain "R" 1%nat 0]
                (fst (step StreamError (new_Trust "L"))))
      = (_queue (new_Trust "L") ++ more)%list.
Proof.
  apply (failed_load_never_becomes_ready "L" (new_Trust "L")
           [CallGetChain "R" 1%nat 0]).
  - apply reachable_new.
  - reflexivity.
Defined.

(** X11 at work: the chain of the first test. *)
Lemma added_chain_is_found_witness :
  let t := fst (addChain "R" ["RA"; "AB"; "BL"] None (at_time 0)
                  (loaded "L")) in
  nextTicks (getChain "R" 2%nat 10 t)
    = (nextTicks t ++ [(2%nat, Chain ["RA"; "AB"; "BL"])])%list.
Proof.
  apply (added_chain_is_found "L" "R"
           [mkChild (Example.L "A" 1000) "RA";
            mkChild (Example.L "B" 1000) "AB"]
           (mkChild (Example.L "L" 1000) "BL") None 2%nat (at_time 0) 10).
  - repeat constructor.
  - reflexivity.
  - repeat constructor; simpl; intuition discriminate.
  - repeat constructor.
  - simpl. lia.
Defined.

(** X13 at work: the earlier engine is asked for the chain of the first
    test. *)
Lemma legacy_getChain_follows_stored_links_witness :
  exists t' res,
    Legacy.getChain "R" LegacyExample.clock LegacyExample.added
      = Some (t', res) /\
    Legacy.db t' = Legacy.db LegacyExample.added /\
    (forall chain, res = Legacy.Got chain ->
       (List.length chain <= MAX_CHAIN_LENGTH)%nat /\
       Legacy.follows LegacyExample.added "R" chain
                      (Legacy.publicKey LegacyExample.added)
                      LegacyExample.clock 0) /\
    (forall err, res = Legacy.Failed err ->
       In err ["NotFound"; "Route expired"; "Route length exceeded"]).
Proof.
  apply (legacy_getChain_follows_stored_links "R" LegacyExample.clock
           LegacyExample.added).
  simpl. lia.
Defined.

(** X14 at work: the stored links of the first test lead to the local key. *)
Lemma legacy_getChain_gives_the_stored_chain_witness :
  exists t',
    Legacy.getChain "R" LegacyExample.clock LegacyExample.added
      = Some (t', Legacy.Got ["RA"; "AB"; "BL"]).
Proof.
  apply (legacy_getChain_gives_the_stored_chain "R" ["RA"; "AB"; "BL"]
           LegacyExample.clock LegacyExample.added).
  - vm_compute. discriminate.
  - exists (Legacy.mkValue (-1) "RA"), (Example.L "A" 1000).
    repeat (split; [reflexivity|]).
    exists (Legacy.mkValue (-1) "AB"), (Example.L "B" 1000).
    repeat (split; [reflexivity|]).
    exists (Legacy.mkValue 0 "BL"), (Example.L "L" 1000).
    repeat (split; [reflexivity|]).
    reflexivity.
  - repeat constructor; intros l H; vm_compute in H; injection H as <-;
      vm_compute; discriminate.
  - simpl. lia.
Defined.

(** X15 at work: the link B -> L of the first test has depth 0. *)
Lemma legacy_depth_zero_is_a_link_to_us_witness :
  JsMap.get (String.append Legacy.LINK_PREFIX "B")
            (Legacy.db LegacyExample.added)
    = Some (Legacy.mkValue 0 "BL") /\
  exists l, parseLink (Legacy.raw (Legacy.mkValue 0 "BL")) = Some l /\
            (-1 <= Legacy.depth (Legacy.mkValue 0 "BL"))%Z /\
            (Legacy.depth (Legacy.mkValue 0 "BL") = 0%Z
             <-> Link.publicKey l = "L").
Proof.
  apply (legacy_depth_zero_is_a_link_to_us "L" LegacyExample.added "B"
           (Legacy.mkValue 0 "BL")).
  - exact legacy_reachable_added.
  - reflexivity.
Defined.

(** X16 at work: a second link of the root is written after the first
    test. *)
Lemma legacy_getLink_reads_what_putLink_wrote_witness :
  snd (Legacy._getLink "R"
         (fst (Legacy._putLink "R" "RB" 1 LegacyExample.added)))
    = Legacy.Got (Legacy.mkFound 1 (Example.L "B" 1000) "RB") /\
  forall k, k <> "R" ->
            Legacy.stored k
              (fst (Legacy._putLink "R" "RB" 1 LegacyExample.added))
            = Legacy.stored k LegacyExample.added.
Proof.
  apply (legacy_getLink_reads_what_putLink_wrote "L" LegacyExample.added
           "R" "RB" 1 (Example.L "B" 1000)).
  - exact legacy_reachable_added.
  - reflexivity.
Defined.

(** X17 at work: after the first test, a query and a second chain. *)
Lemma legacy_reachable_never_throws_witness :
  (exists t' res,
     Legacy.getChain "R" LegacyExample.clock LegacyExample.added
       = Some (t', res) /\
     forall m, res <> Legacy.Thrown m) /\
  (snd (Legacy.addChain "R" ["RB"; "BL"] LegacyExample.added)
     = Some (Legacy.Got tt) \/
   snd (Legacy.addChain "R" ["RB"; "BL"] LegacyExample.added)
     = Some (Legacy.Failed "NotFound")).
Proof.
  apply (legacy_reachable_never_throws "L" LegacyExample.added "R"
           LegacyExample.clock ["RB"; "BL"]).
  - exact legacy_reachable_added.
  - simpl. lia.
  - repeat constructor; vm_compute; discriminate.
  - discriminate.
Defined.

(** X18 at work: the link R -> A that expires at 1000 is stored; the link
    for the same edge that expires at 500 takes its place. *)
Lemma legacy_same_edge_always_replaces_witness :
  snd (Legacy._addLink "R" (Example.L "A" 500) "RA'" LegacyExample.one)
    = Legacy.Got tt /\
  Legacy.stored "R"
    (fst (Legacy._addLink "R" (Example.L "A" 500) "RA'" LegacyExample.one))
    = Some (Legacy.mkValue (Legacy.depth (Legacy.mkValue (-1) "RA")) "RA'").
Proof.
  apply (legacy_same_edge_always_replaces "R" "RA'" (Example.L "A" 500)
           (Example.L "A" 1000) (Legacy.mkValue (-1) "RA")
           LegacyExample.one).
  - reflexivity.
  - reflexivity.
  - discriminate.
  - reflexivity.
Defined.

(** X19 at work: the link R -> A is stored and the store has no link of D;
    the link R -> D is refused. *)
Lemma legacy_link_to_unknown_key_is_an_error_witness :
  snd (Legacy._addLink "R" (Example.L "D" 500) "RD" LegacyExample.one)
    = Legacy.Failed "NotFound" /\
  Legacy.db (fst (Legacy._addLink "R" (Example.L "D" 500) "RD"
                    LegacyExample.one))
    = Legacy.db LegacyExample.one /\
  forall k,
    Legacy.stored k (fst (Legacy._addLink "R" (Example.L "D" 500) "RD"
                            LegacyExample.one))
    = Legacy.stored k LegacyExample.one.
Proof.
  apply (legacy_link_to_unknown_key_is_an_error "R" "RD"
           (Example.L "D" 500) (Example.L "A" 1000)
           (Legacy.mkValue (-1) "RA") LegacyExample.one).
  - reflexivity.
  - reflexivity.
  - discriminate.
  - discriminate.
  - discriminate.
  - reflexivity.
Defined.

(** X20 at work: the direct link R -> L is added after the first test. *)
Lemma legacy_direct_link_is_found_witness :
  snd (Legacy.addChain "R" ["RL"] LegacyExample.added)
    = Some (Legacy.Got tt) /\
  exists t',
    Legacy.getChain "R" LegacyExample.clock
      (fst (Legacy.addChain "R" ["RL"] LegacyExample.added))
      = Some (t', Legacy.Got ["RL"]).
Proof.
  apply (legacy_direct_link_is_found "L" LegacyExample.added "R" "RL"
           (Example.L "L" 1000) LegacyExample.clock).
  - exact legacy_reachable_added.
  - reflexivity.
  - reflexivity.
  - discriminate.
  - reflexivity.
  - simpl. lia.
Defined.

(** X21 at work: the second link of the chain does not decode. *)
Lemma legacy_addChain_stores_nothing_on_decode_failure_witness :
  Legacy.addChain "R" ["RA"; "??"; "BL"] LegacyExample.added
    = (LegacyExample.added, Some (Legacy.Thrown "parseLink")).
Proof.
  apply (legacy_addChain_stores_nothing_on_decode_failure "R"
           ["RA"; "??"; "BL"] LegacyExample.added).
  apply Exists_cons_tl, Exists_cons_hd. reflexivity.
Defined.

(** X22 at work: the chains R -> A -> B -> L and R -> B -> L of the tests. *)
Lemma legacy_short_chain_is_found_in_either_order_witness :
  let long := ["RA"; "AB"; "BL"] in
  let short := ["RB"; "BL"] in
  let t0 := Legacy.new_Trust "L" in
  let t12 :=
    fst (Legacy.addChain "R" short (fst (Legacy.addChain "R" long t0))) in
  let t21 :=
    fst (Legacy.addChain "R" long (fst (Legacy.addChain "R" short t0))) in
  (exists t' x,
     Legacy.getChain "R" LegacyExample.clock t12
       = Some (t', Legacy.Got ["RB"; x])
     /\ (x = "BL" \/ ("B" = "B" /\ x = "BL"))) /\
  (exists t' x,
     Legacy.getChain "R" LegacyExample.clock t21
       = Some (t', Legacy.Got ["RB"; x])
     /\ (x = "BL" \/ ("B" = "B" /\ x = "BL"))).
Proof.
  apply (legacy_short_chain_is_found_in_either_order
           "R" "A" "B" "B" "L" "RA" "AB" "BL" "RB" "BL"
           (Finite 1000) (Finite 1000) (Finite 1000) (Finite 1000)
           (Finite 1000) LegacyExample.clock).
  - repeat constructor; simpl; intuition discriminate.
  - discriminate.
  - discriminate.
  - discriminate.
  - reflexivity.
  - reflexivity.
  - reflexivity.
  - reflexivity.
  - reflexivity.
  - reflexivity.
  - reflexivity.
  - reflexivity.
  - simpl. lia.
Defined.
